(** * The OGDF [Graph] class: a shallow embedding and its properties

    The development follows [Graph.cpp].  Nodes, edges and adjacency
    entries (half-edges) are heap objects addressed by pointers; the
    graph owns three object stores, the node list, the edge list, the
    list of hidden edges, the id counters and table sizes, and the
    registries of auxiliary arrays and of observers. *)

From stdpp Require Import gmap list.
From Stdlib Require Import ZArith Lia.

Open Scope Z_scope.

(** ** Handles

    A [node], [edge] or [adjEntry] of the C++ code is a pointer.  The null
    pointer is [0]; no object is ever stored at address [0]. *)

Abbreviation node := nat (only parsing).
Abbreviation edge := nat (only parsing).
Abbreviation adjEntry := nat (only parsing).

Definition nullptr : nat := 0%nat.

Definition MIN_NODE_TABLE_SIZE : Z := Z.shiftl 1 4.
Definition MIN_EDGE_TABLE_SIZE : Z := Z.shiftl 1 4.

Inductive Direction := after | before.

(** ** Elements *)

(** [AdjElement]: what [AdjElement(node v)] builds has a null twin, a null
    edge and index 0. *)
Record AdjElement := mkAdj {
  a_twin : adjEntry;
  a_edge : edge;
  a_node : node;
  a_id : Z
}.

Record EdgeElement := mkEdge {
  m_src : node;
  m_tgt : node;
  m_adjSrc : adjEntry;
  m_adjTgt : adjEntry;
  e_id : Z
}.

Record NodeElement := mkNode {
  n_id : Z;
  m_indeg : Z;
  m_outdeg : Z;
  adjEdges : list adjEntry
}.

(** Modelled from the spec: the base class of the registered auxiliary
    arrays ([NodeArrayBase], [EdgeArrayBase], [AdjEntryArrayBase]) is
    declared in headers outside this file.  An array is reduced to its
    identity, its capacity and whether it is still attached to a graph. *)
Record ArrayBase := mkArray {
  arr_tag : nat;
  arr_size : Z;
  arr_attached : bool
}.

Definition enlargeTable (newTableSize : Z) (a : ArrayBase) : ArrayBase :=
  mkArray (arr_tag a) newTableSize (arr_attached a).

Definition reinit (initTableSize : Z) (a : ArrayBase) : ArrayBase :=
  mkArray (arr_tag a) initTableSize (arr_attached a).

Definition resetIndex (newIndex oldIndex : Z) (a : ArrayBase) : ArrayBase := a.

Definition disconnect (a : ArrayBase) : ArrayBase :=
  mkArray (arr_tag a) 0 false.

(** Modelled from the spec: a [GraphObserver] is declared outside this
    file; it is reduced to its identity and whether it still refers to a
    graph.  What it hears is recorded separately (see [Note]). *)
Record GraphObserver := mkObserver {
  obs_tag : nat;
  obs_attached : bool
}.

(** ** The graph *)

Record Graph := mkGraph {
  nodeMem : gmap nat NodeElement;
  edgeMem : gmap nat EdgeElement;
  adjMem : gmap nat AdjElement;
  brk : nat;
  nodes : list node;
  edges : list edge;
  m_hiddenEdges : list edge;
  m_nodeIdCount : Z;
  m_edgeIdCount : Z;
  m_nodeArrayTableSize : Z;
  m_edgeArrayTableSize : Z;
  m_regNodeArrays : list ArrayBase;
  m_regEdgeArrays : list ArrayBase;
  m_regAdjArrays : list ArrayBase;
  m_regStructures : list GraphObserver
}.

Definition set_nodeMem x g := mkGraph x (edgeMem g) (adjMem g) (brk g) (nodes g) (edges g) (m_hiddenEdges g) (m_nodeIdCount g) (m_edgeIdCount g) (m_nodeArrayTableSize g) (m_edgeArrayTableSize g) (m_regNodeArrays g) (m_regEdgeArrays g) (m_regAdjArrays g) (m_regStructures g).
Definition set_edgeMem x g := mkGraph (nodeMem g) x (adjMem g) (brk g) (nodes g) (edges g) (m_hiddenEdges g) (m_nodeIdCount g) (m_edgeIdCount g) (m_nodeArrayTableSize g) (m_edgeArrayTableSize g) (m_regNodeArrays g) (m_regEdgeArrays g) (m_regAdjArrays g) (m_regStructures g).
Definition set_adjMem x g := mkGraph (nodeMem g) (edgeMem g) x (brk g) (nodes g) (edges g) (m_hiddenEdges g) (m_nodeIdCount g) (m_edgeIdCount g) (m_nodeArrayTableSize g) (m_edgeArrayTableSize g) (m_regNodeArrays g) (m_regEdgeArrays g) (m_regAdjArrays g) (m_regStructures g).
Definition set_brk x g := mkGraph (nodeMem g) (edgeMem g) (adjMem g) x (nodes g) (edges g) (m_hiddenEdges g) (m_nodeIdCount g) (m_edgeIdCount g) (m_nodeArrayTableSize g) (m_edgeArrayTableSize g) (m_regNodeArrays g) (m_regEdgeArrays g) (m_regAdjArrays g) (m_regStructures g).
Definition set_nodes x g := mkGraph (nodeMem g) (edgeMem g) (adjMem g) (brk g) x (edges g) (m_hiddenEdges g) (m_nodeIdCount g) (m_edgeIdCount g) (m_nodeArrayTableSize g) (m_edgeArrayTableSize g) (m_regNodeArrays g) (m_regEdgeArrays g) (m_regAdjArrays g) (m_regStructures g).
Definition set_edges x g := mkGraph (nodeMem g) (edgeMem g) (adjMem g) (brk g) (nodes g) x (m_hiddenEdges g) (m_nodeIdCount g) (m_edgeIdCount g) (m_nodeArrayTableSize g) (m_edgeArrayTableSize g) (m_regNodeArrays g) (m_regEdgeArrays g) (m_regAdjArrays g) (m_regStructures g).
Definition set_hiddenEdges x g := mkGraph (nodeMem g) (edgeMem g) (adjMem g) (brk g) (nodes g) (edges g) x (m_nodeIdCount g) (m_edgeIdCount g) (m_nodeArrayTableSize g) (m_edgeArrayTableSize g) (m_regNodeArrays g) (m_regEdgeArrays g) (m_regAdjArrays g) (m_regStructures g).
Definition set_nodeIdCount x g := mkGraph (nodeMem g) (edgeMem g) (adjMem g) (brk g) (nodes g) (edges g) (m_hiddenEdges g) x (m_edgeIdCount g) (m_nodeArrayTableSize g) (m_edgeArrayTableSize g) (m_regNodeArrays g) (m_regEdgeArrays g) (m_regAdjArrays g) (m_regStructures g).
Definition set_edgeIdCount x g := mkGraph (nodeMem g) (edgeMem g) (adjMem g) (brk g) (nodes g) (edges g) (m_hiddenEdges g) (m_nodeIdCount g) x (m_nodeArrayTableSize g) (m_edgeArrayTableSize g) (m_regNodeArrays g) (m_regEdgeArrays g) (m_regAdjArrays g) (m_regStructures g).
Definition set_nodeArrayTableSize x g := mkGraph (nodeMem g) (edgeMem g) (adjMem g) (brk g) (nodes g) (edges g) (m_hiddenEdges g) (m_nodeIdCount g) (m_edgeIdCount g) x (m_edgeArrayTableSize g) (m_regNodeArrays g) (m_regEdgeArrays g) (m_regAdjArrays g) (m_regStructures g).
Definition set_edgeArrayTableSize x g := mkGraph (nodeMem g) (edgeMem g) (adjMem g) (brk g) (nodes g) (edges g) (m_hiddenEdges g) (m_nodeIdCount g) (m_edgeIdCount g) (m_nodeArrayTableSize g) x (m_regNodeArrays g) (m_regEdgeArrays g) (m_regAdjArrays g) (m_regStructures g).
Definition set_regNodeArrays x g := mkGraph (nodeMem g) (edgeMem g) (adjMem g) (brk g) (nodes g) (edges g) (m_hiddenEdges g) (m_nodeIdCount g) (m_edgeIdCount g) (m_nodeArrayTableSize g) (m_edgeArrayTableSize g) x (m_regEdgeArrays g) (m_regAdjArrays g) (m_regStructures g).
Definition set_regEdgeArrays x g := mkGraph (nodeMem g) (edgeMem g) (adjMem g) (brk g) (nodes g) (edges g) (m_hiddenEdges g) (m_nodeIdCount g) (m_edgeIdCount g) (m_nodeArrayTableSize g) (m_edgeArrayTableSize g) (m_regNodeArrays g) x (m_regAdjArrays g) (m_regStructures g).
Definition set_regAdjArrays x g := mkGraph (nodeMem g) (edgeMem g) (adjMem g) (brk g) (nodes g) (edges g) (m_hiddenEdges g) (m_nodeIdCount g) (m_edgeIdCount g) (m_nodeArrayTableSize g) (m_edgeArrayTableSize g) (m_regNodeArrays g) (m_regEdgeArrays g) x (m_regStructures g).
Definition set_regStructures x g := mkGraph (nodeMem g) (edgeMem g) (adjMem g) (brk g) (nodes g) (edges g) (m_hiddenEdges g) (m_nodeIdCount g) (m_edgeIdCount g) (m_nodeArrayTableSize g) (m_edgeArrayTableSize g) (m_regNodeArrays g) (m_regEdgeArrays g) (m_regAdjArrays g) x.

(** [Graph::Graph()] *)
Definition Graph_new : Graph :=
  mkGraph ∅ ∅ ∅ 1%nat [] [] [] 0 0 MIN_NODE_TABLE_SIZE MIN_EDGE_TABLE_SIZE [] [] [] [].

(** ** Observers and what they hear

    A notification is recorded together with the graph as the observer
    finds it when its callback runs. *)

Inductive Event :=
  | nodeAdded (v : node)
  | nodeDeleted (v : node)
  | edgeAdded (e : edge)
  | edgeDeleted (e : edge)
  | cleared
  | reInit.

Record Note := mkNote {
  who : GraphObserver;
  what : Event;
  seen : Graph
}.

Record World := mkWorld {
  graph : Graph;
  heard : list Note
}.

(** ** The monad of graph operations

    An operation reads and updates the world; it yields [None] where the
    C++ code fails an assertion or dereferences a pointer that does not
    address an object of the graph. *)

Definition M (A : Type) : Type := World -> option (A * World).

Definition ret {A} (a : A) : M A := fun w => Some (a, w).

Definition bind {A B} (m : M A) (f : A -> M B) : M B :=
  fun w => match m w with
           | Some (a, w') => f a w'
           | None => None
           end.

Definition fail {A} : M A := fun _ => None.

Notation "x <- m ;; k" := (bind m (fun x => k))
  (at level 100, m at next level, right associativity).
Notation "m ;;; k" := (bind m (fun _ => k))
  (at level 100, right associativity).

Definition gets {A} (f : Graph -> A) : M A := fun w => Some (f (graph w), w).

Definition modify (f : Graph -> Graph) : M unit :=
  fun w => Some (tt, mkWorld (f (graph w)) (heard w)).

Definition lift {A} (f : Graph -> option A) : M A :=
  fun w => match f (graph w) with
           | Some a => Some (a, w)
           | None => None
           end.

Definition OGDF_ASSERT (b : bool) : M unit := if b then ret tt else fail.

(** [for (GraphObserver *obs : m_regStructures) obs->ev(...)] *)
Definition notify (ev : Event) : M unit :=
  fun w => Some (tt, mkWorld (graph w)
                       (heard w ++ map (fun o => mkNote o ev (graph w))
                                       (m_regStructures (graph w)))).

(** Runs an operation on a graph nobody has heard anything about yet. *)
Definition run {A} (m : M A) (g : Graph) : option (A * World) := m (mkWorld g []).

Definition exec {A} (m : M A) (g : Graph) : option Graph :=
  match run m g with
  | Some (_, w) => Some (graph w)
  | None => None
  end.

(** ** Intrusive lists

    Modelled from the spec: [GraphList<T>] (the node list, the edge list,
    the hidden-edge list and every node's rotation [adjEdges]) is declared
    in a header outside this file.  A list is the sequence of the pointers
    linked into it.  Unlinking an element that is not in the list, or
    inserting next to one that is not, has no defined result. *)

Fixpoint unlink (x : nat) (l : list nat) : option (list nat) :=
  match l with
  | [] => None
  | y :: r => if Nat.eqb y x then Some r
              else match unlink x r with
                   | Some r' => Some (y :: r')
                   | None => None
                   end
  end.

Definition pushBack (x : nat) (l : list nat) : list nat := l ++ [x].

Fixpoint insertBefore (x y : nat) (l : list nat) : option (list nat) :=
  match l with
  | [] => None
  | z :: r => if Nat.eqb z y then Some (x :: z :: r)
              else match insertBefore x y r with
                   | Some r' => Some (z :: r')
                   | None => None
                   end
  end.

Fixpoint insertAfter (x y : nat) (l : list nat) : option (list nat) :=
  match l with
  | [] => None
  | z :: r => if Nat.eqb z y then Some (z :: x :: r)
              else match insertAfter x y r with
                   | Some r' => Some (z :: r')
                   | None => None
                   end
  end.

Definition insertAt (dir : Direction) (x y : nat) (l : list nat) : option (list nat) :=
  match dir with
  | after => insertAfter x y l
  | before => insertBefore x y l
  end.

(** [head()] and [tail()] of a list: the null pointer when it is empty. *)
Definition list_head (l : list nat) : nat := hd nullptr l.
Definition list_tail (l : list nat) : nat := List.last l nullptr.

(** [succ()]: the next element, null after the last one. *)
Fixpoint list_succ (x : nat) (l : list nat) : option nat :=
  match l with
  | [] => None
  | y :: r => if Nat.eqb y x then Some (list_head r) else list_succ x r
  end.

(** [pred()]: the previous element, null before the first one. *)
Fixpoint list_pred_from (p x : nat) (l : list nat) : option nat :=
  match l with
  | [] => None
  | y :: r => if Nat.eqb y x then Some p else list_pred_from y x r
  end.

Definition list_pred (x : nat) (l : list nat) : option nat := list_pred_from nullptr x l.

(** [cyclicSucc()]: the next element, the first one after the last. *)
Definition list_cyclicSucc (x : nat) (l : list nat) : option nat :=
  match list_succ x l with
  | Some s => Some (if Nat.eqb s nullptr then list_head l else s)
  | None => None
  end.

(** ** Reading the graph (the [const] accessors) *)

Definition with_twin x (r : AdjElement) := mkAdj x (a_edge r) (a_node r) (a_id r).
Definition with_edge x (r : AdjElement) := mkAdj (a_twin r) x (a_node r) (a_id r).
Definition with_node x (r : AdjElement) := mkAdj (a_twin r) (a_edge r) x (a_id r).
Definition with_id x (r : AdjElement) := mkAdj (a_twin r) (a_edge r) (a_node r) x.

Definition with_src x (r : EdgeElement) := mkEdge x (m_tgt r) (m_adjSrc r) (m_adjTgt r) (e_id r).
Definition with_tgt x (r : EdgeElement) := mkEdge (m_src r) x (m_adjSrc r) (m_adjTgt r) (e_id r).
Definition with_adjSrc x (r : EdgeElement) := mkEdge (m_src r) (m_tgt r) x (m_adjTgt r) (e_id r).
Definition with_adjTgt x (r : EdgeElement) := mkEdge (m_src r) (m_tgt r) (m_adjSrc r) x (e_id r).

Definition with_indeg x (r : NodeElement) := mkNode (n_id r) x (m_outdeg r) (adjEdges r).
Definition with_outdeg x (r : NodeElement) := mkNode (n_id r) (m_indeg r) x (adjEdges r).
Definition with_adjEdges x (r : NodeElement) := mkNode (n_id r) (m_indeg r) (m_outdeg r) x.

(** [adj->theNode()], [adj->theEdge()], [adj->twin()], [adj->twinNode()],
    [adj->index()] *)
Definition theNode (g : Graph) (adj : adjEntry) : option node :=
  a_node <$> adjMem g !! adj.
Definition theEdge (g : Graph) (adj : adjEntry) : option edge :=
  a_edge <$> adjMem g !! adj.
Definition twin (g : Graph) (adj : adjEntry) : option adjEntry :=
  a_twin <$> adjMem g !! adj.
Definition twinNode (g : Graph) (adj : adjEntry) : option node :=
  t ← twin g adj; theNode g t.
Definition adj_index (g : Graph) (adj : adjEntry) : option Z :=
  a_id <$> adjMem g !! adj.

(** [adj->cyclicSucc()]: within the rotation of the node owning [adj]. *)
Definition cyclicSucc (g : Graph) (adj : adjEntry) : option adjEntry :=
  v ← theNode g adj; r ← nodeMem g !! v; list_cyclicSucc adj (adjEdges r).

(** [e->source()], [e->target()], [e->adjSource()], [e->adjTarget()],
    [e->isSelfLoop()] *)
Definition source (g : Graph) (e : edge) : option node := m_src <$> edgeMem g !! e.
Definition target (g : Graph) (e : edge) : option node := m_tgt <$> edgeMem g !! e.
Definition adjSource (g : Graph) (e : edge) : option adjEntry := m_adjSrc <$> edgeMem g !! e.
Definition adjTarget (g : Graph) (e : edge) : option adjEntry := m_adjTgt <$> edgeMem g !! e.
Definition isSelfLoop (g : Graph) (e : edge) : option bool :=
  (fun r => Nat.eqb (m_src r) (m_tgt r)) <$> edgeMem g !! e.

(** [v->indeg()], [v->outdeg()], [v->degree()] *)
Definition indeg (g : Graph) (v : node) : option Z := m_indeg <$> nodeMem g !! v.
Definition outdeg (g : Graph) (v : node) : option Z := m_outdeg <$> nodeMem g !! v.
Definition degree (g : Graph) (v : node) : option Z :=
  (fun r => m_indeg r + m_outdeg r) <$> nodeMem g !! v.
Definition rotation (g : Graph) (v : node) : option (list adjEntry) :=
  adjEdges <$> nodeMem g !! v.

(** ** Writing the graph *)

Definition upd_adj (adj : adjEntry) (f : AdjElement -> AdjElement) : M unit :=
  r <- lift (fun g => adjMem g !! adj) ;;
  modify (fun g => set_adjMem (<[adj := f r]> (adjMem g)) g).

Definition upd_edge (e : edge) (f : EdgeElement -> EdgeElement) : M unit :=
  r <- lift (fun g => edgeMem g !! e) ;;
  modify (fun g => set_edgeMem (<[e := f r]> (edgeMem g)) g).

Definition upd_node (v : node) (f : NodeElement -> NodeElement) : M unit :=
  r <- lift (fun g => nodeMem g !! v) ;;
  modify (fun g => set_nodeMem (<[v := f r]> (nodeMem g)) g).

(** [OGDF_NEW]: the next free address. *)
Definition alloc : M nat :=
  p <- gets brk ;;
  modify (fun g => set_brk (S (brk g)) g) ;;;
  ret p.

Definition new_AdjElement (v : node) : M adjEntry :=
  p <- alloc ;;
  modify (fun g => set_adjMem (<[p := mkAdj nullptr nullptr v 0]> (adjMem g)) g) ;;;
  ret p.

Definition new_NodeElement (id : Z) : M node :=
  p <- alloc ;;
  modify (fun g => set_nodeMem (<[p := mkNode id 0 0 []]> (nodeMem g)) g) ;;;
  ret p.

Definition new_EdgeElement (v w : node) (adjSrc adjTgt : adjEntry) (id : Z) : M edge :=
  p <- alloc ;;
  modify (fun g => set_edgeMem (<[p := mkEdge v w adjSrc adjTgt id]> (edgeMem g)) g) ;;;
  ret p.

(** [v->adjEdges.pushBack(adj)], [.delPure(adj)], [.del(adj)],
    [.insertAfter/insertBefore(adj, pos)] *)
Definition adjEdges_pushBack (v : node) (adj : adjEntry) : M unit :=
  upd_node v (fun r => with_adjEdges (pushBack adj (adjEdges r)) r).

Definition adjEdges_delPure (v : node) (adj : adjEntry) : M unit :=
  r <- lift (fun g => nodeMem g !! v) ;;
  l <- lift (fun _ => unlink adj (adjEdges r)) ;;
  upd_node v (with_adjEdges l).

Definition adjEdges_del (v : node) (adj : adjEntry) : M unit :=
  adjEdges_delPure v adj ;;;
  modify (fun g => set_adjMem (delete adj (adjMem g)) g).

Definition adjEdges_insert (v : node) (adj pos : adjEntry) (dir : Direction) : M unit :=
  r <- lift (fun g => nodeMem g !! v) ;;
  l <- lift (fun _ => insertAt dir adj pos (adjEdges r)) ;;
  upd_node v (with_adjEdges l).

(** [from->adjEdges.move(adj, to->adjEdges)] and
    [from->adjEdges.move(adj, to->adjEdges, pos, dir)] *)
Definition adjEdges_move (from : node) (adj : adjEntry) (to : node) : M unit :=
  adjEdges_delPure from adj ;;;
  adjEdges_pushBack to adj.

Definition adjEdges_move_at (from : node) (adj : adjEntry) (to : node)
    (pos : adjEntry) (dir : Direction) : M unit :=
  adjEdges_delPure from adj ;;;
  adjEdges_insert to adj pos dir.

(** [v->graphOf() == this], [e->graphOf() == this], [adj->graphOf() == this] *)
Definition node_graphOf (v : node) : M unit :=
  lift (fun g => nodeMem g !! v) ;;; ret tt.
Definition edge_graphOf (e : edge) : M unit :=
  lift (fun g => edgeMem g !! e) ;;; ret tt.
Definition adj_graphOf (adj : adjEntry) : M unit :=
  lift (fun g => adjMem g !! adj) ;;; ret tt.

Definition not_null (p : nat) : bool := negb (Nat.eqb p nullptr).

(** ** Identifiers and table growth *)

(** [Graph::nextPower2]: [while (start <= idCount) start <<= 1;].  The
    loop is given as many rounds as a positive [start] can need. *)
Fixpoint nextPower2_loop (fuel : nat) (start idCount : Z) : option Z :=
  if start <=? idCount then
    match fuel with
    | O => None
    | S fuel' => nextPower2_loop fuel' (Z.shiftl start 1) idCount
    end
  else Some start.

Definition nextPower2 (start idCount : Z) : option Z :=
  nextPower2_loop (S (Z.to_nat idCount)) start idCount.

Definition enlargeNodeArrays : M unit :=
  modify (fun g => set_regNodeArrays
                     (map (enlargeTable (m_nodeArrayTableSize g)) (m_regNodeArrays g)) g).

Definition enlargeEdgeArrays : M unit :=
  modify (fun g => set_regEdgeArrays
                     (map (enlargeTable (m_edgeArrayTableSize g)) (m_regEdgeArrays g)) g) ;;;
  modify (fun g => set_regAdjArrays
                     (map (enlargeTable (Z.shiftl (m_edgeArrayTableSize g) 1)) (m_regAdjArrays g)) g).

(** [Graph::newNode()] *)
Definition newNode : M node :=
  idCount <- gets m_nodeIdCount ;;
  tableSize <- gets m_nodeArrayTableSize ;;
  (if idCount =? tableSize then
     modify (fun g => set_nodeArrayTableSize (Z.shiftl (m_nodeArrayTableSize g) 1) g) ;;;
     enlargeNodeArrays
   else ret tt) ;;;
  v <- new_NodeElement idCount ;;
  modify (fun g => set_nodeIdCount (m_nodeIdCount g + 1) g) ;;;
  modify (fun g => set_nodes (pushBack v (nodes g)) g) ;;;
  notify (nodeAdded v) ;;;
  ret v.

(** [Graph::newNode(int index)] *)
Definition newNode_index (index : Z) : M node :=
  idCount <- gets m_nodeIdCount ;;
  (if idCount <=? index then
     modify (set_nodeIdCount (index + 1)) ;;;
     tableSize <- gets m_nodeArrayTableSize ;;
     (if tableSize <=? index then
        newSize <- lift (fun _ => nextPower2 tableSize index) ;;
        modify (set_nodeArrayTableSize newSize) ;;;
        enlargeNodeArrays
      else ret tt)
   else ret tt) ;;;
  v <- new_NodeElement index ;;
  modify (fun g => set_nodes (pushBack v (nodes g)) g) ;;;
  notify (nodeAdded v) ;;;
  ret v.

(** [Graph::createEdgeElement] *)
Definition createEdgeElement (v w : node) (adjSrc adjTgt : adjEntry) : M edge :=
  idCount <- gets m_edgeIdCount ;;
  tableSize <- gets m_edgeArrayTableSize ;;
  (if idCount =? tableSize then
     modify (fun g => set_edgeArrayTableSize (Z.shiftl (m_edgeArrayTableSize g) 1) g) ;;;
     enlargeEdgeArrays
   else ret tt) ;;;
  upd_adj adjSrc (with_id (Z.shiftl idCount 1)) ;;;
  upd_adj adjTgt (with_id (Z.lor (Z.shiftl idCount 1) 1)) ;;;
  e <- new_EdgeElement v w adjSrc adjTgt idCount ;;
  modify (fun g => set_edgeIdCount (m_edgeIdCount g + 1) g) ;;;
  modify (fun g => set_edges (pushBack e (edges g)) g) ;;;
  notify (edgeAdded e) ;;;
  ret e.

(** [Graph::newEdge(node v, node w, int index)] *)
Definition newEdge_index (v w : node) (index : Z) : M edge :=
  OGDF_ASSERT (not_null v) ;;;
  OGDF_ASSERT (not_null w) ;;;
  node_graphOf v ;;;
  node_graphOf w ;;;
  adjSrc <- new_AdjElement v ;;
  adjEdges_pushBack v adjSrc ;;;
  upd_node v (fun r => with_outdeg (m_outdeg r + 1) r) ;;;
  adjTgt <- new_AdjElement w ;;
  adjEdges_pushBack w adjTgt ;;;
  upd_node w (fun r => with_indeg (m_indeg r + 1) r) ;;;
  upd_adj adjSrc (with_twin adjTgt) ;;;
  upd_adj adjTgt (with_twin adjSrc) ;;;
  idCount <- gets m_edgeIdCount ;;
  (if idCount <=? index then
     modify (set_edgeIdCount (index + 1)) ;;;
     tableSize <- gets m_edgeArrayTableSize ;;
     (if tableSize <=? index then
        newSize <- lift (fun _ => nextPower2 tableSize index) ;;
        modify (set_edgeArrayTableSize newSize) ;;;
        enlargeEdgeArrays
      else ret tt)
   else ret tt) ;;;
  upd_adj adjSrc (with_id (Z.shiftl index 1)) ;;;
  upd_adj adjTgt (with_id (Z.lor (Z.shiftl index 1) 1)) ;;;
  e <- new_EdgeElement v w adjSrc adjTgt index ;;
  modify (fun g => set_edges (pushBack e (edges g)) g) ;;;
  notify (edgeAdded e) ;;;
  upd_adj adjTgt (with_edge e) ;;;
  upd_adj adjSrc (with_edge e) ;;;
  ret e.

(** [Graph::newEdge(node v, node w)] *)
Definition newEdge (v w : node) : M edge :=
  OGDF_ASSERT (not_null v) ;;;
  OGDF_ASSERT (not_null w) ;;;
  node_graphOf v ;;;
  node_graphOf w ;;;
  adjSrc <- new_AdjElement v ;;
  adjEdges_pushBack v adjSrc ;;;
  upd_node v (fun r => with_outdeg (m_outdeg r + 1) r) ;;;
  adjTgt <- new_AdjElement w ;;
  adjEdges_pushBack w adjTgt ;;;
  upd_node w (fun r => with_indeg (m_indeg r + 1) r) ;;;
  upd_adj adjSrc (with_twin adjTgt) ;;;
  upd_adj adjTgt (with_twin adjSrc) ;;;
  e <- createEdgeElement v w adjSrc adjTgt ;;
  upd_adj adjTgt (with_edge e) ;;;
  upd_adj adjSrc (with_edge e) ;;;
  ret e.

(** ** Registration *)

(** [Graph::registerArray] (three overloads) and [Graph::registerStructure] *)
Definition registerArray_node (a : ArrayBase) : M unit :=
  modify (fun g => set_regNodeArrays (m_regNodeArrays g ++ [a]) g).
Definition registerArray_edge (a : ArrayBase) : M unit :=
  modify (fun g => set_regEdgeArrays (m_regEdgeArrays g ++ [a]) g).
Definition registerArray_adj (a : ArrayBase) : M unit :=
  modify (fun g => set_regAdjArrays (m_regAdjArrays g ++ [a]) g).
Definition registerStructure (o : GraphObserver) : M unit :=
  modify (fun g => set_regStructures (m_regStructures g ++ [o]) g).

(** Modelled from the spec: the constructors [NodeArray(G)],
    [EdgeArray(G)] and [AdjEntryArray(G)] live in headers outside this
    file; an array is built with the capacity the graph's table size asks
    for and registers itself. *)
Definition NodeArray_new (tag : nat) : M unit :=
  ts <- gets m_nodeArrayTableSize ;; registerArray_node (mkArray tag ts true).
Definition EdgeArray_new (tag : nat) : M unit :=
  ts <- gets m_edgeArrayTableSize ;; registerArray_edge (mkArray tag ts true).
Definition AdjEntryArray_new (tag : nat) : M unit :=
  ts <- gets m_edgeArrayTableSize ;;
  registerArray_adj (mkArray tag (Z.shiftl ts 1) true).

(** [Graph::resetAdjEntryIndex] *)
Definition resetAdjEntryIndex (newIndex oldIndex : Z) : M unit :=
  modify (fun g => set_regAdjArrays (map (resetIndex newIndex oldIndex) (m_regAdjArrays g)) g).

(** ** Moving edge ends *)

(** [Graph::moveTarget(edge e, node v)] *)
Definition moveTarget (e : edge) (v : node) : M unit :=
  edge_graphOf e ;;;
  node_graphOf v ;;;
  adj <- lift (fun g => adjTarget g e) ;;
  tgt <- lift (fun g => target g e) ;;
  adjEdges_move tgt adj v ;;;
  tgt <- lift (fun g => target g e) ;;
  upd_node tgt (fun r => with_indeg (m_indeg r - 1) r) ;;;
  upd_edge e (with_tgt v) ;;;
  upd_adj adj (with_node v) ;;;
  upd_node v (fun r => with_indeg (m_indeg r + 1) r).

(** [Graph::moveTarget(edge e, adjEntry adjTgt, Direction dir)] *)
Definition moveTarget_at (e : edge) (adjTgt : adjEntry) (dir : Direction) : M unit :=
  v <- lift (fun g => theNode g adjTgt) ;;
  edge_graphOf e ;;;
  node_graphOf v ;;;
  adj <- lift (fun g => adjTarget g e) ;;
  tgt <- lift (fun g => target g e) ;;
  adjEdges_move_at tgt adj v adjTgt dir ;;;
  tgt <- lift (fun g => target g e) ;;
  upd_node tgt (fun r => with_indeg (m_indeg r - 1) r) ;;;
  upd_edge e (with_tgt v) ;;;
  upd_adj adj (with_node v) ;;;
  upd_node v (fun r => with_indeg (m_indeg r + 1) r).

(** [Graph::moveSource(edge e, node v)] *)
Definition moveSource (e : edge) (v : node) : M unit :=
  edge_graphOf e ;;;
  node_graphOf v ;;;
  adj <- lift (fun g => adjSource g e) ;;
  src <- lift (fun g => source g e) ;;
  adjEdges_move src adj v ;;;
  src <- lift (fun g => source g e) ;;
  upd_node src (fun r => with_outdeg (m_outdeg r - 1) r) ;;;
  upd_edge e (with_src v) ;;;
  upd_adj adj (with_node v) ;;;
  upd_node v (fun r => with_outdeg (m_outdeg r + 1) r).

(** [Graph::moveSource(edge e, adjEntry adjSrc, Direction dir)] *)
Definition moveSource_at (e : edge) (adjSrc : adjEntry) (dir : Direction) : M unit :=
  v <- lift (fun g => theNode g adjSrc) ;;
  edge_graphOf e ;;;
  node_graphOf v ;;;
  adj <- lift (fun g => adjSource g e) ;;
  src <- lift (fun g => source g e) ;;
  adjEdges_move_at src adj v adjSrc dir ;;;
  src <- lift (fun g => source g e) ;;
  upd_node src (fun r => with_outdeg (m_outdeg r - 1) r) ;;;
  upd_edge e (with_src v) ;;;
  upd_adj adj (with_node v) ;;;
  upd_node v (fun r => with_outdeg (m_outdeg r + 1) r).

(** ** Deleting *)

(** [edges.del(e)]: unlinks the edge and frees it. *)
Definition edges_del (e : edge) : M unit :=
  l <- lift (fun g => unlink e (edges g)) ;;
  modify (set_edges l) ;;;
  modify (fun g => set_edgeMem (delete e (edgeMem g)) g).

(** [nodes.del(v)]: unlinks the node and frees it; the destructor of its
    rotation frees the adjacency entries still linked there. *)
Definition nodes_del (v : node) : M unit :=
  l <- lift (fun g => unlink v (nodes g)) ;;
  modify (set_nodes l) ;;;
  r <- lift (fun g => nodeMem g !! v) ;;
  modify (fun g => set_adjMem (foldr delete (adjMem g) (adjEdges r)) g) ;;;
  modify (fun g => set_nodeMem (delete v (nodeMem g)) g).

(** [Graph::delEdge] *)
Definition delEdge (e : edge) : M unit :=
  OGDF_ASSERT (not_null e) ;;;
  edge_graphOf e ;;;
  notify (edgeDeleted e) ;;;
  src <- lift (fun g => source g e) ;;
  tgt <- lift (fun g => target g e) ;;
  adjSrc <- lift (fun g => adjSource g e) ;;
  adjEdges_del src adjSrc ;;;
  upd_node src (fun r => with_outdeg (m_outdeg r - 1) r) ;;;
  adjTgt <- lift (fun g => adjTarget g e) ;;
  adjEdges_del tgt adjTgt ;;;
  upd_node tgt (fun r => with_indeg (m_indeg r - 1) r) ;;;
  edges_del e.

(** [while((adj = adjEdges.head()) != nullptr) Graph::delEdge(adj->m_edge);] *)
Fixpoint delNode_loop (fuel : nat) (v : node) : M unit :=
  rot <- lift (fun g => rotation g v) ;;
  match rot with
  | [] => ret tt
  | adj :: _ =>
      match fuel with
      | O => fail
      | S fuel' =>
          e <- lift (fun g => theEdge g adj) ;;
          delEdge e ;;;
          delNode_loop fuel' v
      end
  end.

(** [Graph::delNode] *)
Definition delNode (v : node) : M unit :=
  OGDF_ASSERT (not_null v) ;;;
  node_graphOf v ;;;
  notify (nodeDeleted v) ;;;
  rot <- lift (fun g => rotation g v) ;;
  delNode_loop (length rot) v ;;;
  nodes_del v.

(** ** Splitting and unsplitting *)

(** [Graph::split] *)
Definition split (e : edge) : M edge :=
  OGDF_ASSERT (not_null e) ;;;
  edge_graphOf e ;;;
  u <- newNode ;;
  upd_node u (with_outdeg 1) ;;;
  upd_node u (with_indeg 1) ;;;
  adjTgt <- new_AdjElement u ;;
  upd_adj adjTgt (with_edge e) ;;;
  eAdjSrc <- lift (fun g => adjSource g e) ;;
  upd_adj adjTgt (with_twin eAdjSrc) ;;;
  upd_adj eAdjSrc (with_twin adjTgt) ;;;
  eAdjTgt <- lift (fun g => adjTarget g e) ;;
  id <- lift (fun g => adj_index g eAdjTgt) ;;
  upd_adj adjTgt (with_id id) ;;;
  adjEdges_pushBack u adjTgt ;;;
  adjSrc <- new_AdjElement u ;;
  upd_adj adjSrc (with_twin eAdjTgt) ;;;
  adjEdges_pushBack u adjSrc ;;;
  oldId <- lift (fun g => adj_index g eAdjTgt) ;;
  eTgt <- lift (fun g => target g e) ;;
  e2 <- createEdgeElement u eTgt adjSrc eAdjTgt ;;
  newId <- lift (fun g => adj_index g eAdjTgt) ;;
  resetAdjEntryIndex newId oldId ;;;
  e2AdjTgt <- lift (fun g => adjTarget g e2) ;;
  upd_adj e2AdjTgt (with_twin adjSrc) ;;;
  upd_adj adjSrc (with_edge e2) ;;;
  upd_adj eAdjTgt (with_edge e2) ;;;
  upd_edge e (with_tgt u) ;;;
  upd_edge e (with_adjTgt adjTgt) ;;;
  ret e2.

(** [Graph::unsplit(edge eIn, edge eOut)] *)
Definition unsplit (eIn eOut : edge) : M unit :=
  u <- lift (fun g => target g eIn) ;;
  node_graphOf u ;;;
  din <- lift (fun g => indeg g u) ;;
  OGDF_ASSERT (din =? 1) ;;;
  dout <- lift (fun g => outdeg g u) ;;
  OGDF_ASSERT (dout =? 1) ;;;
  s <- lift (fun g => source g eOut) ;;
  OGDF_ASSERT (Nat.eqb s u) ;;;
  loopIn <- lift (fun g => isSelfLoop g eIn) ;;
  OGDF_ASSERT (negb loopIn) ;;;
  loopOut <- lift (fun g => isSelfLoop g eOut) ;;
  OGDF_ASSERT (negb loopOut) ;;;
  adjSrc <- lift (fun g => adjSource g eIn) ;;
  adjTgt <- lift (fun g => adjTarget g eOut) ;;
  t <- lift (fun g => target g eOut) ;;
  upd_edge eIn (with_tgt t) ;;;
  eInAdjTgt <- lift (fun g => adjTarget g eIn) ;;
  newId <- lift (fun g => adj_index g eInAdjTgt) ;;
  oldId <- lift (fun g => adj_index g adjTgt) ;;
  resetAdjEntryIndex newId oldId ;;;
  upd_adj adjTgt (with_id newId) ;;;
  upd_edge eIn (with_adjTgt adjTgt) ;;;
  upd_adj adjSrc (with_twin adjTgt) ;;;
  upd_adj adjTgt (with_twin adjSrc) ;;;
  upd_adj adjTgt (with_edge eIn) ;;;
  notify (edgeDeleted eOut) ;;;
  notify (nodeDeleted u) ;;;
  edges_del eOut ;;;
  nodes_del u.

(** [Graph::reverseEdge] *)
Definition reverseEdge (e : edge) : M unit :=
  OGDF_ASSERT (not_null e) ;;;
  edge_graphOf e ;;;
  upd_edge e (fun r => mkEdge (m_tgt r) (m_src r) (m_adjTgt r) (m_adjSrc r) (e_id r)) ;;;
  src <- lift (fun g => source g e) ;;
  upd_node src (fun r => with_outdeg (m_outdeg r + 1) r) ;;;
  upd_node src (fun r => with_indeg (m_indeg r - 1) r) ;;;
  tgt <- lift (fun g => target g e) ;;
  upd_node tgt (fun r => with_outdeg (m_outdeg r - 1) r) ;;;
  upd_node tgt (fun r => with_indeg (m_indeg r + 1) r).

(** ** Searching *)

(** [for(adjEntry adj : v->adjEdges) if (adj->twinNode() == w) return
    adj->theEdge();] and [return nullptr;] after the loop. *)
Fixpoint searchEdge_scan (g : Graph) (w : node) (l : list adjEntry) : option edge :=
  match l with
  | [] => Some nullptr
  | adj :: r =>
      x ← twinNode g adj;
      if Nat.eqb x w then theEdge g adj else searchEdge_scan g w r
  end.

(** [Graph::searchEdge] *)
Definition searchEdge (g : Graph) (v w : node) : option edge :=
  dv ← degree g v;
  dw ← degree g w;
  let '(v, w) := if dw <? dv then (w, v) else (v, w) in
  rot ← rotation g v;
  searchEdge_scan g w rot.

(** ** Hiding and restoring *)

(** [Graph::hideEdge] *)
Definition hideEdge (e : edge) : M unit :=
  OGDF_ASSERT (not_null e) ;;;
  edge_graphOf e ;;;
  src <- lift (fun g => source g e) ;;
  tgt <- lift (fun g => target g e) ;;
  adjSrc <- lift (fun g => adjSource g e) ;;
  adjEdges_delPure src adjSrc ;;;
  upd_node src (fun r => with_outdeg (m_outdeg r - 1) r) ;;;
  adjTgt <- lift (fun g => adjTarget g e) ;;
  adjEdges_delPure tgt adjTgt ;;;
  upd_node tgt (fun r => with_indeg (m_indeg r - 1) r) ;;;
  l <- lift (fun g => unlink e (edges g)) ;;
  modify (set_edges l) ;;;
  modify (fun g => set_hiddenEdges (pushBack e (m_hiddenEdges g)) g).

(** [Graph::restoreEdge] *)
Definition restoreEdge (e : edge) : M unit :=
  v <- lift (fun g => source g e) ;;
  adjSrc <- lift (fun g => adjSource g e) ;;
  adjEdges_pushBack v adjSrc ;;;
  upd_node v (fun r => with_outdeg (m_outdeg r + 1) r) ;;;
  w <- lift (fun g => target g e) ;;
  adjTgt <- lift (fun g => adjTarget g e) ;;
  adjEdges_pushBack w adjTgt ;;;
  upd_node w (fun r => with_indeg (m_indeg r + 1) r) ;;;
  l <- lift (fun g => unlink e (m_hiddenEdges g)) ;;
  modify (set_hiddenEdges l) ;;;
  modify (fun g => set_edges (pushBack e (edges g)) g).

(** [for(e = m_hiddenEdges.tail(); e != nullptr; e = ePrev)
      { ePrev = e->pred(); restoreEdge(e); }] *)
Fixpoint restoreAllEdges_loop (fuel : nat) (e : edge) : M unit :=
  if Nat.eqb e nullptr then ret tt
  else match fuel with
       | O => fail
       | S fuel' =>
           ePrev <- lift (fun g => list_pred e (m_hiddenEdges g)) ;;
           restoreEdge e ;;;
           restoreAllEdges_loop fuel' ePrev
       end.

(** [Graph::restoreAllEdges] *)
Definition restoreAllEdges : M unit :=
  hidden <- gets m_hiddenEdges ;;
  restoreAllEdges_loop (length hidden) (list_tail hidden).

(** ** Destruction *)

(** [Graph::~Graph] *)
Definition Graph_destroy : M unit :=
  restoreAllEdges ;;;
  modify (fun g => set_regNodeArrays (map disconnect (m_regNodeArrays g)) g) ;;;
  modify (fun g => set_regEdgeArrays (map disconnect (m_regEdgeArrays g)) g) ;;;
  modify (fun g => set_regAdjArrays (map disconnect (m_regAdjArrays g)) g) ;;;
  vs <- gets nodes ;;
  modify (fun g => set_adjMem
            (foldr (fun v m => match nodeMem g !! v with
                               | Some r => foldr delete m (adjEdges r)
                               | None => m
                               end) (adjMem g) vs) g) ;;;
  modify (fun g => set_nodeMem
            (foldr (fun v m => alter (with_adjEdges []) v m) (nodeMem g) vs) g).

(** ** Contraction *)

(** The loop of [Graph::contract]:
    [for (adj = adjTgt->cyclicSucc(); adj != adjTgt; adj = adjNext)]. *)
Fixpoint contract_loop (fuel : nat) (v w : node) (adjSrc adjTgt adj : adjEntry) : M unit :=
  if Nat.eqb adj adjTgt then ret tt
  else match fuel with
       | O => fail
       | S fuel' =>
           adjNext <- lift (fun g => cyclicSucc g adj) ;;
           x <- lift (fun g => twinNode g adj) ;;
           if Nat.eqb x v then contract_loop fuel' v w adjSrc adjTgt adjNext
           else
             eAdj <- lift (fun g => theEdge g adj) ;;
             s <- lift (fun g => source g eAdj) ;;
             (if Nat.eqb w s then moveSource_at eAdj adjSrc before
              else moveTarget_at eAdj adjSrc before) ;;;
             contract_loop fuel' v w adjSrc adjTgt adjNext
       end.

(** [Graph::contract] *)
Definition contract (e : edge) : M node :=
  adjSrc <- lift (fun g => adjSource g e) ;;
  adjTgt <- lift (fun g => adjTarget g e) ;;
  v <- lift (fun g => source g e) ;;
  w <- lift (fun g => target g e) ;;
  first <- lift (fun g => cyclicSucc g adjTgt) ;;
  fuel <- gets (fun g => size (adjMem g)) ;;
  contract_loop fuel v w adjSrc adjTgt first ;;;
  x <- lift (fun g => theNode g adjTgt) ;;
  delNode x ;;;
  ret v.

(** [Graph::unregisterArray(ListIterator<NodeArrayBase*> it)]: the iterator
    is the position of the list cell, which stays valid as long as no
    earlier cell is removed. *)
Definition unregisterArray_node (it : nat) : M unit :=
  modify (fun g => set_regNodeArrays (delete it (m_regNodeArrays g)) g).
Definition unregisterArray_edge (it : nat) : M unit :=
  modify (fun g => set_regEdgeArrays (delete it (m_regEdgeArrays g)) g).
Definition unregisterArray_adj (it : nat) : M unit :=
  modify (fun g => set_regAdjArrays (delete it (m_regAdjArrays g)) g).
Definition unregisterStructure (it : nat) : M unit :=
  modify (fun g => set_regStructures (delete it (m_regStructures g)) g).

(** ** Connected components: [Graph::CCsInfo] *)

Record CCsInfo := mkCCsInfo {
  m_numCC : Z;
  m_nodes : list node;
  m_edges : list edge;
  m_startNode : list Z;
  m_startEdge : list Z
}.

(** The locals of the constructor: the [component] array (indexed by node
    index), the stack [S], and the filled parts of [m_nodes] and [m_edges]
    (so [n] and [m] are their lengths). *)
Record CCsScan := mkScan {
  component : gmap Z Z;
  S_stack : list node;
  nodesOut : list node;
  edgesOut : list edge
}.

Definition numberOfNodes (g : Graph) : Z := Z.of_nat (length (nodes g)).
Definition numberOfEdges (g : Graph) : Z := Z.of_nat (length (edges g)).

(** [v->index()] *)
Definition node_index (g : Graph) (v : node) : option Z := n_id <$> nodeMem g !! v.

(** [component[v]]: the array has [m_nodeArrayTableSize] slots, all
    initialised to [-1]; an index outside the array has no defined value. *)
Definition component_get (g : Graph) (c : gmap Z Z) (v : node) : option Z :=
  i ← node_index g v;
  if (0 <=? i) && (i <? m_nodeArrayTableSize g) then Some (default (-1) (c !! i))
  else None.

Definition component_set (g : Graph) (c : gmap Z Z) (v : node) (x : Z) : option (gmap Z Z) :=
  i ← node_index g v;
  if (0 <=? i) && (i <? m_nodeArrayTableSize g) then Some (<[i := x]> c)
  else None.

(** [for(adjEntry adj : w->adjEdges) { ... }] of the constructor *)
Fixpoint CCs_scan (g : Graph) (nComponent : Z) (l : list adjEntry) (st : CCsScan)
    : option CCsScan :=
  match l with
  | [] => Some st
  | adj :: l' =>
      idx ← adj_index g adj;
      st1 ← (if Z.land idx 1 =? 0 then
               e ← theEdge g adj;
               if Z.of_nat (length (edgesOut st)) <? numberOfEdges g then
                 Some (mkScan (component st) (S_stack st) (nodesOut st) (edgesOut st ++ [e]))
               else None
             else Some st);
      x ← twinNode g adj;
      cx ← component_get g (component st1) x;
      st2 ← (if cx =? -1 then
               c ← component_set g (component st1) x nComponent;
               Some (mkScan c (x :: S_stack st1) (nodesOut st1) (edgesOut st1))
             else Some st1);
      CCs_scan g nComponent l' st2
  end.

(** [while(!S.empty()) { node w = S.pop(); m_nodes[n++] = w; ... }] *)
Fixpoint CCs_while (fuel : nat) (g : Graph) (nComponent : Z) (st : CCsScan)
    : option CCsScan :=
  match S_stack st with
  | [] => Some st
  | w :: rest =>
      match fuel with
      | O => None
      | S fuel' =>
          if Z.of_nat (length (nodesOut st)) <? numberOfNodes g then
            rot ← rotation g w;
            st' ← CCs_scan g nComponent rot
                    (mkScan (component st) rest (nodesOut st ++ [w]) (edgesOut st));
            CCs_while fuel' g nComponent st'
          else None
      end
  end.

(** [for(node v : G.nodes) { ... }] of the constructor, with [nComponent],
    [startNodes] and [startEdges] *)
Fixpoint CCs_for (g : Graph) (vs : list node) (st : CCsScan) (nComponent : Z)
    (startNodes startEdges : list Z) : option (CCsScan * Z * list Z * list Z) :=
  match vs with
  | [] => Some (st, nComponent, startNodes, startEdges)
  | v :: vs' =>
      cv ← component_get g (component st) v;
      if negb (cv =? -1) then CCs_for g vs' st nComponent startNodes startEdges
      else
        c ← component_set g (component st) v nComponent;
        st' ← CCs_while (length (nodes g)) g nComponent
                (mkScan c (v :: S_stack st) (nodesOut st) (edgesOut st));
        CCs_for g vs' st' (nComponent + 1)
          (startNodes ++ [Z.of_nat (length (nodesOut st'))])
          (startEdges ++ [Z.of_nat (length (edgesOut st'))])
  end.

(** What the constructor computes from the graph it reads. *)
Definition CCsInfo_compute (g : Graph) : option CCsInfo :=
  '(st, nComponent, startNodes, startEdges) ← CCs_for g (nodes g) (mkScan ∅ [] [] []) 0 [] [];
  Some (mkCCsInfo nComponent (nodesOut st) (edgesOut st) (0 :: startNodes) (0 :: startEdges)).

(** [Graph::CCsInfo::CCsInfo(const Graph& G)]: the local
    [NodeArray<int> component(G,-1)] registers itself with the graph and
    unregisters when the constructor returns. *)
Definition CCsInfo_new : M CCsInfo :=
  it <- gets (fun g => length (m_regNodeArrays g)) ;;
  NodeArray_new 0 ;;;
  info <- lift CCsInfo_compute ;;
  unregisterArray_node it ;;;
  ret info.

(** [startNode(cc)], [stopNode(cc)], [startEdge(cc)], [stopEdge(cc)],
    [v(i)], [e(i)] *)
Definition startNode (info : CCsInfo) (cc : nat) : option Z := m_startNode info !! cc.
Definition stopNode (info : CCsInfo) (cc : nat) : option Z := m_startNode info !! S cc.
Definition startEdge (info : CCsInfo) (cc : nat) : option Z := m_startEdge info !! cc.
Definition stopEdge (info : CCsInfo) (cc : nat) : option Z := m_startEdge info !! S cc.

(** ** Well-formed graphs

    The structural part of consistency: every pointer stored in the graph
    addresses a live object of the right kind, the lists hold no pointer
    twice, the two adjacency entries of an edge are distinct twins owned by
    its end nodes, and the entries of an edge of the edge list sit in the
    rotations of its ends. *)

Definition node_wf (g : Graph) (v : node) (r : NodeElement) : Prop :=
  (0 < v < brk g)%nat ∧ v ∈ nodes g ∧ NoDup (adjEdges r) ∧
  Forall (λ a, ∃ ra, adjMem g !! a = Some ra ∧ a_node ra = v ∧ a_edge ra ∈ edges g)
         (adjEdges r).

Definition edge_wf (g : Graph) (e : edge) (re : EdgeElement) : Prop :=
  (0 < e < brk g)%nat ∧ e ∈ edges g ++ m_hiddenEdges g ∧
  m_adjSrc re ≠ m_adjTgt re ∧
  (∃ rs, adjMem g !! m_adjSrc re = Some rs ∧
         a_edge rs = e ∧ a_node rs = m_src re ∧ a_twin rs = m_adjTgt re) ∧
  (∃ rt, adjMem g !! m_adjTgt re = Some rt ∧
         a_edge rt = e ∧ a_node rt = m_tgt re ∧ a_twin rt = m_adjSrc re) ∧
  (∃ rn, nodeMem g !! m_src re = Some rn ∧
         (e ∈ edges g → m_adjSrc re ∈ adjEdges rn)) ∧
  (∃ rn, nodeMem g !! m_tgt re = Some rn ∧
         (e ∈ edges g → m_adjTgt re ∈ adjEdges rn)).

Definition adj_wf (g : Graph) (a : adjEntry) (ra : AdjElement) : Prop :=
  (0 < a < brk g)%nat ∧
  ∃ re, edgeMem g !! a_edge ra = Some re ∧ (m_adjSrc re = a ∨ m_adjTgt re = a).

Definition wf (g : Graph) : Prop :=
  NoDup (nodes g) ∧
  NoDup (edges g ++ m_hiddenEdges g) ∧
  Forall (λ v, is_Some (nodeMem g !! v)) (nodes g) ∧
  Forall (λ e, is_Some (edgeMem g !! e)) (edges g ++ m_hiddenEdges g) ∧
  map_Forall (node_wf g) (nodeMem g) ∧
  map_Forall (edge_wf g) (edgeMem g) ∧
  map_Forall (adj_wf g) (adjMem g).

#[global] Instance lookup_ex_dec {A} (o : option A) (P : A → Prop)
  `{∀ x, Decision (P x)} : Decision (∃ x, o = Some x ∧ P x).
Proof.
  destruct o as [x|].
  - destruct (decide (P x)) as [Hx|Hx].
    + left. by exists x.
    + right. intros (y & [= <-] & Hy). done.
  - right. by intros (y & [=] & _).
Defined.

#[global] Instance node_wf_dec g v r : Decision (node_wf g v r).
Proof. unfold node_wf. apply _. Defined.
#[global] Instance edge_wf_dec g e re : Decision (edge_wf g e re).
Proof. unfold edge_wf. apply _. Defined.
#[global] Instance adj_wf_dec g a ra : Decision (adj_wf g a ra).
Proof. unfold adj_wf. apply _. Defined.
#[global] Instance wf_dec g : Decision (wf g).
Proof. unfold wf. apply _. Defined.

(** ** The public operations, as a datatype

    Used to state what holds after every one of them. *)

Inductive Op :=
  | op_newNode
  | op_newNode_index (index : Z)
  | op_newEdge (v w : node)
  | op_newEdge_index (v w : node) (index : Z)
  | op_delNode (v : node)
  | op_delEdge (e : edge)
  | op_split (e : edge)
  | op_unsplit (eIn eOut : edge)
  | op_reverseEdge (e : edge)
  | op_hideEdge (e : edge)
  | op_restoreEdge (e : edge)
  | op_restoreAllEdges
  | op_moveSource (e : edge) (v : node)
  | op_moveTarget (e : edge) (v : node)
  | op_moveSource_at (e : edge) (adj : adjEntry) (dir : Direction)
  | op_moveTarget_at (e : edge) (adj : adjEntry) (dir : Direction)
  | op_contract (e : edge)
  | op_NodeArray_new (tag : nat)
  | op_EdgeArray_new (tag : nat)
  | op_AdjEntryArray_new (tag : nat)
  | op_registerStructure (o : GraphObserver)
  | op_unregisterArray_node (it : nat)
  | op_unregisterArray_edge (it : nat)
  | op_unregisterArray_adj (it : nat)
  | op_unregisterStructure (it : nat).

Definition perform (op : Op) : M unit :=
  match op with
  | op_newNode => newNode ;;; ret tt
  | op_newNode_index index => newNode_index index ;;; ret tt
  | op_newEdge v w => newEdge v w ;;; ret tt
  | op_newEdge_index v w index => newEdge_index v w index ;;; ret tt
  | op_delNode v => delNode v
  | op_delEdge e => delEdge e
  | op_split e => split e ;;; ret tt
  | op_unsplit eIn eOut => unsplit eIn eOut
  | op_reverseEdge e => reverseEdge e
  | op_hideEdge e => hideEdge e
  | op_restoreEdge e => restoreEdge e
  | op_restoreAllEdges => restoreAllEdges
  | op_moveSource e v => moveSource e v
  | op_moveTarget e v => moveTarget e v
  | op_moveSource_at e adj dir => moveSource_at e adj dir
  | op_moveTarget_at e adj dir => moveTarget_at e adj dir
  | op_contract e => contract e ;;; ret tt
  | op_NodeArray_new tag => NodeArray_new tag
  | op_EdgeArray_new tag => EdgeArray_new tag
  | op_AdjEntryArray_new tag => AdjEntryArray_new tag
  | op_registerStructure o => registerStructure o
  | op_unregisterArray_node it => unregisterArray_node it
  | op_unregisterArray_edge it => unregisterArray_edge it
  | op_unregisterArray_adj it => unregisterArray_adj it
  | op_unregisterStructure it => unregisterStructure it
  end.

(** ** Table sizes *)

(** The identifier counters, the table sizes and the registered arrays. *)
Definition tables (g : Graph) :=
  (m_nodeIdCount g, m_edgeIdCount g, m_nodeArrayTableSize g, m_edgeArrayTableSize g,
   m_regNodeArrays g, m_regEdgeArrays g, m_regAdjArrays g).

(** [size] is the smallest power of two, at least [minSize], that is at
    least [idCount]. *)
Definition table_size_ok (minSize idCount size : Z) : Prop :=
  0 ≤ idCount ≤ size ∧
  (∃ k : nat, size = minSize * 2 ^ Z.of_nat k) ∧
  (size = minSize ∨ size < 2 * idCount).

Definition tables_ok (g : Graph) : Prop :=
  table_size_ok MIN_NODE_TABLE_SIZE (m_nodeIdCount g) (m_nodeArrayTableSize g) ∧
  table_size_ok MIN_EDGE_TABLE_SIZE (m_edgeIdCount g) (m_edgeArrayTableSize g) ∧
  Forall (λ a, m_nodeArrayTableSize g ≤ arr_size a) (m_regNodeArrays g) ∧
  Forall (λ a, m_edgeArrayTableSize g ≤ arr_size a) (m_regEdgeArrays g) ∧
  Forall (λ a, Z.shiftl (m_edgeArrayTableSize g) 1 ≤ arr_size a) (m_regAdjArrays g).

(** [n] calls of [newNode()] in a row. *)
Fixpoint newNodes (n : nat) : M unit :=
  match n with
  | O => ret tt
  | S n' => newNodes n' ;;; newNode ;;; ret tt
  end.

(** Node arrays with the given tags and the given observers register with
    the graph. *)
Definition attach (tags : list nat) (obs : list GraphObserver) : M unit :=
  foldr (λ t m, NodeArray_new t ;;; m)
        (foldr (λ o m, registerStructure o ;;; m) (ret tt) obs) tags.

(** * Reasoning about operations *)

Lemma bind_inv {A B} (m : M A) (k : A -> M B) w b w2 :
  bind m k w = Some (b, w2) ↔ ∃ a w1, m w = Some (a, w1) ∧ k a w1 = Some (b, w2).
Proof.
  unfold bind. split.
  - destruct (m w) as [[a w1]|]; [|done]. intros H. by exists a, w1.
  - intros (a & w1 & -> & H). done.
Qed.

Lemma bind_run {A B} (m : M A) (k : A -> M B) w a w1 :
  m w = Some (a, w1) → bind m k w = k a w1.
Proof. unfold bind. by intros ->. Qed.

Lemma lift_inv {A} (f : Graph → option A) w a w1 :
  lift f w = Some (a, w1) ↔ f (graph w) = Some a ∧ w1 = w.
Proof.
  unfold lift. destruct (f (graph w)); split.
  - by intros [= -> ->].
  - by intros [[= ->] ->].
  - done.
  - by intros [[=] _].
Qed.

Lemma lift_run {A} (f : Graph → option A) w a :
  f (graph w) = Some a → lift f w = Some (a, w).
Proof. unfold lift. by intros ->. Qed.

Lemma assert_inv b w u w1 :
  OGDF_ASSERT b w = Some (u, w1) ↔ b = true ∧ w1 = w.
Proof.
  destruct b; cbn; split.
  - by intros [= <- <-].
  - by destruct u; intros [_ ->].
  - done.
  - by intros [[=] _].
Qed.

Lemma not_null_true (p : nat) : (0 < p)%nat → not_null p = true.
Proof. destruct p; [lia|done]. Qed.

(** [runs m w Q]: from the world [w] the operation [m] returns, and its
    result and final world satisfy [Q]. *)
Definition runs {A} (m : M A) (w : World) (Q : A → World → Prop) : Prop :=
  ∃ a w', m w = Some (a, w') ∧ Q a w'.

Lemma runs_bind {A B} (m : M A) (k : A → M B) w Q :
  runs m w (λ a w', runs (k a) w' Q) → runs (bind m k) w Q.
Proof.
  intros (a & w1 & Hm & b & w2 & Hk & HQ). exists b, w2.
  split; [|done]. unfold bind. by rewrite Hm.
Qed.

Lemma runs_ret {A} (a : A) w (Q : A → World → Prop) : Q a w → runs (ret a) w Q.
Proof. intros. by exists a, w. Qed.

Lemma runs_gets {A} (f : Graph → A) w (Q : A → World → Prop) :
  Q (f (graph w)) w → runs (gets f) w Q.
Proof. intros. by eexists _, _. Qed.

Lemma runs_modify (f : Graph → Graph) w (Q : unit → World → Prop) :
  Q tt (mkWorld (f (graph w)) (heard w)) → runs (modify f) w Q.
Proof. intros. by eexists _, _. Qed.

Lemma runs_lift {A} (f : Graph → option A) w a (Q : A → World → Prop) :
  f (graph w) = Some a → Q a w → runs (lift f) w Q.
Proof. intros Hf HQ. exists a, w. split; [|done]. by apply lift_run. Qed.

Lemma runs_assert b w (Q : unit → World → Prop) :
  b = true → Q tt w → runs (OGDF_ASSERT b) w Q.
Proof. intros -> HQ. by exists tt, w. Qed.

Lemma runs_notify ev w (Q : unit → World → Prop) :
  Q tt (mkWorld (graph w)
          (heard w ++ map (λ o, mkNote o ev (graph w)) (m_regStructures (graph w)))) →
  runs (notify ev) w Q.
Proof. intros. by eexists _, _. Qed.

Lemma runs_mono {A} (m : M A) w (Q Q' : A → World → Prop) :
  runs m w Q → (∀ a w', Q a w' → Q' a w') → runs m w Q'.
Proof. intros (a & w' & Hm & HQ) H. exists a, w'. auto. Qed.

Lemma runs_det {A} (m : M A) w (Q : A → World → Prop) a w' :
  runs m w Q → m w = Some (a, w') → Q a w'.
Proof. intros (a1 & w1 & Hm & HQ) H. rewrite Hm in H. by injection H as <- <-. Qed.

Lemma runs_eq {A} (m : M A) w a w' :
  runs m w (λ a1 w1, a1 = a ∧ w1 = w') ↔ m w = Some (a, w').
Proof.
  split.
  - by intros (a1 & w1 & Hm & -> & ->).
  - intros H. by exists a, w'.
Qed.

(** Normalises field accesses of updated records, and nothing else. *)
Ltac mred :=
  unfold set_nodeMem, set_edgeMem, set_adjMem, set_brk, set_nodes, set_edges,
         set_hiddenEdges, set_nodeIdCount, set_edgeIdCount,
         set_nodeArrayTableSize, set_edgeArrayTableSize,
         set_regNodeArrays, set_regEdgeArrays, set_regAdjArrays, set_regStructures,
         with_twin, with_edge, with_node, with_id,
         with_src, with_tgt, with_adjSrc, with_adjTgt,
         with_indeg, with_outdeg, with_adjEdges;
  cbn beta iota delta
      [graph heard
       nodeMem edgeMem adjMem brk nodes edges m_hiddenEdges
       m_nodeIdCount m_edgeIdCount m_nodeArrayTableSize m_edgeArrayTableSize
       m_regNodeArrays m_regEdgeArrays m_regAdjArrays m_regStructures
       a_twin a_edge a_node a_id m_src m_tgt m_adjSrc m_adjTgt e_id
       n_id m_indeg m_outdeg adjEdges
       fmap option_fmap option_map mbind option_bind
       fst snd].

Ltac mred_in H :=
  unfold set_nodeMem, set_edgeMem, set_adjMem, set_brk, set_nodes, set_edges,
         set_hiddenEdges, set_nodeIdCount, set_edgeIdCount,
         set_nodeArrayTableSize, set_edgeArrayTableSize,
         set_regNodeArrays, set_regEdgeArrays, set_regAdjArrays, set_regStructures,
         with_twin, with_edge, with_node, with_id,
         with_src, with_tgt, with_adjSrc, with_adjTgt,
         with_indeg, with_outdeg, with_adjEdges in H;
  cbn beta iota delta
      [graph heard
       nodeMem edgeMem adjMem brk nodes edges m_hiddenEdges
       m_nodeIdCount m_edgeIdCount m_nodeArrayTableSize m_edgeArrayTableSize
       m_regNodeArrays m_regEdgeArrays m_regAdjArrays m_regStructures
       a_twin a_edge a_node a_id m_src m_tgt m_adjSrc m_adjTgt e_id
       n_id m_indeg m_outdeg adjEdges
       fmap option_fmap option_map mbind option_bind
       fst snd] in H.

(** Rewrites lookups in updated stores, using what the context knows. *)
Ltac ptr_ne := first [ assumption | lia | congruence | (intros ->; lia) ].

Ltac lk1 :=
  match goal with
  | |- context [ <[?i := _]> _ !! ?i ] => rewrite lookup_insert_eq
  | |- context [ <[?i := _]> _ !! ?j ] => rewrite (lookup_insert_ne _ i j) by ptr_ne
  | |- context [ delete ?i _ !! ?i ] => rewrite lookup_delete_eq
  | |- context [ delete ?i _ !! ?j ] => rewrite (lookup_delete_ne _ i j) by ptr_ne
  | H : ?m !! ?k = _ |- context [ ?m !! ?k ] => rewrite H
  end.

Ltac lk := mred; repeat (lk1; mred).

(** Solves a read [f g = Some ?x] from the lookups the context knows. *)
Ltac mread :=
  unfold twinNode, cyclicSucc;
  unfold theNode, theEdge, twin, adj_index, source, target, adjSource, adjTarget,
         isSelfLoop, indeg, outdeg, degree, rotation;
  lk; reflexivity.

Lemma runs_upd_adj adj f w r (Q : unit → World → Prop) :
  adjMem (graph w) !! adj = Some r →
  Q tt (mkWorld (set_adjMem (<[adj := f r]> (adjMem (graph w))) (graph w)) (heard w)) →
  runs (upd_adj adj f) w Q.
Proof.
  intros Hr HQ. unfold upd_adj. apply runs_bind. eapply runs_lift; [done|].
  by apply runs_modify.
Qed.

Lemma runs_upd_edge e f w r (Q : unit → World → Prop) :
  edgeMem (graph w) !! e = Some r →
  Q tt (mkWorld (set_edgeMem (<[e := f r]> (edgeMem (graph w))) (graph w)) (heard w)) →
  runs (upd_edge e f) w Q.
Proof.
  intros Hr HQ. unfold upd_edge. apply runs_bind. eapply runs_lift; [done|].
  by apply runs_modify.
Qed.

Lemma runs_upd_node v f w r (Q : unit → World → Prop) :
  nodeMem (graph w) !! v = Some r →
  Q tt (mkWorld (set_nodeMem (<[v := f r]> (nodeMem (graph w))) (graph w)) (heard w)) →
  runs (upd_node v f) w Q.
Proof.
  intros Hr HQ. unfold upd_node. apply runs_bind. eapply runs_lift; [done|].
  by apply runs_modify.
Qed.

Lemma runs_alloc w (Q : nat → World → Prop) :
  Q (brk (graph w)) (mkWorld (set_brk (S (brk (graph w))) (graph w)) (heard w)) →
  runs alloc w Q.
Proof. intros. by eexists _, _. Qed.

Lemma runs_unlink_adj v adj w r l (Q : unit → World → Prop) :
  nodeMem (graph w) !! v = Some r →
  unlink adj (adjEdges r) = Some l →
  Q tt (mkWorld (set_nodeMem (<[v := with_adjEdges l r]> (nodeMem (graph w))) (graph w))
          (heard w)) →
  runs (adjEdges_delPure v adj) w Q.
Proof.
  intros Hr Hl HQ. unfold adjEdges_delPure.
  apply runs_bind. eapply runs_lift; [done|].
  apply runs_bind. eapply runs_lift; [done|].
  by eapply runs_upd_node.
Qed.

Lemma runs_insert_adj v adj pos dir w r l (Q : unit → World → Prop) :
  nodeMem (graph w) !! v = Some r →
  insertAt dir adj pos (adjEdges r) = Some l →
  Q tt (mkWorld (set_nodeMem (<[v := with_adjEdges l r]> (nodeMem (graph w))) (graph w))
          (heard w)) →
  runs (adjEdges_insert v adj pos dir) w Q.
Proof.
  intros Hr Hl HQ. unfold adjEdges_insert.
  apply runs_bind. eapply runs_lift; [done|].
  apply runs_bind. eapply runs_lift; [done|].
  by eapply runs_upd_node.
Qed.

(** One step of an operation: a read, a write, an assertion or a
    notification, with the world kept in normal form. *)
Ltac mstep1 :=
  lazymatch goal with
  | |- runs (bind _ _) _ _ => apply runs_bind
  | |- runs (ret _) _ _ => apply runs_ret
  | |- runs (gets _) _ _ => apply runs_gets
  | |- runs (modify _) _ _ => apply runs_modify
  | |- runs (notify _) _ _ => apply runs_notify
  | |- runs alloc _ _ => apply runs_alloc
  | |- runs (lift _) _ _ => eapply runs_lift; [ solve [mread] | ]
  | |- runs (OGDF_ASSERT _) _ _ =>
      apply runs_assert;
      [ solve [ reflexivity | apply not_null_true; ptr_ne
              | lk; first [ reflexivity | apply Z.eqb_eq; lia | apply Nat.eqb_eq; ptr_ne ] ] | ]
  | |- runs (upd_adj _ _) _ _ => eapply runs_upd_adj; [ solve [lk; reflexivity] | ]
  | |- runs (upd_edge _ _) _ _ => eapply runs_upd_edge; [ solve [lk; reflexivity] | ]
  | |- runs (upd_node _ _) _ _ => eapply runs_upd_node; [ solve [lk; reflexivity] | ]
  | |- runs (new_AdjElement _) _ _ => unfold new_AdjElement
  | |- runs (new_NodeElement _) _ _ => unfold new_NodeElement
  | |- runs (new_EdgeElement _ _ _ _ _) _ _ => unfold new_EdgeElement
  | |- runs (adjEdges_pushBack _ _) _ _ => unfold adjEdges_pushBack
  | |- runs (node_graphOf _) _ _ => unfold node_graphOf
  | |- runs (edge_graphOf _) _ _ => unfold edge_graphOf
  | |- runs (adj_graphOf _) _ _ => unfold adj_graphOf
  | |- runs (resetAdjEntryIndex _ _) _ _ => unfold resetAdjEntryIndex
  | |- runs enlargeNodeArrays _ _ => unfold enlargeNodeArrays
  | |- runs enlargeEdgeArrays _ _ => unfold enlargeEdgeArrays
  end; mred.

Ltac mgo := repeat mstep1.
(** ** Operations that keep a property of the graph *)

Definition preserves {A} (I : Graph → Prop) (m : M A) : Prop :=
  ∀ w a w', I (graph w) → m w = Some (a, w') → I (graph w').

Lemma preserves_bind {A B} I (m : M A) (k : A → M B) :
  preserves I m → (∀ a, preserves I (k a)) → preserves I (bind m k).
Proof.
  intros Hm Hk w b w2 HI H. destruct (proj1 (bind_inv _ _ _ _ _) H) as (a & w1 & H1 & H2).
  eapply Hk; [|done]. eapply Hm; done.
Qed.

Lemma preserves_ret {A} I (a : A) : preserves I (ret a).
Proof. by intros w b w' HI [= _ <-]. Qed.

Lemma preserves_fail {A} I : preserves I (@fail A).
Proof. by intros w b w' HI [=]. Qed.

Lemma preserves_gets {A} I (f : Graph → A) : preserves I (gets f).
Proof. by intros w b w' HI [= _ <-]. Qed.

Lemma preserves_lift {A} I (f : Graph → option A) : preserves I (lift f).
Proof. intros w b w' HI H. by destruct (proj1 (lift_inv _ _ _ _) H) as [_ ->]. Qed.

Lemma preserves_assert I b : preserves I (OGDF_ASSERT b).
Proof. intros w u w' HI H. by destruct (proj1 (assert_inv _ _ _ _) H) as [_ ->]. Qed.

Lemma preserves_notify I ev : preserves I (notify ev).
Proof. by intros w u w' HI [= _ <-]. Qed.

Lemma preserves_modify I (f : Graph → Graph) :
  (∀ g, I g → I (f g)) → preserves I (modify f).
Proof. intros Hf w u w' HI [= _ <-]. by apply Hf. Qed.

Lemma preserves_if {A} I (b : bool) (m1 m2 : M A) :
  preserves I m1 → preserves I m2 → preserves I (if b then m1 else m2).
Proof. by destruct b. Qed.

(** Proves [preserves I m] from the shape of [m]; [side] closes what a
    [modify] asks for. *)
Ltac keeps_with side :=
  repeat first
    [ match goal with H : context [preserves] |- preserves _ _ => apply H end
    | apply preserves_ret | apply preserves_gets | apply preserves_lift
    | apply preserves_assert | apply preserves_notify | apply preserves_fail
    | (apply preserves_modify; intros ? ?; side)
    | (apply preserves_bind; [|intros ?])
    | apply preserves_if
    | progress unfold upd_adj, upd_edge, upd_node, alloc, new_AdjElement,
        new_NodeElement, new_EdgeElement, adjEdges_pushBack, adjEdges_delPure,
        adjEdges_del, adjEdges_insert, adjEdges_move, adjEdges_move_at,
        node_graphOf, edge_graphOf, adj_graphOf, edges_del, nodes_del ].

(** *** Operations that leave counters, table sizes and arrays alone *)

Section keeps_tables.
Variable I : Graph → Prop.
Hypothesis I_tables : ∀ g g', tables g' = tables g → I g → I g'.

Local Ltac keeps := keeps_with ltac:(eapply I_tables; [|eassumption]; reflexivity).

Lemma moveTarget_tables e v : preserves I (moveTarget e v).
Proof. unfold moveTarget. keeps. Qed.
Lemma moveSource_tables e v : preserves I (moveSource e v).
Proof. unfold moveSource. keeps. Qed.
Lemma moveTarget_at_tables e a d : preserves I (moveTarget_at e a d).
Proof. unfold moveTarget_at. keeps. Qed.
Lemma moveSource_at_tables e a d : preserves I (moveSource_at e a d).
Proof. unfold moveSource_at. keeps. Qed.
Lemma delEdge_tables e : preserves I (delEdge e).
Proof. unfold delEdge. keeps. Qed.
Lemma delNode_loop_tables fuel v : preserves I (delNode_loop fuel v).
Proof.
  induction fuel as [|fuel IH]; cbn [delNode_loop].
  - apply preserves_bind; [keeps|]. intros [|? ?]; keeps.
  - apply preserves_bind; [keeps|]. intros [|? ?]; [keeps|].
    apply preserves_bind; [keeps|]. intros ?.
    apply preserves_bind; [apply delEdge_tables|]. intros ?. apply IH.
Qed.
Lemma delNode_tables v : preserves I (delNode v).
Proof. unfold delNode. pose proof delNode_loop_tables. keeps. Qed.
Lemma reverseEdge_tables e : preserves I (reverseEdge e).
Proof. unfold reverseEdge. keeps. Qed.
Lemma hideEdge_tables e : preserves I (hideEdge e).
Proof. unfold hideEdge. keeps. Qed.
Lemma restoreEdge_tables e : preserves I (restoreEdge e).
Proof. unfold restoreEdge. keeps. Qed.
Lemma restoreAllEdges_loop_tables fuel e : preserves I (restoreAllEdges_loop fuel e).
Proof.
  revert e. induction fuel as [|fuel IH]; intros e; cbn [restoreAllEdges_loop].
  - destruct (Nat.eqb e nullptr); keeps.
  - destruct (Nat.eqb e nullptr); [keeps|].
    apply preserves_bind; [keeps|]. intros ?.
    apply preserves_bind; [apply restoreEdge_tables|]. intros ?. apply IH.
Qed.
Lemma restoreAllEdges_tables : preserves I restoreAllEdges.
Proof. unfold restoreAllEdges. pose proof restoreAllEdges_loop_tables. keeps. Qed.
Lemma contract_loop_tables fuel v w a1 a2 a : preserves I (contract_loop fuel v w a1 a2 a).
Proof.
  revert a. induction fuel as [|fuel IH]; intros a; cbn [contract_loop].
  - destruct (Nat.eqb a a2); keeps.
  - destruct (Nat.eqb a a2); [keeps|].
    pose proof moveSource_at_tables. pose proof moveTarget_at_tables.
    keeps.
Qed.
Lemma contract_tables e : preserves I (contract e).
Proof.
  unfold contract. pose proof contract_loop_tables. pose proof delNode_tables. keeps.
Qed.
Lemma resetAdjEntryIndex_tables n o : preserves I (resetAdjEntryIndex n o).
Proof.
  apply preserves_modify. intros g Hg. eapply I_tables; [|done].
  unfold tables. cbn. f_equal. apply map_id.
Qed.
Lemma unsplit_tables eIn eOut : preserves I (unsplit eIn eOut).
Proof. unfold unsplit. pose proof resetAdjEntryIndex_tables. keeps. Qed.
End keeps_tables.

(** ** Table growth *)

Lemma nextPower2_loop_spec (fuel : nat) (start idCount : Z) :
  0 < start → idCount - start + 1 ≤ Z.of_nat fuel →
  ∃ n k, nextPower2_loop fuel start idCount = Some n ∧ n = start * 2 ^ Z.of_nat k ∧
         idCount < n ∧ (k = 0%nat ∨ n ≤ 2 * idCount).
Proof.
  revert start. induction fuel as [|fuel IH]; intros start Hpos Hfuel; cbn [nextPower2_loop].
  - destruct (Z.leb_spec start idCount); [lia|].
    exists start, 0%nat. rewrite Z.mul_1_r. auto.
  - destruct (Z.leb_spec start idCount) as [Hle|Hgt].
    + rewrite Z.shiftl_mul_pow2 by lia. change (2 ^ 1) with 2.
      destruct (IH (start * 2)) as (n & k & Hn & Hk & Hlt & Hmin); [lia|lia|].
      exists n, (S k). split; [done|]. split.
      * rewrite Hk, Nat2Z.inj_succ, Z.pow_succ_r by lia. lia.
      * split; [done|]. right. destruct Hmin as [->|Hmin]; [|done].
        rewrite Z.mul_1_r in Hk. lia.
    + exists start, 0%nat. rewrite Z.mul_1_r. auto.
Qed.

Lemma nextPower2_spec (start idCount : Z) :
  0 < start →
  ∃ n k, nextPower2 start idCount = Some n ∧ n = start * 2 ^ Z.of_nat k ∧
         idCount < n ∧ (k = 0%nat ∨ n ≤ 2 * idCount).
Proof. intros H. apply nextPower2_loop_spec; [done|]. lia. Qed.

(** What [newNode()] does, in one step. *)
Definition newNode_graph (g : Graph) : Graph :=
  let grow := m_nodeIdCount g =? m_nodeArrayTableSize g in
  let size := if grow then Z.shiftl (m_nodeArrayTableSize g) 1 else m_nodeArrayTableSize g in
  mkGraph (<[brk g := mkNode (m_nodeIdCount g) 0 0 []]> (nodeMem g)) (edgeMem g) (adjMem g)
    (S (brk g)) (pushBack (brk g) (nodes g)) (edges g) (m_hiddenEdges g)
    (m_nodeIdCount g + 1) (m_edgeIdCount g) size (m_edgeArrayTableSize g)
    (if grow then map (enlargeTable size) (m_regNodeArrays g) else m_regNodeArrays g)
    (m_regEdgeArrays g) (m_regAdjArrays g) (m_regStructures g).

Lemma runs_newNode w (Q : node → World → Prop) :
  Q (brk (graph w))
    (mkWorld (newNode_graph (graph w))
       (heard w ++ map (λ o, mkNote o (nodeAdded (brk (graph w))) (newNode_graph (graph w)))
                       (m_regStructures (graph w)))) →
  runs newNode w Q.
Proof.
  intros HQ. unfold newNode. do 2 mstep1. do 2 mstep1. mstep1.
  unfold newNode_graph in HQ.
  destruct (m_nodeIdCount (graph w) =? m_nodeArrayTableSize (graph w)); mgo; exact HQ.
Qed.

(** ** Explicit indices *)

(** What an explicit [index] does to a counter, a table size and the
    arrays enlarged with it. *)
Definition index_effect (idCount tableSize : Z) (arrays : list ArrayBase) (k : Z)
    (index : Z) (idCount' tableSize' : Z) (arrays' : list ArrayBase) : Prop :=
  (index < idCount →
     idCount' = idCount ∧ tableSize' = tableSize ∧ arrays' = arrays) ∧
  (idCount ≤ index →
     idCount' = index + 1 ∧
     (index < tableSize → tableSize' = tableSize ∧ arrays' = arrays) ∧
     (tableSize ≤ index →
        nextPower2 tableSize index = Some tableSize' ∧ index < tableSize' ∧
        arrays' = map (enlargeTable (k * tableSize')) arrays)).

Lemma newNode_index_effect (g : Graph) (h : list Note) (index : Z) :
  0 < m_nodeArrayTableSize g →
  runs (newNode_index index) (mkWorld g h) (λ _ w,
    index_effect (m_nodeIdCount g) (m_nodeArrayTableSize g) (m_regNodeArrays g) 1 index
      (m_nodeIdCount (graph w)) (m_nodeArrayTableSize (graph w)) (m_regNodeArrays (graph w)) ∧
    m_edgeIdCount (graph w) = m_edgeIdCount g ∧
    m_edgeArrayTableSize (graph w) = m_edgeArrayTableSize g ∧
    m_regEdgeArrays (graph w) = m_regEdgeArrays g ∧
    m_regAdjArrays (graph w) = m_regAdjArrays g).
Proof.
  intros Hts. unfold newNode_index, index_effect. mgo.
  destruct (Z.leb_spec (m_nodeIdCount g) index) as [Hle|Hlt].
  - mgo.
    destruct (Z.leb_spec (m_nodeArrayTableSize g) index) as [Hle2|Hlt2].
    + destruct (nextPower2_spec (m_nodeArrayTableSize g) index Hts)
        as (n & k & Hn & _ & Hlt & _).
      mgo. eapply runs_lift; [exact Hn|]. mgo.
      rewrite Z.mul_1_l. repeat split; try lia; try done.
    + mgo. repeat split; try lia; try done.
  - mgo. repeat split; try lia; try done.
Qed.

Lemma newEdge_index_effect (g : Graph) (h : list Note) (v w : node) (index : Z) :
  (0 < v)%nat → (0 < w)%nat →
  is_Some (nodeMem g !! v) → is_Some (nodeMem g !! w) →
  0 < m_edgeArrayTableSize g →
  runs (newEdge_index v w index) (mkWorld g h) (λ _ wd,
    index_effect (m_edgeIdCount g) (m_edgeArrayTableSize g) (m_regEdgeArrays g) 1 index
      (m_edgeIdCount (graph wd)) (m_edgeArrayTableSize (graph wd))
      (m_regEdgeArrays (graph wd)) ∧
    index_effect (m_edgeIdCount g) (m_edgeArrayTableSize g) (m_regAdjArrays g) 2 index
      (m_edgeIdCount (graph wd)) (m_edgeArrayTableSize (graph wd))
      (m_regAdjArrays (graph wd)) ∧
    m_nodeIdCount (graph wd) = m_nodeIdCount g ∧
    m_nodeArrayTableSize (graph wd) = m_nodeArrayTableSize g ∧
    m_regNodeArrays (graph wd) = m_regNodeArrays g).
Proof.
  intros Hv Hw [rv Hrv] [rw Hrw] Hts. unfold newEdge_index, index_effect.
  destruct (decide (v = w)) as [<-|Hne]; mgo.
  all: destruct (Z.leb_spec (m_edgeIdCount g) index) as [Hle|Hlt];
    [mgo; destruct (Z.leb_spec (m_edgeArrayTableSize g) index) as [Hle2|Hlt2]|].
  all: try (destruct (nextPower2_spec (m_edgeArrayTableSize g) index Hts)
              as (n & k & Hn & _ & Hlt & _);
            mgo; eapply runs_lift; [exact Hn|]).
  all: mgo.
  all: rewrite ?Z.mul_1_l, ?Z.shiftl_mul_pow2, ?(Z.mul_comm _ (2 ^ 1)) by lia;
    change (2 ^ 1) with 2; repeat split; try lia; try done.
Qed.

(** ** Reading back what a successful run did *)

Lemma bind_assoc {A B C} (m : M A) (k1 : A → M B) (k2 : B → M C) w :
  bind (bind m k1) k2 w = bind m (λ a, bind (k1 a) k2) w.
Proof. unfold bind. by destruct (m w) as [[a w1]|]. Qed.

Lemma bind_assoc_inv {A B C} (m : M A) (k1 : A → M B) (k2 : B → M C) w r :
  bind (bind m k1) k2 w = r → bind m (λ a, bind (k1 a) k2) w = r.
Proof. by rewrite bind_assoc. Qed.

Lemma bind_ret_inv {A B} (a : A) (k : A → M B) w r :
  bind (ret a) k w = r → k a w = r.
Proof. done. Qed.

Lemma bind_gets_inv {A B} (f : Graph → A) (k : A → M B) w r :
  bind (gets f) k w = r → k (f (graph w)) w = r.
Proof. done. Qed.

Lemma bind_modify_inv {B} (f : Graph → Graph) (k : unit → M B) w r :
  bind (modify f) k w = r → k tt (mkWorld (f (graph w)) (heard w)) = r.
Proof. done. Qed.

Lemma bind_notify_inv {B} ev (k : unit → M B) w r :
  bind (notify ev) k w = r →
  k tt (mkWorld (graph w)
          (heard w ++ map (λ o, mkNote o ev (graph w)) (m_regStructures (graph w)))) = r.
Proof. done. Qed.

Lemma bind_lift_inv {A B} (f : Graph → option A) (k : A → M B) w r :
  bind (lift f) k w = Some r → ∃ a, f (graph w) = Some a ∧ k a w = Some r.
Proof.
  unfold bind, lift. destruct (f (graph w)) as [a|]; [|done]. intros H. by exists a.
Qed.

Lemma bind_assert_inv {B} b (k : unit → M B) w r :
  bind (OGDF_ASSERT b) k w = Some r → b = true ∧ k tt w = Some r.
Proof. by destruct b. Qed.

Lemma ret_inv {A} (a : A) w b w' : ret a w = Some (b, w') → b = a ∧ w' = w.
Proof. by intros [= <- <-]. Qed.

Lemma modify_inv (f : Graph → Graph) w b w' :
  modify f w = Some (b, w') → w' = mkWorld (f (graph w)) (heard w).
Proof. by intros [= _ <-]. Qed.

Lemma option_fmap_inv {A B} (f : A → B) (o : option A) b :
  f <$> o = Some b → ∃ a, o = Some a ∧ b = f a.
Proof. destruct o as [a|]; [|done]. intros [= <-]. by exists a. Qed.

(** Simplifies a lookup equation just read back. *)
Ltac lk_in H :=
  mred_in H;
  repeat first
    [ rewrite lookup_insert_eq in H
    | rewrite lookup_insert_ne in H by ptr_ne
    | rewrite lookup_delete_eq in H
    | rewrite lookup_delete_ne in H by ptr_ne
    | match goal with
      | H' : ?m !! ?k = _ |- _ =>
          lazymatch H' with H => fail | _ => idtac end;
          lazymatch type of H with context [ m !! k ] => rewrite H' in H end
      end ];
  mred_in H.

Ltac read_in H :=
  unfold twinNode, cyclicSucc in H;
  unfold theNode, theEdge, twin, adj_index, source, target, adjSource, adjTarget,
         isSelfLoop, indeg, outdeg, degree, rotation in H;
  lk_in H;
  try (let r := fresh "r" in let E := fresh "E" in
       apply option_fmap_inv in H; destruct H as (r & E & H); lk_in E;
       try (injection E as <-); subst);
  try (injection H as <-).

(** One step back through a run that succeeded. *)
Ltac minv1 H :=
  lazymatch type of H with
  | bind (bind _ _) _ _ = _ => apply bind_assoc_inv in H
  | bind (ret _) _ _ = _ => apply bind_ret_inv in H
  | bind (gets _) _ _ = _ => apply bind_gets_inv in H
  | bind (modify _) _ _ = _ => apply bind_modify_inv in H
  | bind (notify _) _ _ = _ => apply bind_notify_inv in H
  | bind (lift _) _ _ = Some _ =>
      let a := fresh "x" in let E := fresh "E" in
      apply bind_lift_inv in H; destruct H as (a & E & H); read_in E
  | bind (OGDF_ASSERT _) _ _ = Some _ =>
      let E := fresh "E" in
      apply bind_assert_inv in H; destruct H as [E H]
  | bind fail _ _ = Some _ => discriminate H
  | fail _ = Some _ => discriminate H
  | bind (upd_adj _ _) _ _ = _ => unfold upd_adj at 1 in H
  | bind (upd_edge _ _) _ _ = _ => unfold upd_edge at 1 in H
  | bind (upd_node _ _) _ _ = _ => unfold upd_node at 1 in H
  | bind alloc _ _ = _ => unfold alloc at 1 in H
  | bind (new_AdjElement _) _ _ = _ => unfold new_AdjElement at 1 in H
  | bind (new_NodeElement _) _ _ = _ => unfold new_NodeElement at 1 in H
  | bind (new_EdgeElement _ _ _ _ _) _ _ = _ => unfold new_EdgeElement at 1 in H
  | bind (adjEdges_pushBack _ _) _ _ = _ => unfold adjEdges_pushBack at 1 in H
  | bind (adjEdges_delPure _ _) _ _ = _ => unfold adjEdges_delPure at 1 in H
  | bind (adjEdges_del _ _) _ _ = _ => unfold adjEdges_del at 1 in H
  | bind (adjEdges_insert _ _ _ _) _ _ = _ => unfold adjEdges_insert at 1 in H
  | bind (adjEdges_move _ _ _) _ _ = _ => unfold adjEdges_move at 1 in H
  | bind (adjEdges_move_at _ _ _ _ _) _ _ = _ => unfold adjEdges_move_at at 1 in H
  | bind (node_graphOf _) _ _ = _ => unfold node_graphOf at 1 in H
  | bind (edge_graphOf _) _ _ = _ => unfold edge_graphOf at 1 in H
  | bind (adj_graphOf _) _ _ = _ => unfold adj_graphOf at 1 in H
  | bind (edges_del _) _ _ = _ => unfold edges_del at 1 in H
  | bind (nodes_del _) _ _ = _ => unfold nodes_del at 1 in H
  | bind (resetAdjEntryIndex _ _) _ _ = _ => unfold resetAdjEntryIndex at 1 in H
  | bind enlargeNodeArrays _ _ = _ => unfold enlargeNodeArrays at 1 in H
  | bind enlargeEdgeArrays _ _ = _ => unfold enlargeEdgeArrays at 1 in H
  | ret _ _ = Some _ =>
      let E := fresh "E" in apply ret_inv in H; destruct H as [E H]
  | modify _ _ = Some _ => apply modify_inv in H
  | ?m _ = Some _ =>
      lazymatch m with
      | upd_adj _ _ => unfold upd_adj in H
      | upd_edge _ _ => unfold upd_edge in H
      | upd_node _ _ => unfold upd_node in H
      | edges_del _ => unfold edges_del in H
      | nodes_del _ => unfold nodes_del in H
      | enlargeNodeArrays => unfold enlargeNodeArrays in H
      | enlargeEdgeArrays => unfold enlargeEdgeArrays in H
      | adjEdges_pushBack _ _ => unfold adjEdges_pushBack in H
      | adjEdges_insert _ _ _ _ => unfold adjEdges_insert in H
      end
  end; mred_in H.

Ltac minv H := repeat minv1 H.

Lemma createEdgeElement_tables_ok v w adjSrc adjTgt :
  preserves tables_ok (createEdgeElement v w adjSrc adjTgt).
Proof.
  intros wd e wd' HI H. unfold createEdgeElement in H. minv H.
  destruct wd as [g h]. mred_in H. mred_in HI.
  destruct HI as (Hn & (Hc & (k & Hk) & Hmin) & HA & HE & HJ).
  destruct (Z.eqb_spec (m_edgeIdCount g) (m_edgeArrayTableSize g)) as [Heq|Hne];
    minv H; subst wd'; unfold tables_ok, table_size_ok; mred.
  - rewrite !Z.shiftl_mul_pow2 in * by lia. change (2 ^ 1) with 2 in *.
    unfold MIN_EDGE_TABLE_SIZE in *. change (1 ≪ 4) with 16 in *.
    split; [done|]. split; [|split; [done|split]].
    + split; [lia|]. split; [|lia]. exists (S k).
      rewrite Nat2Z.inj_succ, Z.pow_succ_r by lia. lia.
    + apply Forall_forall. intros a Ha. apply list_elem_of_fmap in Ha as (b & -> & _). cbn. lia.
    + apply Forall_forall. intros a Ha. apply list_elem_of_fmap in Ha as (b & -> & _). cbn. lia.
  - split; [done|]. split; [|done].
    split; [lia|]. split; [eauto|]. destruct Hmin; [auto|right; lia].
Qed.

(** ** The table invariant *)

Lemma runs_preserves {A} (I : Graph → Prop) (m : M A) :
  (∀ w, I (graph w) → runs m w (λ _ w', I (graph w'))) → preserves I m.
Proof. intros H w a w' HI Hm. exact (runs_det _ _ _ _ _ (H w HI) Hm). Qed.

Lemma tables_ok_tables g g' : tables g' = tables g → tables_ok g → tables_ok g'.
Proof.
  unfold tables, tables_ok. intros [= -> -> -> -> -> -> ->]. done.
Qed.

Lemma tables_ok_new : tables_ok Graph_new.
Proof.
  unfold tables_ok, table_size_ok. cbn [Graph_new m_nodeIdCount m_edgeIdCount
    m_nodeArrayTableSize m_edgeArrayTableSize m_regNodeArrays m_regEdgeArrays m_regAdjArrays].
  assert (H16 : 0 ≤ 0 ≤ 1 ≪ 4) by (change (1 ≪ 4) with 16; lia).
  unfold MIN_NODE_TABLE_SIZE, MIN_EDGE_TABLE_SIZE.
  split; [|split]; [| |by repeat constructor].
  all: split; [done|]; split; [by exists 0%nat|by left].
Qed.

Lemma table_size_ok_pos minSize idCount size :
  0 < minSize → table_size_ok minSize idCount size → 0 < size.
Proof. intros Hmin (_ & (k & ->) & _). apply Z.mul_pos_pos; [done|]. apply Z.pow_pos_nonneg; lia. Qed.

Lemma table_size_ok_grow minSize idCount size index size' :
  0 < minSize → table_size_ok minSize idCount size →
  idCount ≤ index → size ≤ index → nextPower2 size index = Some size' →
  table_size_ok minSize (index + 1) size'.
Proof.
  intros Hmin Hok Hle Hle2 Hn.
  pose proof (table_size_ok_pos _ _ _ Hmin Hok) as Hpos.
  destruct Hok as (Hc & (k0 & Hk0) & _).
  destruct (nextPower2_spec size index Hpos) as (n & k & Hn' & Hk & Hlt & Hsmall).
  rewrite Hn in Hn'. injection Hn' as <-.
  split; [lia|]. split.
  - exists (k0 + k)%nat. rewrite Hk, Hk0, Nat2Z.inj_add, Z.pow_add_r by lia. lia.
  - right. destruct Hsmall as [->|Hs]; [|lia]. rewrite Z.mul_1_r in Hk. lia.
Qed.

Lemma table_size_ok_advance minSize idCount size index :
  table_size_ok minSize idCount size → idCount ≤ index → index < size →
  table_size_ok minSize (index + 1) size.
Proof.
  intros (Hc & Hk & Hmin) Hle Hlt. split; [lia|]. split; [done|].
  destruct Hmin; [auto|right; lia].
Qed.

Lemma Forall_enlarged (n : Z) (l : list ArrayBase) :
  Forall (λ a, n ≤ arr_size a) (map (enlargeTable n) l).
Proof. apply Forall_forall. intros a Ha. apply list_elem_of_fmap in Ha as (b & -> & _). cbn. lia. Qed.

Lemma newNode_tables_ok : preserves tables_ok newNode.
Proof.
  apply runs_preserves. intros [g h] HI. apply runs_newNode. mred.
  mred_in HI. destruct HI as ((Hc & (k & Hk) & Hmin) & He & HA & HE & HJ).
  unfold newNode_graph, tables_ok, table_size_ok. mred.
  destruct (Z.eqb_spec (m_nodeIdCount g) (m_nodeArrayTableSize g)) as [Heq|Hne].
  - rewrite !Z.shiftl_mul_pow2 in * by lia. change (2 ^ 1) with 2 in *.
    unfold MIN_NODE_TABLE_SIZE in *. change (1 ≪ 4) with 16 in *.
    split; [|split; [done|split; [apply Forall_enlarged|done]]].
    split; [lia|]. split; [|lia]. exists (S k).
    rewrite Nat2Z.inj_succ, Z.pow_succ_r by lia. lia.
  - split; [|done]. split; [lia|]. split; [eauto|]. destruct Hmin; [auto|right; lia].
Qed.

Lemma newNode_index_tables_ok index : preserves tables_ok (newNode_index index).
Proof.
  apply runs_preserves. intros [g h] HI. mred. mred_in HI.
  destruct HI as (Hn & He & HA & HE & HJ).
  assert (Hpos : 0 < m_nodeArrayTableSize g).
  { eapply table_size_ok_pos; [|exact Hn]. done. }
  eapply runs_mono; [apply (newNode_index_effect g h index Hpos)|].
  intros _ w' ((Hlow & Hhigh) & E1 & E2 & E3 & E4). unfold tables_ok.
  rewrite E1, E2, E3, E4.
  destruct (Z.lt_ge_cases index (m_nodeIdCount g)) as [Hlt|Hge].
  - destruct (Hlow Hlt) as (-> & -> & ->). done.
  - destruct (Hhigh Hge) as (-> & Hin & Hout).
    destruct (Z.lt_ge_cases index (m_nodeArrayTableSize g)) as [Hlt2|Hge2].
    + destruct (Hin Hlt2) as (-> & ->).
      split; [eapply table_size_ok_advance; [exact Hn|done|done]|done].
    + destruct (Hout Hge2) as (Hnext & Hlt' & ->). rewrite Z.mul_1_l.
      split; [eapply table_size_ok_grow; [|exact Hn|..]; done|].
      split; [done|]. split; [apply Forall_enlarged|done].
Qed.

Lemma newEdge_index_tables_ok v w index : preserves tables_ok (newEdge_index v w index).
Proof.
  intros [g h] e wd' HI H.
  assert (Hpre : (0 < v)%nat ∧ (0 < w)%nat ∧
                 is_Some (nodeMem g !! v) ∧ is_Some (nodeMem g !! w)).
  { unfold newEdge_index in H. do 10 minv1 H.
    unfold not_null, nullptr in *.
    destruct v, w; try discriminate. repeat split; try lia; eauto. }
  destruct Hpre as (Hv & Hw & Hlv & Hlw).
  mred_in HI. destruct HI as (Hn & He & HA & HE & HJ).
  assert (Hpos : 0 < m_edgeArrayTableSize g).
  { eapply table_size_ok_pos; [|exact He]. done. }
  pose proof (newEdge_index_effect g h v w index Hv Hw Hlv Hlw Hpos) as Hrun.
  destruct (runs_det _ _ _ _ _ Hrun H) as ((Hlow & Hhigh) & (Hlow' & Hhigh') & E1 & E2 & E3).
  unfold tables_ok. rewrite E1, E2, E3.
  destruct (Z.lt_ge_cases index (m_edgeIdCount g)) as [Hlt|Hge].
  - destruct (Hlow Hlt) as (-> & -> & ->). destruct (Hlow' Hlt) as (_ & _ & ->). done.
  - destruct (Hhigh Hge) as (-> & Hin & Hout). destruct (Hhigh' Hge) as (_ & Hin' & Hout').
    destruct (Z.lt_ge_cases index (m_edgeArrayTableSize g)) as [Hlt2|Hge2].
    + destruct (Hin Hlt2) as (-> & ->). destruct (Hin' Hlt2) as (_ & ->).
      split; [done|]. split; [eapply table_size_ok_advance; [exact He|done|done]|done].
    + destruct (Hout Hge2) as (Hnext & Hlt' & ->). destruct (Hout' Hge2) as (_ & _ & ->).
      rewrite Z.mul_1_l.
      split; [done|]. split; [eapply table_size_ok_grow; [|exact He|..]; done|].
      split; [done|]. split; [apply Forall_enlarged|].
      rewrite Z.shiftl_mul_pow2, Z.mul_comm by lia. change (2 ^ 1) with 2.
      apply Forall_enlarged.
Qed.

Lemma newEdge_tables_ok v w : preserves tables_ok (newEdge v w).
Proof.
  unfold newEdge. pose proof createEdgeElement_tables_ok.
  keeps_with ltac:(eapply tables_ok_tables; [|eassumption]; reflexivity).
Qed.

Lemma split_tables_ok e : preserves tables_ok (split e).
Proof.
  unfold split. pose proof createEdgeElement_tables_ok. pose proof newNode_tables_ok.
  pose proof (resetAdjEntryIndex_tables tables_ok tables_ok_tables).
  keeps_with ltac:(eapply tables_ok_tables; [|eassumption]; reflexivity).
Qed.

Lemma perform_tables_ok op : preserves tables_ok (perform op).
Proof.
  pose proof tables_ok_tables as Ht.
  destruct op; cbn [perform].
  - apply preserves_bind; [apply newNode_tables_ok|intros; apply preserves_ret].
  - apply preserves_bind; [apply newNode_index_tables_ok|intros; apply preserves_ret].
  - apply preserves_bind; [apply newEdge_tables_ok|intros; apply preserves_ret].
  - apply preserves_bind; [apply newEdge_index_tables_ok|intros; apply preserves_ret].
  - by apply delNode_tables.
  - by apply delEdge_tables.
  - apply preserves_bind; [apply split_tables_ok|intros; apply preserves_ret].
  - by apply unsplit_tables.
  - by apply reverseEdge_tables.
  - by apply hideEdge_tables.
  - by apply restoreEdge_tables.
  - by apply restoreAllEdges_tables.
  - by apply moveSource_tables.
  - by apply moveTarget_tables.
  - by apply moveSource_at_tables.
  - by apply moveTarget_at_tables.
  - apply preserves_bind; [by apply contract_tables|intros; apply preserves_ret].
  - intros [g h] [] w' HI [= <-]. mred_in HI. destruct HI as (Hn & He & HA & HE & HJ).
    unfold tables_ok. mred.
    split; [done|split; [done|split; [|done]]].
    apply Forall_app. split; [done|]. repeat constructor. cbn. lia.
  - intros [g h] [] w' HI [= <-]. mred_in HI. destruct HI as (Hn & He & HA & HE & HJ).
    unfold tables_ok. mred.
    split; [done|split; [done|split; [done|split; [|done]]]].
    apply Forall_app. split; [done|]. repeat constructor. cbn. lia.
  - intros [g h] [] w' HI [= <-]. mred_in HI. destruct HI as (Hn & He & HA & HE & HJ).
    unfold tables_ok. mred.
    split; [done|split; [done|split; [done|split; [done|]]]].
    apply Forall_app. split; [done|]. repeat constructor. cbn. lia.
  - intros [g h] [] w' HI [= <-]. done.
  - intros [g h] [] w' HI [= <-]. mred_in HI. destruct HI as (Hn & He & HA & HE & HJ).
    unfold tables_ok. mred.
    split; [done|split; [done|split; [|done]]]. by apply Forall_delete.
  - intros [g h] [] w' HI [= <-]. mred_in HI. destruct HI as (Hn & He & HA & HE & HJ).
    unfold tables_ok. mred.
    split; [done|split; [done|split; [done|split; [|done]]]]. by apply Forall_delete.
  - intros [g h] [] w' HI [= <-]. mred_in HI. destruct HI as (Hn & He & HA & HE & HJ).
    unfold tables_ok. mred.
    split; [done|split; [done|split; [done|split; [done|]]]]. by apply Forall_delete.
  - intros [g h] [] w' HI [= <-]. done.
Qed.

Lemma runs_attach tags obs g h :
  runs (attach tags obs) (mkWorld g h) (λ _ w,
    w = mkWorld
          (set_regStructures (m_regStructures g ++ obs)
             (set_regNodeArrays
                (m_regNodeArrays g ++
                 map (λ t, mkArray t (m_nodeArrayTableSize g) true) tags) g)) h).
Proof.
  unfold attach. revert g. induction tags as [|t tags IH]; intros g; cbn [foldr map].
  - revert g. induction obs as [|o obs IH]; intros g; cbn [foldr].
    + apply runs_ret. rewrite !app_nil_r. by destruct g.
    + apply runs_bind. apply runs_modify. mred.
      eapply runs_mono; [apply IH|]. intros _ w ->. mred.
      by rewrite <- !app_assoc.
  - apply runs_bind. unfold NodeArray_new, registerArray_node. mgo.
    eapply runs_mono; [apply IH|]. intros _ w ->. mred.
    by rewrite <- !app_assoc.
Qed.

Lemma runs_newNodes_small n g h :
  m_nodeIdCount g + Z.of_nat n ≤ m_nodeArrayTableSize g →
  runs (newNodes n) (mkWorld g h) (λ _ w,
    m_nodeIdCount (graph w) = m_nodeIdCount g + Z.of_nat n ∧
    m_nodeArrayTableSize (graph w) = m_nodeArrayTableSize g ∧
    m_regNodeArrays (graph w) = m_regNodeArrays g ∧
    m_regStructures (graph w) = m_regStructures g).
Proof.
  induction n as [|n IH]; intros Hn; cbn [newNodes].
  - apply runs_ret. mred. repeat split; lia.
  - rewrite Nat2Z.inj_succ in *. apply runs_bind. eapply runs_mono; [apply IH; lia|].
    intros _ [g' h'] (E1 & E2 & E3 & E4). mred_in E1. mred_in E2. mred_in E3. mred_in E4.
    apply runs_bind, runs_newNode. mred. apply runs_ret. mred.
    unfold newNode_graph. mred.
    destruct (Z.eqb_spec (m_nodeIdCount g') (m_nodeArrayTableSize g')) as [Heq|Hne]; [exfalso; lia|].
    repeat split; try done. lia.
Qed.





(** A graph with two nodes and no edge, built by the operations. *)
Definition two_nodes : Graph :=
  default Graph_new (exec (newNode ;;; newNode ;;; ret tt) Graph_new).


(** ** Facts about well-formed graphs *)

Lemma wf_node g v r : wf g → nodeMem g !! v = Some r → node_wf g v r.
Proof. intros (_ & _ & _ & _ & H & _) Hv. exact (H v r Hv). Qed.

Lemma wf_edge g e re : wf g → edgeMem g !! e = Some re → edge_wf g e re.
Proof. intros (_ & _ & _ & _ & _ & H & _) He. exact (H e re He). Qed.

Lemma wf_adj g a ra : wf g → adjMem g !! a = Some ra → adj_wf g a ra.
Proof. intros (_ & _ & _ & _ & _ & _ & H) Ha. exact (H a ra Ha). Qed.

Lemma wf_edges_live g e :
  wf g → e ∈ edges g ++ m_hiddenEdges g → is_Some (edgeMem g !! e).
Proof.
  intros (_ & _ & _ & H & _) He. rewrite Forall_forall in H. by apply H.
Qed.

Lemma wf_nodes_live g v : wf g → v ∈ nodes g → is_Some (nodeMem g !! v).
Proof.
  intros (_ & _ & H & _) Hv. rewrite Forall_forall in H. by apply H.
Qed.

(** The half-edge [a] of the rotation of [v] belongs to an edge of the edge
    list, as its source side or its target side; its twin is the other
    side and sits at the other end. *)
Lemma wf_rotation_entry g v r a :
  wf g → nodeMem g !! v = Some r → a ∈ adjEdges r →
  ∃ ra re rt, adjMem g !! a = Some ra ∧ a_node ra = v ∧ a_edge ra ∈ edges g ∧
    edgeMem g !! a_edge ra = Some re ∧ adjMem g !! a_twin ra = Some rt ∧
    a_edge rt = a_edge ra ∧ a_twin rt = a ∧
    ((m_adjSrc re = a ∧ m_adjTgt re = a_twin ra ∧ m_src re = v ∧ m_tgt re = a_node rt) ∨
     (m_adjTgt re = a ∧ m_adjSrc re = a_twin ra ∧ m_tgt re = v ∧ m_src re = a_node rt)).
Proof.
  intros Hwf Hv Ha.
  destruct (wf_node _ _ _ Hwf Hv) as (_ & _ & _ & Hall).
  rewrite Forall_forall in Hall. destruct (Hall a Ha) as (ra & Hra & Hnode & Hin).
  destruct (wf_adj _ _ _ Hwf Hra) as (_ & re & Hre & Hside).
  destruct (wf_edge _ _ _ Hwf Hre)
    as (_ & _ & Hne & (rs & Hrs & Es1 & Es2 & Es3) & (rt & Hrt & Et1 & Et2 & Et3) & _).
  exists ra, re.
  destruct Hside as [Hs|Ht].
  - rewrite Hs in Hrs. rewrite Hra in Hrs. injection Hrs as <-.
    exists rt. rewrite Es3. repeat split; try done; try congruence.
    left. repeat split; congruence.
  - rewrite Ht in Hrt. rewrite Hra in Hrt. injection Hrt as <-.
    exists rs. rewrite Et3. repeat split; try done; try congruence.
    right. repeat split; congruence.
Qed.

(** ** Searching for an edge *)

(** The scan returns the edge of the first half-edge whose twin is at [w],
    and null if there is none. *)
Lemma searchEdge_scan_spec g v r w l0 l :
  wf g → nodeMem g !! v = Some r → adjEdges r = l0 ++ l →
  ∃ e, searchEdge_scan g w l = Some e ∧
    ((e = nullptr ∧ ∀ a, a ∈ l → twinNode g a ≠ Some w) ∨
     (e ≠ nullptr ∧ ∃ l1 a l2, l = l1 ++ a :: l2 ∧ theEdge g a = Some e ∧
        twinNode g a = Some w ∧ ∀ b, b ∈ l1 → twinNode g b ≠ Some w)).
Proof.
  intros Hwf Hv. revert l0. induction l as [|a l IH]; intros l0 Hl; cbn [searchEdge_scan].
  - exists nullptr. split; [done|]. left. split; [done|]. intros a Ha. by apply elem_of_nil in Ha.
  - assert (Ha : a ∈ adjEdges r) by (rewrite Hl; set_solver).
    destruct (wf_rotation_entry _ _ _ _ Hwf Hv Ha)
      as (ra & re & rt & Hra & Hnode & Hin & Hre & Hrt & _).
    assert (Htw : twinNode g a = Some (a_node rt)).
    { unfold twinNode, twin, theNode. rewrite Hra. cbn. by rewrite Hrt. }
    rewrite Htw. cbn [mbind option_bind].
    destruct (Nat.eqb_spec (a_node rt) w) as [Heq|Hne].
    + exists (a_edge ra). split; [unfold theEdge; by rewrite Hra|].
      right. split.
      * assert (He := wf_edge _ _ _ Hwf Hre). destruct He as (Hpos & _).
        unfold nullptr. lia.
      * exists [], a, l. split; [done|]. split; [unfold theEdge; by rewrite Hra|].
        split; [by rewrite Htw, Heq|]. intros b Hb. by apply elem_of_nil in Hb.
    + destruct (IH (l0 ++ [a])) as (e & He & Hcase); [by rewrite <- app_assoc|].
      exists e. split; [done|].
      destruct Hcase as [(-> & Hnone)|(Hnn & l1 & b & l2 & -> & Hb1 & Hb2 & Hb3)].
      * left. split; [done|]. intros b Hb. apply elem_of_cons in Hb as [->|Hb]; [|by apply Hnone].
        rewrite Htw. congruence.
      * right. split; [done|]. exists (a :: l1), b, l2. split; [done|].
        split; [done|]. split; [done|].
        intros c Hc. apply elem_of_cons in Hc as [->|Hc]; [|by apply Hb3].
        rewrite Htw. congruence.
Qed.

(** The node whose rotation [searchEdge(v, w)] scans, and the node it looks
    for: the ends are swapped when [w] has the smaller degree. *)
Definition searchEdge_ends (g : Graph) (v w : node) : option (node * node) :=
  dv ← degree g v;
  dw ← degree g w;
  Some (if dw <? dv then (w, v) else (v, w)).

(** C7 as stated fails: a search for an edge from node 1 to node 2 returns
    the only edge of the graph, which leads from node 2 to node 1. *)
Lemma searchEdge_finds_reverse :
  ∃ g e re, exec (newEdge 2 1 ;;; ret tt) two_nodes = Some g ∧
    searchEdge g 1 2 = Some e ∧ edgeMem g !! e = Some re ∧
    m_src re = 2%nat ∧ m_tgt re = 1%nat.
Proof.
  eexists _, _, _.
  split; [vm_compute; reflexivity|].
  split; [vm_compute; reflexivity|].
  split; [vm_compute; reflexivity|].
  split; reflexivity.
Qed.

(** C7 (amended): [searchEdge(v, w)] scans the rotation of the end with the
    smaller degree ([v] on a tie) for a half-edge whose twin lies at the
    other end and returns the edge of the first such half-edge; it returns
    null exactly when the edge list has no edge between [v] and [w].  The
    search ignores direction: an edge from [w] to [v] is found as well as
    an edge from [v] to [w]. *)
Theorem searchEdge_spec (g : Graph) (v w : node) :
  wf g → is_Some (nodeMem g !! v) → is_Some (nodeMem g !! w) →
  ∃ s t rot e,
    searchEdge_ends g v w = Some (s, t) ∧ rotation g s = Some rot ∧
    searchEdge g v w = Some e ∧
    ((e = nullptr ∧
      (∀ a, a ∈ rot → twinNode g a ≠ Some t) ∧
      (∀ e' re', e' ∈ edges g → edgeMem g !! e' = Some re' →
         ¬ (m_src re' = v ∧ m_tgt re' = w) ∧ ¬ (m_src re' = w ∧ m_tgt re' = v))) ∨
     (e ≠ nullptr ∧ e ∈ edges g ∧
      (∃ l1 a l2, rot = l1 ++ a :: l2 ∧ theEdge g a = Some e ∧
         twinNode g a = Some t ∧ ∀ b, b ∈ l1 → twinNode g b ≠ Some t) ∧
      (∃ re, edgeMem g !! e = Some re ∧
         ((m_src re = v ∧ m_tgt re = w) ∨ (m_src re = w ∧ m_tgt re = v))))).
Proof.
  intros Hwf [rv Hrv] [rw Hrw].
  unfold searchEdge, searchEdge_ends, degree. rewrite Hrv, Hrw. cbn [fmap option_fmap option_map mbind option_bind].
  assert (Hst : ∃ s t rs,
            (if m_indeg rw + m_outdeg rw <? m_indeg rv + m_outdeg rv then (w, v) else (v, w))
              = (s, t) ∧
            nodeMem g !! s = Some rs ∧ ((s = v ∧ t = w) ∨ (s = w ∧ t = v))).
  { destruct (_ <? _); eexists _, _, _; (split; [reflexivity|]); eauto. }
  destruct Hst as (s & t & rs & Hif & Hrs & Hends). rewrite Hif.
  exists s, t, (adjEdges rs). unfold rotation. rewrite Hrs.
  cbn [fmap option_fmap option_map mbind option_bind].
  destruct (searchEdge_scan_spec g s rs t [] (adjEdges rs) Hwf Hrs eq_refl) as (e & He & Hcase).
  exists e. split; [done|]. split; [done|]. split; [done|].
  destruct Hcase as [(-> & Hnone)|(Hnn & l1 & a & l2 & Hl & Ha1 & Ha2 & Ha3)].
  - left. split; [done|]. split; [done|].
    intros e' re' Hin Hre'.
    destruct (wf_edge _ _ _ Hwf Hre')
      as (_ & _ & _ & (r1 & Hr1 & E11 & E12 & E13) & (r2 & Hr2 & E21 & E22 & E23) &
          (n1 & Hn1 & Hin1) & (n2 & Hn2 & Hin2)).
    assert (T1 : twinNode g (m_adjSrc re') = Some (m_tgt re')).
    { unfold twinNode, twin, theNode. rewrite Hr1. cbn. rewrite E13, Hr2. cbn. by rewrite E22. }
    assert (T2 : twinNode g (m_adjTgt re') = Some (m_src re')).
    { unfold twinNode, twin, theNode. rewrite Hr2. cbn. rewrite E23, Hr1. cbn. by rewrite E12. }
    split; intros [Es Et].
    + destruct Hends as [[-> ->]|[-> ->]].
      * rewrite Es, Hrs in Hn1. injection Hn1 as <-.
        apply (Hnone _ (Hin1 Hin)). by rewrite T1, Et.
      * rewrite Et, Hrs in Hn2. injection Hn2 as <-.
        apply (Hnone _ (Hin2 Hin)). by rewrite T2, Es.
    + destruct Hends as [[-> ->]|[-> ->]].
      * rewrite Et, Hrs in Hn2. injection Hn2 as <-.
        apply (Hnone _ (Hin2 Hin)). by rewrite T2, Es.
      * rewrite Es, Hrs in Hn1. injection Hn1 as <-.
        apply (Hnone _ (Hin1 Hin)). by rewrite T1, Et.
  - right. split; [done|].
    assert (Hain : a ∈ adjEdges rs) by (rewrite Hl; set_solver).
    destruct (wf_rotation_entry _ _ _ _ Hwf Hrs Hain)
      as (ra & re & rt & Hra & Hnode & Hin & Hre & Hrt & _ & _ & Hside).
    pose proof Ha1 as Ha1'. pose proof Ha2 as Ha2'.
    unfold theEdge in Ha1. rewrite Hra in Ha1. injection Ha1 as <-.
    unfold twinNode, twin, theNode in Ha2. rewrite Hra in Ha2. cbn in Ha2.
    rewrite Hrt in Ha2. injection Ha2 as Ht.
    split; [done|]. split; [by exists l1, a, l2|].
    exists re. split; [done|].
    destruct Hside as [(_ & _ & E1 & E2)|(_ & _ & E1 & E2)];
      destruct Hends as [[-> ->]|[-> ->]]; rewrite E1, E2, Ht; auto.
Qed.

(** A graph with two nodes and one edge from the first to the second. *)
Definition one_edge : Graph :=
  default Graph_new (exec (newEdge 1 2 ;;; ret tt) two_nodes).

Lemma searchEdge_spec_witness :
  ∃ s t rot e,
    searchEdge_ends one_edge 2 1 = Some (s, t) ∧ rotation one_edge s = Some rot ∧
    searchEdge one_edge 2 1 = Some e ∧
    ((e = nullptr ∧
      (∀ a, a ∈ rot → twinNode one_edge a ≠ Some t) ∧
      (∀ e' re', e' ∈ edges one_edge → edgeMem one_edge !! e' = Some re' →
         ¬ (m_src re' = 2%nat ∧ m_tgt re' = 1%nat) ∧
         ¬ (m_src re' = 1%nat ∧ m_tgt re' = 2%nat))) ∨
     (e ≠ nullptr ∧ e ∈ edges one_edge ∧
      (∃ l1 a l2, rot = l1 ++ a :: l2 ∧ theEdge one_edge a = Some e ∧
         twinNode one_edge a = Some t ∧ ∀ b, b ∈ l1 → twinNode one_edge b ≠ Some t) ∧
      (∃ re, edgeMem one_edge !! e = Some re ∧
         ((m_src re = 2%nat ∧ m_tgt re = 1%nat) ∨
          (m_src re = 1%nat ∧ m_tgt re = 2%nat))))).
Proof.
  apply (searchEdge_spec one_edge 2 1).
  - apply (bool_decide_unpack _). vm_compute. reflexivity.
  - eexists. vm_compute. reflexivity.
  - eexists. vm_compute. reflexivity.
Defined.

(** ** Intrusive lists: facts *)

Lemma unlink_Some x l l' :
  unlink x l = Some l' → ∃ l1 l2, l = l1 ++ x :: l2 ∧ (x ∉ l1) ∧ l' = l1 ++ l2.
Proof.
  revert l'. induction l as [|y l IH]; intros l'; cbn [unlink]; [done|].
  destruct (Nat.eqb_spec y x) as [->|Hne].
  - intros [= <-]. exists [], l. split; [done|]. split; [|done]. apply not_elem_of_nil.
  - destruct (unlink x l) as [r|]; [|done]. intros [= <-].
    destruct (IH r eq_refl) as (l1 & l2 & -> & Hnin & ->).
    exists (y :: l1), l2. split; [done|]. split; [|done].
    apply not_elem_of_cons. split; [congruence|done].
Qed.

Lemma unlink_elem x l l' : unlink x l = Some l' → x ∈ l ∧ ∀ y, y ∈ l' → y ∈ l.
Proof.
  intros H. destruct (unlink_Some _ _ _ H) as (l1 & l2 & -> & _ & ->).
  split; [set_solver|]. intros y. set_solver.
Qed.

Lemma unlink_is_Some x l : x ∈ l → is_Some (unlink x l).
Proof.
  induction l as [|y l IH]; intros Hx; [by apply elem_of_nil in Hx|]. cbn [unlink].
  destruct (Nat.eqb_spec y x) as [->|Hne]; [eauto|].
  apply elem_of_cons in Hx as [->|Hx]; [done|].
  destruct (IH Hx) as [r ->]. eauto.
Qed.

(** ** Deletion notifications *)

(** What the observers [obs] hear, in this order, when the events [evs]
    are fired one after the other, each with the graph it is fired in. *)
Definition notes_for (obs : list GraphObserver) (evs : list (Event * Graph)) : list Note :=
  concat (map (λ eg, map (λ o, mkNote o (fst eg) (snd eg)) obs) evs).

(** The element an event is about is still linked into the graph [g]: a
    node is in the node list; an edge is in the edge list and its two
    half-edges sit in the rotations of its ends. *)
Definition linked (g : Graph) (ev : Event) : Prop :=
  match ev with
  | nodeDeleted v => v ∈ nodes g ∧ is_Some (nodeMem g !! v)
  | edgeDeleted e =>
      e ∈ edges g ∧
      ∃ re rs rt, edgeMem g !! e = Some re ∧
        nodeMem g !! m_src re = Some rs ∧ m_adjSrc re ∈ adjEdges rs ∧
        nodeMem g !! m_tgt re = Some rt ∧ m_adjTgt re ∈ adjEdges rt
  | _ => True
  end.

Lemma delEdge_inv e g h w' :
  delEdge e (mkWorld g h) = Some (tt, w') →
  heard w' = h ++ notes_for (m_regStructures g) [(edgeDeleted e, g)] ∧
  linked g (edgeDeleted e) ∧
  edgeMem (graph w') = delete e (edgeMem g) ∧
  m_regStructures (graph w') = m_regStructures g ∧
  nodes (graph w') = nodes g.
Proof.
  intros H. unfold delEdge in H. minv H. subst w'. mred.
  split; [unfold notes_for; cbn; by rewrite app_nil_r|].
  split; [|done].
  destruct (unlink_elem _ _ _ E2) as [Hs Hsub]. destruct (unlink_elem _ _ _ E4) as [Ht _].
  destruct (unlink_elem _ _ _ E5) as [He _].
  split; [done|]. exists x, x0.
  destruct (decide (m_src x = m_tgt x)) as [Heq|Hne].
  - rewrite Heq in E3. rewrite lookup_insert_eq in E3. injection E3 as <-.
    exists x0. rewrite <- Heq. repeat split; try done. by apply Hsub.
  - rewrite !lookup_insert_ne in E3 by done. exists x2. done.
Qed.

Lemma delNode_loop_inv fuel v g h w' :
  delNode_loop fuel v (mkWorld g h) = Some (tt, w') →
  ∃ evs, heard w' = h ++ notes_for (m_regStructures g) evs ∧
    Forall (λ eg, ∃ e, fst eg = edgeDeleted e ∧ linked (snd eg) (fst eg) ∧
                       edgeMem (snd eg) !! e = edgeMem g !! e) evs ∧
    edgeMem (graph w') ⊆ edgeMem g ∧
    m_regStructures (graph w') = m_regStructures g ∧
    nodes (graph w') = nodes g ∧
    rotation (graph w') v = Some [].
Proof.
  revert g h. induction fuel as [|fuel IH]; intros g h H; cbn [delNode_loop] in H.
  - minv H. destruct (adjEdges r) as [|a l] eqn:Hrot; [|done]. minv H. subst w'.
    exists []. unfold notes_for. cbn. rewrite app_nil_r. repeat split; try done.
    unfold rotation. by rewrite E0, <- Hrot.
  - minv H. destruct (adjEdges r) as [|a l] eqn:Hrot.
    + minv H. subst w'. exists []. unfold notes_for. cbn. rewrite app_nil_r.
      repeat split; try done. unfold rotation. by rewrite E0, <- Hrot.
    + minv H. apply bind_inv in H. destruct H as ([] & [g1 h1] & Hdel & Hloop).
      destruct (delEdge_inv _ _ _ _ Hdel) as (Hh & Hlinked & Hmem & Hobs & Hnodes).
      mred_in Hh. mred_in Hmem. mred_in Hobs. mred_in Hnodes.
      destruct (IH _ _ Hloop) as (evs & Hh' & Hall & Hsub & Hobs' & Hnodes' & Hrot').
      exists ((edgeDeleted (a_edge r0), g) :: evs).
      split.
      { rewrite Hh', Hh, Hobs. unfold notes_for. cbn [map concat fst snd].
        by rewrite app_nil_r, <- app_assoc. }
      split.
      { constructor; [by exists (a_edge r0)|].
        eapply Forall_impl; [exact Hall|]. intros [ev g'] (e' & Hev & Hl & Hsame).
        cbn [fst snd] in *. exists e'. split; [done|]. split; [done|].
        rewrite Hsame, Hmem. subst ev. destruct Hl as (_ & re & _ & _ & Hre & _).
        rewrite Hsame, Hmem in Hre.
        apply lookup_delete_Some in Hre as [Hne _]. by rewrite lookup_delete_ne. }
      split.
      { etrans; [exact Hsub|]. rewrite Hmem. apply delete_subseteq. }
      split; [congruence|]. split; [congruence|done].
Qed.

Lemma delNode_inv v g h w' :
  delNode v (mkWorld g h) = Some (tt, w') →
  ∃ evs, heard w' = h ++ notes_for (m_regStructures g) ((nodeDeleted v, g) :: evs) ∧
    linked g (nodeDeleted v) ∧
    Forall (λ eg, ∃ e, fst eg = edgeDeleted e ∧ linked (snd eg) (fst eg) ∧
                       edgeMem (snd eg) !! e = edgeMem g !! e) evs.
Proof.
  intros H. unfold delNode in H. minv H.
  apply bind_inv in H. destruct H as ([] & [g1 h1] & Hloop & Hdel).
  destruct (delNode_loop_inv _ _ _ _ _ Hloop) as (evs & Hh & Hall & _ & Hobs & Hnodes & _).
  mred_in Hh. mred_in Hobs. mred_in Hnodes.
  unfold nodes_del in Hdel. minv Hdel. subst w'. mred.
  exists evs. split.
  { rewrite Hh. unfold notes_for. cbn [map concat fst snd]. by rewrite <- app_assoc. }
  split; [|done]. split; [|eauto].
  rewrite <- Hnodes.
  match goal with H : unlink v _ = Some _ |- _ => by destruct (unlink_elem _ _ _ H) end.
Qed.

Lemma unsplit_inv eIn eOut g h w' :
  wf g → unsplit eIn eOut (mkWorld g h) = Some (tt, w') →
  ∃ u g1, target g eIn = Some u ∧
    heard w' = h ++ notes_for (m_regStructures g)
                      [(edgeDeleted eOut, g1); (nodeDeleted u, g1)] ∧
    linked g1 (edgeDeleted eOut) ∧ linked g1 (nodeDeleted u) ∧
    edgeMem g1 !! eOut = edgeMem g !! eOut ∧
    nodeMem g1 = nodeMem g ∧ nodes g1 = nodes g ∧ edges g1 = edges g.
Proof.
  intros Hwf H. unfold unsplit in H. minv H. subst w'. mred.
  assert (Hne : eIn ≠ eOut).
  { intros ->. rewrite E0 in E4. injection E4 as <-.
    apply Nat.eqb_eq in E3. rewrite E3 in E5. by rewrite Nat.eqb_refl in E5. }
  eexists (m_tgt r), _. split; [unfold target; by rewrite E0|].
  split.
  { unfold notes_for. cbn [map concat fst snd]. rewrite app_nil_r, <- app_assoc. reflexivity. }
  unfold linked. mred. rewrite !lookup_insert_ne by done.
  destruct (unlink_elem _ _ _ E11) as [HeOut _]. destruct (unlink_elem _ _ _ E12) as [Hu _].
  destruct (wf_edge _ _ _ Hwf E4) as (_ & _ & _ & _ & _ & (rs & Hrs & Hins) & (rt & Hrt & Hint)).
  repeat split; try done.
  exists r0, rs, rt. repeat split; [done|done|by apply Hins|done|by apply Hint].
Qed.


(** A path of two edges through a middle node, watched by two observers. *)
Definition watched_path : Graph :=
  default Graph_new
    (exec (registerStructure (mkObserver 1 true) ;;;
           registerStructure (mkObserver 2 true) ;;;
           a <- newNode ;; u <- newNode ;; b <- newNode ;;
           newEdge a u ;;; newEdge u b ;;; ret tt) Graph_new).


(** ** Hiding and restoring: what they do to a well-formed graph *)

(** A rotation without the two half-edges of an edge. *)
Definition without_edge (re : EdgeElement) (l : list adjEntry) : list adjEntry :=
  filter (λ a, a ≠ m_adjSrc re ∧ a ≠ m_adjTgt re) l.

(** The two half-edges of an edge that belong to the node [v], source
    side first. *)
Definition ends_at (re : EdgeElement) (v : node) : list adjEntry :=
  (if decide (v = m_src re) then [m_adjSrc re] else []) ++
  (if decide (v = m_tgt re) then [m_adjTgt re] else []).

Definition is_end (v x : node) : Z := if decide (v = x) then 1 else 0.

(** The node [v] after the edge has been hidden, and after it has been
    restored. *)
Definition hide_node (re : EdgeElement) (v : node) (r : NodeElement) : NodeElement :=
  mkNode (n_id r) (m_indeg r - is_end v (m_tgt re)) (m_outdeg r - is_end v (m_src re))
         (without_edge re (adjEdges r)).

Definition restore_node (re : EdgeElement) (v : node) (r : NodeElement) : NodeElement :=
  mkNode (n_id r) (m_indeg r + is_end v (m_tgt re)) (m_outdeg r + is_end v (m_src re))
         (adjEdges r ++ ends_at re v).

Definition hidden_graph (g : Graph) (e : edge) (re : EdgeElement) : Graph :=
  set_hiddenEdges (m_hiddenEdges g ++ [e])
    (set_edges (filter (λ x, x ≠ e) (edges g))
       (set_nodeMem (map_imap (λ v r, Some (hide_node re v r)) (nodeMem g)) g)).

Definition restored_graph (g : Graph) (e : edge) (re : EdgeElement) : Graph :=
  set_edges (edges g ++ [e])
    (set_hiddenEdges (filter (λ x, x ≠ e) (m_hiddenEdges g))
       (set_nodeMem (map_imap (λ v r, Some (restore_node re v r)) (nodeMem g)) g)).

Lemma filter_ext_elem (P Q : nat → Prop) `{∀ x, Decision (P x)} `{∀ x, Decision (Q x)}
    (l : list nat) :
  (∀ x, x ∈ l → P x ↔ Q x) → filter P l = filter Q l.
Proof.
  induction l as [|y l IH]; intros HPQ; [done|].
  rewrite !filter_cons.
  assert (Hy : P y ↔ Q y) by (apply HPQ; set_solver).
  rewrite IH by (intros x Hx; apply HPQ; set_solver).
  destruct (decide (P y)), (decide (Q y)); tauto.
Qed.

Lemma filter_all (P : nat → Prop) `{∀ x, Decision (P x)} (l : list nat) :
  (∀ x, x ∈ l → P x) → filter P l = l.
Proof.
  induction l as [|y l IH]; intros HP; [done|].
  rewrite filter_cons_True by (apply HP; set_solver).
  f_equal. apply IH. intros x Hx. apply HP. set_solver.
Qed.

Lemma unlink_filter x l :
  NoDup l → x ∈ l → unlink x l = Some (filter (λ y, y ≠ x) l).
Proof.
  induction l as [|y l IH]; intros Hnd Hx; [by apply elem_of_nil in Hx|].
  apply NoDup_cons in Hnd as [Hy Hnd]. cbn [unlink].
  destruct (Nat.eqb_spec y x) as [->|Hne].
  - rewrite filter_cons_False by (intros ?; done).
    f_equal. symmetry. apply filter_all. intros z Hz ->. done.
  - apply elem_of_cons in Hx as [->|Hx]; [done|].
    rewrite IH by done. by rewrite filter_cons_True.
Qed.

Lemma node_eta (r : NodeElement) : mkNode (n_id r) (m_indeg r) (m_outdeg r) (adjEdges r) = r.
Proof. by destruct r. Qed.

(** In a well-formed graph a half-edge of an edge sits only in the rotation
    of its own end. *)
Lemma wf_adjSrc_at g e re v r :
  wf g → edgeMem g !! e = Some re → nodeMem g !! v = Some r →
  m_adjSrc re ∈ adjEdges r → v = m_src re.
Proof.
  intros Hwf He Hv Hin.
  destruct (wf_rotation_entry _ _ _ _ Hwf Hv Hin) as (ra & _ & _ & Hra & Hnode & _).
  destruct (wf_edge _ _ _ Hwf He) as (_ & _ & _ & (rs & Hrs & _ & Es & _) & _).
  congruence.
Qed.

Lemma wf_adjTgt_at g e re v r :
  wf g → edgeMem g !! e = Some re → nodeMem g !! v = Some r →
  m_adjTgt re ∈ adjEdges r → v = m_tgt re.
Proof.
  intros Hwf He Hv Hin.
  destruct (wf_rotation_entry _ _ _ _ Hwf Hv Hin) as (ra & _ & _ & Hra & Hnode & _).
  destruct (wf_edge _ _ _ Hwf He) as (_ & _ & _ & _ & (rt & Hrt & _ & Et & _) & _).
  congruence.
Qed.

(** A half-edge in a rotation belongs to an edge of the edge list; the
    half-edges of a hidden edge are in no rotation. *)
Lemma wf_rotation_edge g e re v r a :
  wf g → edgeMem g !! e = Some re → nodeMem g !! v = Some r → a ∈ adjEdges r →
  a = m_adjSrc re ∨ a = m_adjTgt re → e ∈ edges g.
Proof.
  intros Hwf He Hv Hin Ha.
  destruct (wf_rotation_entry _ _ _ _ Hwf Hv Hin) as (ra & _ & _ & Hra & _ & Hed & _).
  destruct (wf_edge _ _ _ Hwf He)
    as (_ & _ & _ & (rs & Hrs & Es & _) & (rt & Hrt & Et & _) & _).
  destruct Ha as [->| ->]; congruence.
Qed.

Lemma without_edge_both re l :
  NoDup l → m_adjSrc re ∈ l → m_adjTgt re ∈ l → m_adjSrc re ≠ m_adjTgt re →
  ∃ l1, unlink (m_adjSrc re) l = Some l1 ∧ unlink (m_adjTgt re) l1 = Some (without_edge re l).
Proof.
  intros Hnd Hs Ht Hne. eexists. split; [by apply unlink_filter|].
  rewrite unlink_filter.
  - f_equal. unfold without_edge. rewrite list_filter_filter. apply list_filter_iff.
    intros x. tauto.
  - by apply NoDup_filter.
  - apply list_elem_of_filter. split; [congruence|done].
Qed.

Lemma without_edge_src re l :
  NoDup l → m_adjSrc re ∈ l → m_adjTgt re ∉ l →
  unlink (m_adjSrc re) l = Some (without_edge re l).
Proof.
  intros Hnd Hs Ht. rewrite unlink_filter by done. f_equal.
  unfold without_edge. apply filter_ext_elem. intros x Hx. split; [|tauto].
  intros Hne. split; [done|]. intros ->. done.
Qed.

Lemma without_edge_tgt re l :
  NoDup l → m_adjTgt re ∈ l → m_adjSrc re ∉ l →
  unlink (m_adjTgt re) l = Some (without_edge re l).
Proof.
  intros Hnd Ht Hs. rewrite unlink_filter by done. f_equal.
  unfold without_edge. apply filter_ext_elem. intros x Hx. split; [|tauto].
  intros Hne. split; [|done]. intros ->. done.
Qed.

Lemma without_edge_none re l :
  m_adjSrc re ∉ l → m_adjTgt re ∉ l → without_edge re l = l.
Proof.
  intros Hs Ht. apply filter_all. intros x Hx. split; intros ->; done.
Qed.

Lemma is_end_same v : is_end v v = 1.
Proof. unfold is_end. by rewrite decide_True. Qed.

Lemma is_end_other v x : v ≠ x → is_end v x = 0.
Proof. intros. unfold is_end. by rewrite decide_False. Qed.

Lemma wf_NoDup_edges g : wf g → NoDup (edges g) ∧ NoDup (m_hiddenEdges g) ∧
  ∀ e, e ∈ edges g → e ∉ m_hiddenEdges g.
Proof.
  intros (_ & H & _). apply NoDup_app in H as (H1 & H2 & H3). done.
Qed.

(** What hiding needs to know about the ends of an edge of the edge list. *)
Lemma wf_edge_ends g e re :
  wf g → e ∈ edges g → edgeMem g !! e = Some re →
  (0 < e)%nat ∧ m_adjSrc re ≠ m_adjTgt re ∧
  ∃ rs rt, nodeMem g !! m_src re = Some rs ∧ nodeMem g !! m_tgt re = Some rt ∧
    NoDup (adjEdges rs) ∧ NoDup (adjEdges rt) ∧
    m_adjSrc re ∈ adjEdges rs ∧ m_adjTgt re ∈ adjEdges rt ∧
    (m_src re ≠ m_tgt re → (m_adjTgt re ∉ adjEdges rs) ∧ (m_adjSrc re ∉ adjEdges rt)).
Proof.
  intros Hwf Hin He.
  destruct (wf_edge _ _ _ Hwf He) as ((Hpos & _) & _ & Hne & _ & _ & (rs & Hrs & Hs) & (rt & Hrt & Ht)).
  split; [done|]. split; [done|]. exists rs, rt.
  destruct (wf_node _ _ _ Hwf Hrs) as (_ & _ & Hnd1 & _).
  destruct (wf_node _ _ _ Hwf Hrt) as (_ & _ & Hnd2 & _).
  repeat split; auto.
  - intros Hc. apply H. by eapply wf_adjTgt_at.
  - intros Hc. apply H. symmetry. by eapply wf_adjSrc_at.
Qed.

Lemma hide_node_other g e re v r :
  wf g → edgeMem g !! e = Some re → nodeMem g !! v = Some r →
  v ≠ m_src re → v ≠ m_tgt re → hide_node re v r = r.
Proof.
  intros Hwf He Hv Hs Ht. unfold hide_node.
  rewrite !is_end_other, !Z.sub_0_r by done.
  rewrite without_edge_none; [apply node_eta| |].
  - intros Hc. apply Hs. by eapply wf_adjSrc_at.
  - intros Hc. apply Ht. by eapply wf_adjTgt_at.
Qed.

Lemma runs_hideEdge g h e re :
  wf g → e ∈ edges g → edgeMem g !! e = Some re →
  runs (hideEdge e) (mkWorld g h) (λ _ w', w' = mkWorld (hidden_graph g e re) h).
Proof.
  intros Hwf Hin He.
  destruct (wf_edge_ends _ _ _ Hwf Hin He)
    as (Hpos & Hne & rs & rt & Hrs & Hrt & Hnd1 & Hnd2 & Hs & Ht & Hother).
  destruct (wf_NoDup_edges _ Hwf) as (HndE & _ & _).
  unfold hideEdge. mgo.
  destruct (decide (m_src re = m_tgt re)) as [Heq|Hneq].
  - rewrite <- Heq in *. rewrite Hrs in Hrt. injection Hrt as <-.
    destruct (without_edge_both re (adjEdges rs)) as (l1 & Hl1 & Hl2); try done.
    eapply runs_unlink_adj; [lk; reflexivity|exact Hl1|]. mgo.
    eapply runs_unlink_adj; [lk; reflexivity|exact Hl2|]. mgo.
    eapply runs_lift; [mred; by apply unlink_filter|]. mgo.
    unfold hidden_graph, pushBack. mred. do 2 f_equal.
    apply map_eq. intros v. rewrite map_lookup_imap.
    destruct (decide (v = m_src re)) as [->|Hv].
    + rewrite lookup_insert_eq, Hrs. cbn. unfold hide_node.
      by rewrite <- Heq, !is_end_same.
    + rewrite !lookup_insert_ne by done.
      destruct (nodeMem g !! v) as [r|] eqn:Hr; [|done]. cbn.
      by erewrite hide_node_other by (try done; congruence).
  - destruct (Hother Hneq) as [Hts Hst].
    eapply runs_unlink_adj; [lk; reflexivity|by apply without_edge_src|]. mgo.
    eapply runs_unlink_adj; [lk; reflexivity|by apply without_edge_tgt|]. mgo.
    eapply runs_lift; [mred; by apply unlink_filter|]. mgo.
    unfold hidden_graph, pushBack. mred. do 2 f_equal.
    apply map_eq. intros v. rewrite map_lookup_imap.
    destruct (decide (v = m_tgt re)) as [->|Hv].
    + rewrite lookup_insert_eq, Hrt. cbn. unfold hide_node.
      rewrite is_end_same, is_end_other, Z.sub_0_r by done. done.
    + rewrite !(lookup_insert_ne _ (m_tgt re)) by done.
      destruct (decide (v = m_src re)) as [->|Hv'].
      * rewrite lookup_insert_eq, Hrs. cbn. unfold hide_node.
        rewrite is_end_same, is_end_other, Z.sub_0_r by done. done.
      * rewrite !lookup_insert_ne by done.
        destruct (nodeMem g !! v) as [r|] eqn:Hr; [|done]. cbn.
        by erewrite hide_node_other by done.
Qed.

Lemma filter_ne_split (x : nat) (l : list nat) :
  NoDup l → x ∈ l → ∃ l1 l2, l = l1 ++ x :: l2 ∧ filter (λ y, y ≠ x) l = l1 ++ l2.
Proof.
  intros Hnd Hx. pose proof (unlink_filter x l Hnd Hx) as Hu.
  destruct (unlink_Some _ _ _ Hu) as (l1 & l2 & Hl & _ & Hf). eauto.
Qed.

Lemma filter_ne_perm (x : nat) (l : list nat) :
  NoDup l → x ∈ l → filter (λ y, y ≠ x) l ++ [x] ≡ₚ l.
Proof.
  intros Hnd Hx. destruct (filter_ne_split x l Hnd Hx) as (l1 & l2 & -> & ->).
  rewrite <- app_assoc. apply Permutation_app_head. symmetry. apply Permutation_cons_append.
Qed.

(** The half-edges of two different edges are different. *)
Lemma wf_adj_distinct g e e' re re' :
  wf g → edgeMem g !! e = Some re → edgeMem g !! e' = Some re' → e ≠ e' →
  m_adjSrc re' ≠ m_adjSrc re ∧ m_adjSrc re' ≠ m_adjTgt re ∧
  m_adjTgt re' ≠ m_adjSrc re ∧ m_adjTgt re' ≠ m_adjTgt re.
Proof.
  intros Hwf He He' Hne.
  destruct (wf_edge _ _ _ Hwf He) as (_ & _ & _ & (rs & Hrs & Es & _) & (rt & Hrt & Et & _) & _).
  destruct (wf_edge _ _ _ Hwf He') as (_ & _ & _ & (rs' & Hrs' & Es' & _) & (rt' & Hrt' & Et' & _) & _).
  repeat split; intros Heq; rewrite Heq in *; congruence.
Qed.

Lemma hidden_graph_lookup g e re v :
  nodeMem (hidden_graph g e re) !! v = hide_node re v <$> nodeMem g !! v.
Proof. unfold hidden_graph. cbn. rewrite map_lookup_imap. by destruct (nodeMem g !! v). Qed.

Lemma restored_graph_lookup g e re v :
  nodeMem (restored_graph g e re) !! v = restore_node re v <$> nodeMem g !! v.
Proof. unfold restored_graph. cbn. rewrite map_lookup_imap. by destruct (nodeMem g !! v). Qed.

Lemma hidden_graph_wf g e re :
  wf g → e ∈ edges g → edgeMem g !! e = Some re → wf (hidden_graph g e re).
Proof.
  intros Hwf Hin He.
  destruct (wf_NoDup_edges _ Hwf) as (HndE & HndH & Hdisj).
  pose proof Hwf as (Hnd & HndEH & Hln & Hle & Hn & Hed & Ha).
  assert (Hperm : filter (λ x, x ≠ e) (edges g) ++ m_hiddenEdges g ++ [e]
                  ≡ₚ edges g ++ m_hiddenEdges g).
  { rewrite <- (filter_ne_perm e (edges g)) at 2 by done.
    rewrite <- !app_assoc. apply Permutation_app_head. apply Permutation_app_comm. }
  split; [done|]. split; [cbn; by rewrite Hperm|].
  split.
  { cbn -[hidden_graph]. apply Forall_forall. intros v Hv.
    rewrite hidden_graph_lookup. apply fmap_is_Some. by apply wf_nodes_live. }
  split.
  { cbn. rewrite Hperm. done. }
  split.
  { intros v r' Hr'. rewrite hidden_graph_lookup in Hr'.
    apply fmap_Some in Hr' as (r & Hr & ->).
    destruct (wf_node _ _ _ Hwf Hr) as (Hb & Hvn & Hnd' & Hall).
    split; [done|]. split; [done|]. split; [by apply NoDup_filter|].
    apply Forall_forall. intros a Ha'. apply list_elem_of_filter in Ha' as [[Ha1 Ha2] Ha3].
    destruct (wf_rotation_entry _ _ _ _ Hwf Hr Ha3)
      as (ra & rea & rtw & Hra & Hnode & Hedge & Hrea & _ & _ & _ & Hside).
    exists ra. split; [done|]. split; [done|].
    cbn. apply list_elem_of_filter. split; [|done].
    intros Heq. rewrite Heq, He in Hrea. assert (rea = re) by congruence. subst rea.
    destruct Hside as [(Hs & _)|(Ht & _)]; congruence. }
  split.
  { intros e' re' He'. cbn in He'.
    destruct (Hed e' re' He') as (Hb & Hmem & Hne' & Hs & Ht & (rn1 & Hrn1 & Hin1) & (rn2 & Hrn2 & Hin2)).
    split; [done|]. split; [cbn; by rewrite Hperm|]. split; [done|].
    split; [done|]. split; [done|].
    split.
    - exists (hide_node re (m_src re') rn1). split; [by rewrite hidden_graph_lookup, Hrn1|].
      cbn. intros Hf. apply list_elem_of_filter in Hf as [Hnee Hf].
      apply list_elem_of_filter. split; [|by apply Hin1].
      destruct (wf_adj_distinct g e e' re re' Hwf He He') as (? & ? & _); [done|]. done.
    - exists (hide_node re (m_tgt re') rn2). split; [by rewrite hidden_graph_lookup, Hrn2|].
      cbn. intros Hf. apply list_elem_of_filter in Hf as [Hnee Hf].
      apply list_elem_of_filter. split; [|by apply Hin2].
      destruct (wf_adj_distinct g e e' re re' Hwf He He') as (_ & _ & ? & ?); [done|]. done. }
  exact Ha.
Qed.

(** The half-edges of a hidden edge are in no rotation. *)
Lemma wf_hidden_not_in_rotation g e re v r :
  wf g → e ∈ m_hiddenEdges g → edgeMem g !! e = Some re → nodeMem g !! v = Some r →
  (m_adjSrc re ∉ adjEdges r) ∧ (m_adjTgt re ∉ adjEdges r).
Proof.
  intros Hwf Hh He Hv. destruct (wf_NoDup_edges _ Hwf) as (_ & _ & Hdisj).
  split; intros Hc; eapply Hdisj; try exact Hh; eapply wf_rotation_edge; eauto.
Qed.

Lemma restore_node_other re v r :
  v ≠ m_src re → v ≠ m_tgt re → restore_node re v r = r.
Proof.
  intros Hs Ht. unfold restore_node, ends_at.
  rewrite !is_end_other, !Z.add_0_r, !decide_False, !app_nil_r by done. apply node_eta.
Qed.

Lemma runs_restoreEdge g h e re :
  wf g → e ∈ m_hiddenEdges g → edgeMem g !! e = Some re →
  runs (restoreEdge e) (mkWorld g h) (λ _ w', w' = mkWorld (restored_graph g e re) h).
Proof.
  intros Hwf Hin He.
  destruct (wf_edge _ _ _ Hwf He) as (_ & _ & _ & _ & _ & (rs & Hrs & _) & (rt & Hrt & _)).
  destruct (wf_NoDup_edges _ Hwf) as (_ & HndH & _).
  unfold restoreEdge. mgo.
  destruct (decide (m_src re = m_tgt re)) as [Heq|Hneq].
  - rewrite <- Heq in *. rewrite Hrs in Hrt. injection Hrt as <-. mgo.
    eapply runs_lift; [mred; by apply unlink_filter|]. mgo.
    unfold restored_graph, pushBack. mred. do 2 f_equal.
    apply map_eq. intros v. rewrite map_lookup_imap.
    destruct (decide (v = m_src re)) as [->|Hv].
    + rewrite lookup_insert_eq, Hrs. cbn. unfold restore_node, ends_at.
      rewrite <- Heq, !is_end_same, !decide_True, <- app_assoc by done. done.
    + rewrite !lookup_insert_ne by done.
      destruct (nodeMem g !! v) as [r|] eqn:Hr; [|done]. cbn.
      by rewrite restore_node_other by congruence.
  - mgo.
    eapply runs_lift; [mred; by apply unlink_filter|]. mgo.
    unfold restored_graph, pushBack. mred. do 2 f_equal.
    apply map_eq. intros v. rewrite map_lookup_imap.
    destruct (decide (v = m_tgt re)) as [->|Hv].
    + rewrite lookup_insert_eq, Hrt. cbn. unfold restore_node, ends_at.
      rewrite is_end_same, is_end_other, Z.add_0_r, decide_False, decide_True by done. done.
    + rewrite !(lookup_insert_ne _ (m_tgt re)) by done.
      destruct (decide (v = m_src re)) as [->|Hv'].
      * rewrite lookup_insert_eq, Hrs. cbn. unfold restore_node, ends_at.
        rewrite is_end_same, is_end_other, Z.add_0_r, decide_True, decide_False, app_nil_r by done.
        done.
      * rewrite !lookup_insert_ne by done.
        destruct (nodeMem g !! v) as [r|] eqn:Hr; [|done]. cbn.
        by rewrite restore_node_other by done.
Qed.

Lemma ends_at_elem re v a : a ∈ ends_at re v →
  (a = m_adjSrc re ∧ v = m_src re) ∨ (a = m_adjTgt re ∧ v = m_tgt re).
Proof.
  unfold ends_at. intros Ha. apply elem_of_app in Ha as [Ha|Ha].
  - destruct (decide (v = m_src re)); [|by apply elem_of_nil in Ha].
    apply list_elem_of_singleton in Ha. auto.
  - destruct (decide (v = m_tgt re)); [|by apply elem_of_nil in Ha].
    apply list_elem_of_singleton in Ha. auto.
Qed.

Lemma ends_at_NoDup re v : m_adjSrc re ≠ m_adjTgt re → NoDup (ends_at re v).
Proof.
  intros Hne. unfold ends_at.
  destruct (decide (v = m_src re)), (decide (v = m_tgt re)); cbn;
    repeat constructor; set_solver.
Qed.

Lemma restored_graph_wf g e re :
  wf g → e ∈ m_hiddenEdges g → edgeMem g !! e = Some re → wf (restored_graph g e re).
Proof.
  intros Hwf Hin He.
  destruct (wf_NoDup_edges _ Hwf) as (HndE & HndH & Hdisj).
  pose proof Hwf as (Hnd & HndEH & Hln & Hle & Hn & Hed & Ha).
  assert (Hperm : (edges g ++ [e]) ++ filter (λ x, x ≠ e) (m_hiddenEdges g)
                  ≡ₚ edges g ++ m_hiddenEdges g).
  { rewrite <- (filter_ne_perm e (m_hiddenEdges g)) at 2 by done.
    rewrite <- !app_assoc. apply Permutation_app_head. apply Permutation_app_comm. }
  destruct (wf_edge _ _ _ Hwf He)
    as (_ & _ & Hne & (ras & Hras & Es1 & Es2 & Es3) & (rat & Hrat & Et1 & Et2 & Et3) & _).
  split; [done|]. split; [cbn; by rewrite Hperm|].
  split.
  { cbn -[restored_graph]. apply Forall_forall. intros v Hv.
    rewrite restored_graph_lookup. apply fmap_is_Some. by apply wf_nodes_live. }
  split.
  { cbn. rewrite Hperm. done. }
  split.
  { intros v r' Hr'. rewrite restored_graph_lookup in Hr'.
    apply fmap_Some in Hr' as (r & Hr & ->).
    destruct (wf_node _ _ _ Hwf Hr) as (Hb & Hvn & Hnd' & Hall).
    destruct (wf_hidden_not_in_rotation _ _ _ _ _ Hwf Hin He Hr) as [Hns Hnt].
    split; [done|]. split; [done|]. split.
    { cbn. apply NoDup_app. split; [done|]. split; [|by apply ends_at_NoDup].
      intros a Ha1 Ha2. apply ends_at_elem in Ha2 as [[-> _]|[-> _]]; done. }
    cbn. apply Forall_app. split.
    - eapply Forall_impl; [exact Hall|]. intros a (ra & Hra & Hnode & Hedge).
      exists ra. split; [done|]. split; [done|]. set_solver.
    - apply Forall_forall. intros a Ha'. apply ends_at_elem in Ha' as [[-> ->]|[-> ->]].
      + exists ras. split; [done|]. split; [done|]. rewrite Es1. set_solver.
      + exists rat. split; [done|]. split; [done|]. rewrite Et1. set_solver. }
  split.
  { intros e' re' He'. cbn in He'.
    destruct (Hed e' re' He') as (Hb & Hmem & Hne' & Hs & Ht & (rn1 & Hrn1 & Hin1) & (rn2 & Hrn2 & Hin2)).
    split; [done|]. split; [cbn; by rewrite Hperm|]. split; [done|].
    split; [done|]. split; [done|].
    split.
    - exists (restore_node re (m_src re') rn1).
      split; [by rewrite restored_graph_lookup, Hrn1|].
      cbn. intros Hf. apply elem_of_app in Hf as [Hf|Hf].
      + apply elem_of_app. left. by apply Hin1.
      + apply list_elem_of_singleton in Hf as ->. rewrite He in He'. injection He' as <-.
        apply elem_of_app. right. unfold ends_at.
        destruct (decide (m_src re = m_src re)); [|done]. set_solver.
    - exists (restore_node re (m_tgt re') rn2).
      split; [by rewrite restored_graph_lookup, Hrn2|].
      cbn. intros Hf. apply elem_of_app in Hf as [Hf|Hf].
      + apply elem_of_app. left. by apply Hin2.
      + apply list_elem_of_singleton in Hf as ->. rewrite He in He'. injection He' as <-.
        apply elem_of_app. right. unfold ends_at.
        destruct (decide (m_tgt re = m_tgt re)); [|done]. set_solver. }
  exact Ha.
Qed.

(** ** Hidden edges as a whole

    A hidden edge keeps its record and its two adjacency entries; only the
    rotations and the degree counters of its ends forget it.  The following
    quantities count the hidden edges back in, and are therefore the same
    before and after any hide or restore. *)

Definition zsum (f : edge → Z) (l : list edge) : Z := foldr (λ e n, f e + n) 0 l.
Arguments zsum : simpl never.

Definition hidden_ends (g : Graph) (v : node) : list adjEntry :=
  m_hiddenEdges g ≫= λ e, from_option (λ re, ends_at re v) [] (edgeMem g !! e).

Definition hidden_indeg (g : Graph) (v : node) : Z :=
  zsum (λ e, from_option (λ re, is_end v (m_tgt re)) 0 (edgeMem g !! e)) (m_hiddenEdges g).

Definition hidden_outdeg (g : Graph) (v : node) : Z :=
  zsum (λ e, from_option (λ re, is_end v (m_src re)) 0 (edgeMem g !! e)) (m_hiddenEdges g).

(** The graph without its node records, edge list and hidden list. *)
Definition unshown (g : Graph) : Graph :=
  set_nodeMem ∅ (set_edges [] (set_hiddenEdges [] g)).

(** [g] is [g0] up to hiding and restoring: the two differ in the node
    records, the edge list and the hidden list only, and agree on every node
    once the hidden edges are counted back in. *)
Definition same_shown (g0 g : Graph) : Prop :=
  unshown g = unshown g0 ∧
  edges g ++ m_hiddenEdges g ≡ₚ edges g0 ++ m_hiddenEdges g0 ∧
  ∀ v, match nodeMem g0 !! v, nodeMem g !! v with
       | Some r0, Some r =>
           n_id r = n_id r0 ∧
           m_indeg r + hidden_indeg g v = m_indeg r0 + hidden_indeg g0 v ∧
           m_outdeg r + hidden_outdeg g v = m_outdeg r0 + hidden_outdeg g0 v ∧
           adjEdges r ++ hidden_ends g v ≡ₚ adjEdges r0 ++ hidden_ends g0 v
       | None, None => True
       | _, _ => False
       end.

(** [hideEdge] called on each edge of a list in turn. *)
Fixpoint hideEdges (es : list edge) : M unit :=
  match es with
  | [] => ret tt
  | e :: es' => hideEdge e ;;; hideEdges es'
  end.

Lemma zsum_app f l1 l2 : zsum f (l1 ++ l2) = zsum f l1 + zsum f l2.
Proof. unfold zsum. induction l1 as [|x l1 IH]; cbn; lia. Qed.

Lemma zsum_singleton f x : zsum f [x] = f x.
Proof. unfold zsum. cbn. lia. Qed.

Lemma zsum_perm f l1 l2 : l1 ≡ₚ l2 → zsum f l1 = zsum f l2.
Proof.
  unfold zsum. induction 1 as [|x l1 l2 _ IH|x y l|]; cbn; [done| | |congruence].
  - lia.
  - set (n := foldr _ 0 l). lia.
Qed.

Lemma same_shown_refl g : same_shown g g.
Proof.
  split; [done|]. split; [done|]. intros v.
  destruct (nodeMem g !! v); done.
Qed.

Lemma same_shown_mem g0 g : same_shown g0 g → edgeMem g = edgeMem g0 ∧ adjMem g = adjMem g0.
Proof. intros (Hf & _). split; [apply (f_equal edgeMem) in Hf|apply (f_equal adjMem) in Hf]; done. Qed.

Lemma same_shown_trans g0 g1 g2 : same_shown g0 g1 → same_shown g1 g2 → same_shown g0 g2.
Proof.
  intros (Hf1 & Hp1 & Hn1) (Hf2 & Hp2 & Hn2). split; [by etrans|].
  split; [by etrans|]. intros v. specialize (Hn1 v). specialize (Hn2 v).
  destruct (nodeMem g0 !! v), (nodeMem g1 !! v), (nodeMem g2 !! v); try done.
  destruct Hn1 as (? & ? & ? & ?), Hn2 as (? & ? & ? & ?).
  split; [congruence|]. split; [lia|]. split; [lia|]. by etrans.
Qed.

Lemma rotation_hide_perm g e re v r :
  wf g → e ∈ edges g → edgeMem g !! e = Some re → nodeMem g !! v = Some r →
  without_edge re (adjEdges r) ++ ends_at re v ≡ₚ adjEdges r.
Proof.
  intros Hwf Hin He Hr.
  destruct (wf_edge_ends _ _ _ Hwf Hin He)
    as (_ & Hne & rs & rt & Hrs & Hrt & _ & _ & Hs & Ht & _).
  destruct (wf_node _ _ _ Hwf Hr) as (_ & _ & Hnd & _).
  apply NoDup_Permutation.
  - apply NoDup_app. split; [by apply NoDup_filter|]. split; [|by apply ends_at_NoDup].
    intros a Ha Hb. unfold without_edge in Ha. apply list_elem_of_filter in Ha as [[? ?] _].
    apply ends_at_elem in Hb as [[-> _]|[-> _]]; done.
  - done.
  - intros a. rewrite elem_of_app. split.
    + intros [Ha|Ha].
      * unfold without_edge in Ha. by apply list_elem_of_filter in Ha as [_ ?].
      * apply ends_at_elem in Ha as [[-> ->]|[-> ->]]; congruence.
    + intros Ha. destruct (decide (a = m_adjSrc re)) as [->|H1].
      { right. rewrite (wf_adjSrc_at _ _ _ _ _ Hwf He Hr Ha). unfold ends_at.
        destruct (decide (m_src re = m_src re)); [|done]. set_solver. }
      destruct (decide (a = m_adjTgt re)) as [->|H2].
      { right. rewrite (wf_adjTgt_at _ _ _ _ _ Hwf He Hr Ha). unfold ends_at.
        destruct (decide (m_tgt re = m_tgt re)); [|done]. set_solver. }
      left. unfold without_edge. apply list_elem_of_filter. done.
Qed.

Lemma same_shown_hide g e re :
  wf g → e ∈ edges g → edgeMem g !! e = Some re → same_shown g (hidden_graph g e re).
Proof.
  intros Hwf Hin He. destruct (wf_NoDup_edges _ Hwf) as (HndE & _ & _).
  split; [done|]. split.
  { cbn. etrans; [|apply Permutation_app_tail, (filter_ne_perm e (edges g)); done].
    rewrite <- !app_assoc. apply Permutation_app_head, Permutation_app_comm. }
  intros v. rewrite hidden_graph_lookup.
  destruct (nodeMem g !! v) as [r|] eqn:Hr; [|done]. cbn.
  unfold hidden_indeg, hidden_outdeg, hidden_ends. cbn.
  rewrite !zsum_app, !zsum_singleton, bind_app. cbn. rewrite He. cbn. rewrite app_nil_r.
  split; [done|]. split; [lia|]. split; [lia|].
  etrans; [|apply Permutation_app_tail, (rotation_hide_perm g e re v r); done].
  rewrite <- !app_assoc. apply Permutation_app_head, Permutation_app_comm.
Qed.

Lemma same_shown_restore g e re :
  wf g → e ∈ m_hiddenEdges g → edgeMem g !! e = Some re → same_shown g (restored_graph g e re).
Proof.
  intros Hwf Hin He. destruct (wf_NoDup_edges _ Hwf) as (_ & HndH & _).
  pose proof (filter_ne_perm e (m_hiddenEdges g) HndH Hin) as Hp.
  split; [done|]. split.
  { cbn. etrans; [|apply Permutation_app_head, Hp].
    rewrite <- !app_assoc. apply Permutation_app_head, Permutation_app_comm. }
  intros v. rewrite restored_graph_lookup.
  destruct (nodeMem g !! v) as [r|] eqn:Hr; [|done]. cbn.
  unfold hidden_indeg, hidden_outdeg, hidden_ends. cbn.
  rewrite <- !(zsum_perm _ _ _ Hp), !zsum_app, !zsum_singleton. cbn. rewrite He. cbn.
  split; [done|]. split; [lia|]. split; [lia|].
  etrans; [|apply Permutation_app_head, (bind_Permutation _ _ _ Hp)].
  rewrite bind_app. cbn. rewrite He. cbn. rewrite app_nil_r.
  rewrite <- !app_assoc. apply Permutation_app_head, Permutation_app_comm.
Qed.

Lemma last_cons_default (y p : nat) (r : list nat) : List.last (y :: r) p = List.last r y.
Proof.
  revert y p. induction r as [|z r IH]; intros y p; [done|].
  change (List.last (z :: r) p = List.last (z :: r) y). by rewrite (IH z p), (IH z y).
Qed.

Lemma list_pred_last x l :
  (x ∉ l) → list_pred x (l ++ [x]) = Some (list_tail l).
Proof.
  unfold list_pred, list_tail. generalize nullptr.
  induction l as [|y r IH]; intros p Hx; cbn.
  - by rewrite Nat.eqb_refl.
  - apply not_elem_of_cons in Hx as [Hxy Hx].
    destruct (Nat.eqb_spec y x) as [->|Hne]; [done|].
    rewrite IH by done. f_equal. symmetry. apply last_cons_default.
Qed.

Lemma list_tail_snoc x l : list_tail (l ++ [x]) = x.
Proof. unfold list_tail. apply last_last. Qed.

Lemma runs_restoreAllEdges_loop l : ∀ g h fuel,
  wf g → m_hiddenEdges g = l → (length l ≤ fuel)%nat →
  runs (restoreAllEdges_loop fuel (list_tail l)) (mkWorld g h)
    (λ _ w', heard w' = h ∧ wf (graph w') ∧ same_shown g (graph w') ∧
             m_hiddenEdges (graph w') = [] ∧ edges (graph w') = edges g ++ rev l).
Proof.
  induction l as [|e l IH] using rev_ind; intros g h fuel Hwf Hl Hfuel.
  - destruct fuel; cbn; apply runs_ret; cbn; rewrite app_nil_r;
      (split; [done|]; split; [done|]; split; [apply same_shown_refl|]; split; done).
  - rewrite list_tail_snoc.
    assert (Hin : e ∈ m_hiddenEdges g) by (rewrite Hl; set_solver).
    destruct (wf_edges_live g e Hwf) as [re He]; [set_solver|].
    destruct (wf_edge _ _ _ Hwf He) as (Hpos & _).
    destruct (wf_NoDup_edges _ Hwf) as (_ & HndH & _).
    rewrite Hl in HndH. apply NoDup_app in HndH as (HndL & Hdis & _).
    assert (Hel : e ∉ l) by (intros Hc; apply (Hdis e Hc); set_solver).
    rewrite length_app in Hfuel. cbn in Hfuel.
    destruct fuel as [|fuel]; [lia|]. cbn [restoreAllEdges_loop].
    destruct (Nat.eqb_spec e nullptr) as [->|_]; [unfold nullptr in *; lia|].
    apply runs_bind. eapply runs_lift; [cbn; rewrite Hl; by apply list_pred_last|].
    apply runs_bind. eapply runs_mono; [by apply runs_restoreEdge|].
    intros _ w' ->.
    assert (Hl' : m_hiddenEdges (restored_graph g e re) = l).
    { cbn. rewrite Hl, filter_app, filter_all.
      - rewrite filter_cons, decide_False by (intros Hc; by apply Hc). cbn. apply app_nil_r.
      - intros x Hx ->. done. }
    eapply runs_mono; [apply IH; [by apply restored_graph_wf|done|lia]|].
    cbn. intros _ w2 (Hh & Hwf2 & Hss & Hnil & Hedges).
    split; [done|]. split; [done|]. split.
    { apply (same_shown_trans g (restored_graph g e re)); [by apply same_shown_restore|done]. }
    split; [done|]. by rewrite Hedges, rev_app_distr, <- app_assoc.
Qed.

Lemma runs_restoreAllEdges g h :
  wf g →
  runs restoreAllEdges (mkWorld g h)
    (λ _ w', heard w' = h ∧ wf (graph w') ∧ same_shown g (graph w') ∧
             m_hiddenEdges (graph w') = [] ∧
             edges (graph w') = edges g ++ rev (m_hiddenEdges g)).
Proof.
  intros Hwf. unfold restoreAllEdges. apply runs_bind, runs_gets. cbn.
  by apply runs_restoreAllEdges_loop.
Qed.

Lemma runs_hideEdges es : ∀ g h,
  wf g → NoDup es → (∀ e, e ∈ es → e ∈ edges g) →
  runs (hideEdges es) (mkWorld g h)
    (λ _ w', heard w' = h ∧ wf (graph w') ∧ same_shown g (graph w') ∧
             m_hiddenEdges (graph w') = m_hiddenEdges g ++ es ∧
             edges (graph w') = filter (λ x, x ∉ es) (edges g)).
Proof.
  induction es as [|e es IH]; intros g h Hwf Hnd Hsub.
  - cbn. apply runs_ret. cbn. rewrite app_nil_r.
    split; [done|]. split; [done|]. split; [apply same_shown_refl|]. split; [done|].
    symmetry. apply filter_all. intros x _. set_solver.
  - apply NoDup_cons in Hnd as [Hne Hnd].
    destruct (wf_edges_live g e Hwf) as [re He]; [set_solver|].
    cbn [hideEdges]. apply runs_bind.
    eapply runs_mono; [apply (runs_hideEdge g h e re); [done|set_solver|done]|].
    intros _ w' ->.
    eapply runs_mono; [apply IH; [apply hidden_graph_wf; [done|set_solver|done]|done|]|].
    { intros x Hx. cbn. apply list_elem_of_filter. split; [set_solver|]. apply Hsub. set_solver. }
    cbn. intros _ w2 (Hh & Hwf2 & Hss & Hhid & Hedges).
    split; [done|]. split; [done|]. split.
    { apply (same_shown_trans g (hidden_graph g e re));
        [apply same_shown_hide; [done|apply Hsub; constructor|done]|done]. }
    split; [by rewrite Hhid, <- app_assoc|].
    rewrite Hedges, list_filter_filter. apply filter_ext_elem. intros x _. set_solver.
Qed.

(** What [hideEdge e] followed by [restoreEdge e] makes of the graph [g]:
    [g'] has the edge records, adjacency entries, hidden list and node list
    of [g]; [e] has moved to the tail of the edge list; every node has its
    id and degree counters, and its rotation without the two half-edges of
    [e], followed by those of them that belong to the node. *)
Definition hide_restore_effect (g : Graph) (e : edge) (re : EdgeElement) (g' : Graph) : Prop :=
  edgeMem g' = edgeMem g ∧ adjMem g' = adjMem g ∧
  edges g' = filter (λ x, x ≠ e) (edges g) ++ [e] ∧
  m_hiddenEdges g' = m_hiddenEdges g ∧
  nodes g' = nodes g ∧
  ∀ v, match nodeMem g !! v, nodeMem g' !! v with
       | Some r, Some r' =>
           n_id r' = n_id r ∧ m_indeg r' = m_indeg r ∧ m_outdeg r' = m_outdeg r ∧
           adjEdges r' = without_edge re (adjEdges r) ++ ends_at re v
       | None, None => True
       | _, _ => False
       end.

(** What hiding the edges [es] and then [restoreAllEdges] makes of a graph
    [g] without hidden edges: [g'] has the edge records, adjacency entries
    and node list of [g] and no hidden edge; the edges [es] have moved to the
    tail of the edge list, in reverse order; every node has its id and degree
    counters, and its rotation up to order. *)
Definition hide_restoreAll_effect (g : Graph) (es : list edge) (g' : Graph) : Prop :=
  edgeMem g' = edgeMem g ∧ adjMem g' = adjMem g ∧
  edges g' = filter (λ x, x ∉ es) (edges g) ++ rev es ∧
  m_hiddenEdges g' = [] ∧
  nodes g' = nodes g ∧
  ∀ v, match nodeMem g !! v, nodeMem g' !! v with
       | Some r, Some r' =>
           n_id r' = n_id r ∧ m_indeg r' = m_indeg r ∧ m_outdeg r' = m_outdeg r ∧
           adjEdges r' ≡ₚ adjEdges r
       | None, None => True
       | _, _ => False
       end.

(** C6. In a well-formed graph, [hideEdge e] followed by [restoreEdge e]
    succeeds for every shown edge [e]; it changes no edge record and no
    adjacency entry (so the id of [e], the ids of its half-edges and their
    twin links are the same), leaves the hidden list as it was, moves [e] to
    the tail of the edge list, and gives every node its old id and old in-
    and out-degree counters, with a rotation that is the old one without the
    two half-edges of [e] followed by those of them that belong to the node
    (source side first).  Moreover, when no edge is hidden, hiding any list
    of distinct shown edges and calling [restoreAllEdges] succeeds, leaves no
    edge hidden, changes no edge record and no adjacency entry, yields the
    old edge list up to order, and gives every node its old degree counters
    and its old rotation up to order. *)
Theorem hide_restore_round_trip g h :
  wf g →
  (∀ e re, e ∈ edges g → edgeMem g !! e = Some re →
     runs (hideEdge e ;;; restoreEdge e) (mkWorld g h)
       (λ _ w', heard w' = h ∧ hide_restore_effect g e re (graph w'))) ∧
  (∀ es, m_hiddenEdges g = [] → NoDup es → (∀ e, e ∈ es → e ∈ edges g) →
     runs (hideEdges es ;;; restoreAllEdges) (mkWorld g h)
       (λ _ w', heard w' = h ∧ hide_restoreAll_effect g es (graph w'))).
Proof.
  intros Hwf. split.
  - intros e re Hin He. destruct (wf_NoDup_edges _ Hwf) as (_ & _ & Hdis).
    apply runs_bind. eapply runs_mono; [by apply runs_hideEdge|]. intros _ w' ->.
    eapply runs_mono;
      [apply (runs_restoreEdge _ _ e re); [by apply hidden_graph_wf|cbn; set_solver|done]|].
    intros _ w2 ->. unfold hide_restore_effect. cbn -[restored_graph hidden_graph].
    split; [done|]. split; [done|]. split; [done|]. split; [done|]. split.
    { cbn. rewrite filter_app, filter_all.
      - rewrite filter_cons, decide_False by (intros Hc; by apply Hc). cbn. apply app_nil_r.
      - intros x Hx ->. by apply (Hdis e). }
    split; [done|].
    intros v. rewrite restored_graph_lookup, hidden_graph_lookup.
    destruct (nodeMem g !! v) as [r|]; [|done]. cbn.
    split; [done|]. split; [lia|]. split; [lia|]. done.
  - intros es Hnil Hnd Hsub.
    apply runs_bind. eapply runs_mono; [by apply runs_hideEdges|].
    intros _ [g1 h1] (Hh1 & Hwf1 & Hss1 & Hhid1 & Hed1). cbn in *. subst h1.
    eapply runs_mono; [by apply runs_restoreAllEdges|].
    intros _ [g2 h2] (Hh2 & Hwf2 & Hss2 & Hhid2 & Hed2). cbn in *. subst h2.
    pose proof (same_shown_trans _ _ _ Hss1 Hss2) as Hss.
    destruct (same_shown_mem _ _ Hss) as [Hem Ham].
    destruct Hss as (Hf & _ & Hn).
    split; [done|]. split; [done|]. split; [done|].
    split; [by rewrite Hed2, Hed1, Hhid1, Hnil|]. split; [done|].
    split; [by apply (f_equal nodes) in Hf|].
    intros v. specialize (Hn v).
    destruct (nodeMem g !! v), (nodeMem g2 !! v); try done.
    unfold hidden_indeg, hidden_outdeg, hidden_ends in Hn. rewrite Hnil, Hhid2 in Hn.
    unfold zsum in Hn. cbn in Hn. rewrite !app_nil_r in Hn. destruct Hn as (? & ? & ? & ?).
    split; [done|]. split; [lia|]. split; [lia|]. done.
Qed.

Lemma hide_restore_round_trip_witness :
  (∃ re, edgeMem watched_path !! 6%nat = Some re ∧
     runs (hideEdge 6 ;;; restoreEdge 6) (mkWorld watched_path [])
       (λ _ w', heard w' = [] ∧ hide_restore_effect watched_path 6 re (graph w'))) ∧
  runs (hideEdges [9; 6]%nat ;;; restoreAllEdges) (mkWorld watched_path [])
    (λ _ w', heard w' = [] ∧ hide_restoreAll_effect watched_path [9; 6]%nat (graph w')).
Proof.
  assert (Hwf : wf watched_path) by (apply (bool_decide_unpack _); vm_compute; reflexivity).
  destruct (hide_restore_round_trip watched_path [] Hwf) as [H1 H2]. split.
  - eexists. split; [vm_compute; reflexivity|]. apply H1.
    + apply (bool_decide_unpack _). vm_compute. reflexivity.
    + vm_compute. reflexivity.
  - apply H2.
    + vm_compute. reflexivity.
    + apply (bool_decide_unpack _). vm_compute. reflexivity.
    + apply (Forall_forall (λ e, e ∈ edges watched_path) [9; 6]%nat).
      apply (bool_decide_unpack _). vm_compute. reflexivity.
Defined.

(** ** The destructor *)

Lemma same_shown_registries g0 g :
  same_shown g0 g →
  m_regNodeArrays g = m_regNodeArrays g0 ∧ m_regEdgeArrays g = m_regEdgeArrays g0 ∧
  m_regAdjArrays g = m_regAdjArrays g0 ∧ m_regStructures g = m_regStructures g0.
Proof.
  intros (Hf & _). repeat split;
    [apply (f_equal m_regNodeArrays) in Hf|apply (f_equal m_regEdgeArrays) in Hf|
     apply (f_equal m_regAdjArrays) in Hf|apply (f_equal m_regStructures) in Hf]; done.
Qed.

Lemma disconnect_detached (l : list ArrayBase) :
  Forall (λ a, arr_attached a = false) (map disconnect l).
Proof. apply Forall_map, Forall_true. done. Qed.




(** ** The ids of the two half-edges of an edge *)

(** [i] and [j] are [2k] and [2k+1], in this order, or in either order. *)
Definition ordered (k i j : Z) : Prop := i = 2 * k ∧ j = 2 * k + 1.
Definition paired (k i j : Z) : Prop := ordered k i j ∨ ordered k j i.

(** Every edge record lies below the allocation mark, as do its two
    adjacency entries, which are distinct, shared with no other edge, and
    whose ids (where the entries are live) are related by [rel] to the id
    of the edge. *)
Definition half_ids_inv (rel : Z → Z → Z → Prop) (g : Graph) : Prop :=
  (∀ e re, edgeMem g !! e = Some re →
     (e < brk g)%nat ∧ (m_adjSrc re < brk g)%nat ∧ (m_adjTgt re < brk g)%nat ∧
     m_adjSrc re ≠ m_adjTgt re ∧
     ∀ rs rt, adjMem g !! m_adjSrc re = Some rs → adjMem g !! m_adjTgt re = Some rt →
       rel (e_id re) (a_id rs) (a_id rt)) ∧
  (∀ e e' re re', e ≠ e' → edgeMem g !! e = Some re → edgeMem g !! e' = Some re' →
     m_adjSrc re ≠ m_adjSrc re' ∧ m_adjSrc re ≠ m_adjTgt re' ∧
     m_adjTgt re ≠ m_adjSrc re' ∧ m_adjTgt re ≠ m_adjTgt re').

Definition half_ids_ok : Graph → Prop := half_ids_inv paired.
Definition half_ids_ordered : Graph → Prop := half_ids_inv ordered.

(** [g'] has no edge record and, below the allocation mark of [g], no
    adjacency entry that [g] has not; the edge records have kept their id
    and their two adjacency entries, the adjacency entries their id. *)
Definition ids_frame (g g' : Graph) : Prop :=
  (brk g ≤ brk g')%nat ∧
  (∀ e re', edgeMem g' !! e = Some re' →
     ∃ re, edgeMem g !! e = Some re ∧ m_adjSrc re' = m_adjSrc re ∧
           m_adjTgt re' = m_adjTgt re ∧ e_id re' = e_id re) ∧
  (∀ a ra', (a < brk g)%nat → adjMem g' !! a = Some ra' →
     ∃ ra, adjMem g !! a = Some ra ∧ a_id ra' = a_id ra).

(** Every successful run of [m] takes a graph to an [R]-related one. *)
Definition relates {A} (R : Graph → Graph → Prop) (m : M A) : Prop :=
  ∀ w a w', m w = Some (a, w') → R (graph w) (graph w').

Lemma lor_shiftl_1 k : Z.lor (Z.shiftl k 1) 1 = 2 * k + 1.
Proof.
  rewrite Z.shiftl_mul_pow2 by lia. change (2 ^ 1) with 2.
  assert (H : Z.land (k * 2) 1 = 0).
  { change 1 with (Z.ones 1) at 1. rewrite Z.land_ones by lia. change (2 ^ 1) with 2.
    apply Z.mod_mul. lia. }
  rewrite <- (Z.lxor_lor _ _ H), <- (Z.add_nocarry_lxor _ _ H). lia.
Qed.

Lemma shiftl_1 k : Z.shiftl k 1 = 2 * k.
Proof. rewrite Z.shiftl_mul_pow2 by lia. change (2 ^ 1) with 2. lia. Qed.

Lemma ordered_paired k i j : ordered k i j → paired k i j.
Proof. by left. Qed.

Lemma paired_sym k i j : paired k i j → paired k j i.
Proof. unfold paired. tauto. Qed.

Lemma ids_frame_refl g : ids_frame g g.
Proof. split; [done|]. split; eauto. Qed.

Lemma ids_frame_trans g1 g2 g3 : ids_frame g1 g2 → ids_frame g2 g3 → ids_frame g1 g3.
Proof.
  intros (Hb1 & He1 & Ha1) (Hb2 & He2 & Ha2). split; [lia|]. split.
  - intros e re3 L3. destruct (He2 _ _ L3) as (re2 & L2 & ? & ? & ?).
    destruct (He1 _ _ L2) as (re1 & L1 & ? & ? & ?). exists re1.
    repeat split; congruence.
  - intros a ra3 Hlt L3. destruct (Ha2 a ra3) as (ra2 & L2 & ?); [lia|done|].
    destruct (Ha1 a ra2) as (ra1 & L1 & ?); [lia|done|]. exists ra1. split; congruence.
Qed.

Lemma ids_frame_same g g' :
  brk g' = brk g → edgeMem g' = edgeMem g → adjMem g' = adjMem g → ids_frame g g'.
Proof. intros Hb He Ha. unfold ids_frame. rewrite Hb, He, Ha. apply ids_frame_refl. Qed.

Lemma ids_frame_alloc g : ids_frame g (set_brk (S (brk g)) g).
Proof. split; [cbn; lia|]. split; eauto. Qed.

Lemma ids_frame_del_adj g a : ids_frame g (set_adjMem (delete a (adjMem g)) g).
Proof.
  split; [done|]. split; [eauto|]. cbn. intros b rb _ H.
  apply lookup_delete_Some in H as [_ H]. eauto.
Qed.

Lemma foldr_delete_Some (m : gmap nat AdjElement) l a r :
  foldr delete m l !! a = Some r → m !! a = Some r.
Proof.
  induction l as [|x l IH]; [done|]. cbn. intros H.
  apply lookup_delete_Some in H as [_ H]. auto.
Qed.

Lemma ids_frame_del_adjs g l : ids_frame g (set_adjMem (foldr delete (adjMem g) l) g).
Proof.
  split; [done|]. split; [eauto|]. cbn. intros b rb _ H.
  apply foldr_delete_Some in H. eauto.
Qed.

Lemma ids_frame_del_edge g e : ids_frame g (set_edgeMem (delete e (edgeMem g)) g).
Proof.
  split; [done|]. split; [|eauto]. cbn. intros b rb H.
  apply lookup_delete_Some in H as [_ H]. eauto.
Qed.

(** The invariant looks at nothing else. *)
Lemma half_ids_inv_frame rel g g' : ids_frame g g' → half_ids_inv rel g → half_ids_inv rel g'.
Proof.
  intros (Hb & He & Ha) (H1 & H2). split.
  - intros e re' Hl. destruct (He _ _ Hl) as (re & Hre & Es & Et & Ei).
    destruct (H1 _ _ Hre) as (? & ? & ? & ? & Hrel). rewrite Es, Et, Ei.
    split; [lia|]. split; [lia|]. split; [lia|]. split; [done|].
    intros rs' rt' Hs Ht.
    destruct (Ha (m_adjSrc re) rs') as (rs & ? & ->); [lia|done|].
    destruct (Ha (m_adjTgt re) rt') as (rt & ? & ->); [lia|done|]. auto.
  - intros e e' re1 re1' Hne Hl Hl'.
    destruct (He _ _ Hl) as (re & Hre & Es & Et & _).
    destruct (He _ _ Hl') as (re' & Hre' & Es' & Et' & _).
    rewrite Es, Et, Es', Et'. eauto.
Qed.

Lemma relates_bind {A B} R (m : M A) (k : A → M B) :
  (∀ g1 g2 g3, R g1 g2 → R g2 g3 → R g1 g3) →
  relates R m → (∀ a, relates R (k a)) → relates R (bind m k).
Proof.
  intros Htrans Hm Hk w b w2 H.
  destruct (proj1 (bind_inv _ _ _ _ _) H) as (a & w1 & H1 & H2).
  eapply Htrans; [by eapply Hm|by eapply Hk].
Qed.

Section frame_rules.
Variable R : Graph → Graph → Prop.
Hypothesis R_refl : ∀ g, R g g.

Lemma relates_ret {A} (a : A) : relates R (ret a).
Proof. by intros w b w' [= _ <-]. Qed.
Lemma relates_fail {A} : relates R (@fail A).
Proof. by intros w b w' [=]. Qed.
Lemma relates_gets {A} (f : Graph → A) : relates R (gets f).
Proof. by intros w b w' [= _ <-]. Qed.
Lemma relates_lift {A} (f : Graph → option A) : relates R (lift f).
Proof. intros w b w' H. by destruct (proj1 (lift_inv _ _ _ _) H) as [_ ->]. Qed.
Lemma relates_assert b : relates R (OGDF_ASSERT b).
Proof. intros w u w' H. by destruct (proj1 (assert_inv _ _ _ _) H) as [_ ->]. Qed.
Lemma relates_notify ev : relates R (notify ev).
Proof. by intros w u w' [= _ <-]. Qed.
Lemma relates_modify (f : Graph → Graph) : (∀ g, R g (f g)) → relates R (modify f).
Proof. intros Hf w u w' [= _ <-]. apply Hf. Qed.
Lemma relates_if {A} (b : bool) (m1 m2 : M A) :
  relates R m1 → relates R m2 → relates R (if b then m1 else m2).
Proof. by destruct b. Qed.
End frame_rules.

Lemma relates_preserves {A} R I (m : M A) :
  (∀ g g', R g g' → I g → I g') → relates R m → preserves I m.
Proof. intros HR Hm w a w' HI H. eapply HR; [by eapply Hm|done]. Qed.

Lemma relates_upd_adj a f :
  (∀ r, a_id (f r) = a_id r) → relates ids_frame (upd_adj a f).
Proof.
  intros Hf [g h] u w' H. unfold upd_adj in H. minv H. subst w'. mred.
  split; [done|]. split; [eauto|]. mred. intros b rb _ Hb.
  apply lookup_insert_Some in Hb as [[<- <-]|[_ Hb]]; eauto.
Qed.

Lemma relates_upd_edge e f :
  (∀ r, m_adjSrc (f r) = m_adjSrc r ∧ m_adjTgt (f r) = m_adjTgt r ∧ e_id (f r) = e_id r) →
  relates ids_frame (upd_edge e f).
Proof.
  intros Hf [g h] u w' H. unfold upd_edge in H. minv H. subst w'. mred.
  split; [done|]. split; [|eauto]. mred. intros b rb Hb.
  apply lookup_insert_Some in Hb as [[<- <-]|[_ Hb]]; eauto.
Qed.

Lemma relates_upd_node v f : relates ids_frame (upd_node v f).
Proof.
  intros [g h] u w' H. unfold upd_node in H. minv H. subst w'. mred.
  by apply ids_frame_same.
Qed.

Lemma relates_new_AdjElement v : relates ids_frame (new_AdjElement v).
Proof.
  intros [g h] p w' H. unfold new_AdjElement in H. minv H. subst w'. mred.
  split; [mred; lia|]. split; [eauto|]. mred. intros b rb Hlt Hb.
  rewrite lookup_insert_ne in Hb by lia. eauto.
Qed.

Lemma relates_new_NodeElement id : relates ids_frame (new_NodeElement id).
Proof.
  intros [g h] p w' H. unfold new_NodeElement in H. minv H. subst w'. mred.
  split; [mred; lia|]. split; eauto.
Qed.

Ltac frames :=
  repeat first
    [ match goal with H : context [relates] |- relates _ _ => apply H end
    | (apply relates_upd_adj; intros ?; reflexivity)
    | (apply relates_upd_edge; intros ?; repeat split; reflexivity)
    | apply relates_upd_node
    | apply relates_new_AdjElement
    | apply relates_new_NodeElement
    | (apply relates_ret; apply ids_frame_refl)
    | (apply relates_gets; apply ids_frame_refl)
    | (apply relates_lift; apply ids_frame_refl)
    | (apply relates_assert; apply ids_frame_refl)
    | (apply relates_notify; apply ids_frame_refl)
    | apply relates_fail
    | (apply relates_modify; intros ?;
       first [ apply ids_frame_same; reflexivity
             | apply ids_frame_del_adj | apply ids_frame_del_adjs
             | apply ids_frame_del_edge ])
    | (apply relates_bind; [apply ids_frame_trans| |intros ?])
    | apply relates_if
    | progress unfold adjEdges_pushBack, adjEdges_delPure, adjEdges_del, adjEdges_insert,
        adjEdges_move, adjEdges_move_at, node_graphOf, edge_graphOf, adj_graphOf,
        edges_del, nodes_del, enlargeNodeArrays, enlargeEdgeArrays, resetAdjEntryIndex ].

(** *** Operations that leave the ids alone *)

Lemma moveTarget_ids e v : relates ids_frame (moveTarget e v).
Proof. unfold moveTarget. frames. Qed.
Lemma moveSource_ids e v : relates ids_frame (moveSource e v).
Proof. unfold moveSource. frames. Qed.
Lemma moveTarget_at_ids e a d : relates ids_frame (moveTarget_at e a d).
Proof. unfold moveTarget_at. frames. Qed.
Lemma moveSource_at_ids e a d : relates ids_frame (moveSource_at e a d).
Proof. unfold moveSource_at. frames. Qed.
Lemma delEdge_ids e : relates ids_frame (delEdge e).
Proof. unfold delEdge. frames. Qed.
Lemma delNode_loop_ids fuel v : relates ids_frame (delNode_loop fuel v).
Proof.
  pose proof delEdge_ids.
  induction fuel as [|fuel IH]; cbn [delNode_loop].
  - apply relates_bind; [apply ids_frame_trans|frames|]. intros [|? ?]; frames.
  - apply relates_bind; [apply ids_frame_trans|frames|]. intros [|? ?]; frames.
Qed.
Lemma delNode_ids v : relates ids_frame (delNode v).
Proof. unfold delNode. pose proof delNode_loop_ids. frames. Qed.
Lemma hideEdge_ids e : relates ids_frame (hideEdge e).
Proof. unfold hideEdge. frames. Qed.
Lemma restoreEdge_ids e : relates ids_frame (restoreEdge e).
Proof. unfold restoreEdge. frames. Qed.
Lemma restoreAllEdges_loop_ids fuel e : relates ids_frame (restoreAllEdges_loop fuel e).
Proof.
  pose proof restoreEdge_ids.
  revert e. induction fuel as [|fuel IH]; intros e; cbn [restoreAllEdges_loop];
    destruct (Nat.eqb e nullptr); frames.
Qed.
Lemma restoreAllEdges_ids : relates ids_frame restoreAllEdges.
Proof. unfold restoreAllEdges. pose proof restoreAllEdges_loop_ids. frames. Qed.
Lemma contract_loop_ids fuel v w adjSrc adjTgt adj :
  relates ids_frame (contract_loop fuel v w adjSrc adjTgt adj).
Proof.
  pose proof moveSource_at_ids. pose proof moveTarget_at_ids.
  revert adj. induction fuel as [|fuel IH]; intros adj; cbn [contract_loop];
    destruct (Nat.eqb adj adjTgt); frames.
Qed.
Lemma contract_ids e : relates ids_frame (contract e).
Proof. unfold contract. pose proof contract_loop_ids. pose proof delNode_ids. frames. Qed.
Lemma newNode_ids : relates ids_frame newNode.
Proof. unfold newNode. frames. Qed.
Lemma newNode_index_ids index : relates ids_frame (newNode_index index).
Proof. unfold newNode_index. frames. Qed.

(** *** Creating an edge *)

(** What the growth of a table leaves alone. *)
Definition core (g : Graph) :=
  (nodeMem g, edgeMem g, adjMem g, brk g, nodes g, edges g, m_hiddenEdges g,
   m_regStructures g).

Definition same_core (g g' : Graph) : Prop := core g' = core g.

Lemma same_core_refl g : same_core g g.
Proof. done. Qed.

Lemma same_core_trans g1 g2 g3 : same_core g1 g2 → same_core g2 g3 → same_core g1 g3.
Proof. unfold same_core. congruence. Qed.

Ltac cores :=
  repeat first
    [ (apply relates_ret; apply same_core_refl)
    | (apply relates_gets; apply same_core_refl)
    | (apply relates_lift; apply same_core_refl)
    | (apply relates_modify; intros ?; reflexivity)
    | (apply relates_bind; [apply same_core_trans| |intros ?])
    | apply relates_if
    | progress unfold enlargeNodeArrays, enlargeEdgeArrays ].

Lemma createEdgeElement_inv v w adjSrc adjTgt g h e w' :
  createEdgeElement v w adjSrc adjTgt (mkWorld g h) = Some (e, w') →
  ∃ rs rt, adjMem g !! adjSrc = Some rs ∧
    <[adjSrc := with_id (2 * m_edgeIdCount g) rs]> (adjMem g) !! adjTgt = Some rt ∧
    e = brk g ∧
    brk (graph w') = S (brk g) ∧
    edgeMem (graph w') = <[brk g := mkEdge v w adjSrc adjTgt (m_edgeIdCount g)]> (edgeMem g) ∧
    adjMem (graph w') =
      <[adjTgt := with_id (2 * m_edgeIdCount g + 1) rt]>
        (<[adjSrc := with_id (2 * m_edgeIdCount g) rs]> (adjMem g)) ∧
    nodeMem (graph w') = nodeMem g.
Proof.
  intros H. unfold createEdgeElement in H. minv H.
  apply bind_inv in H as (u & [g1 h1] & Hif & H).
  match type of Hif with ?m _ = _ => assert (Hc : relates same_core m) by cores end.
  apply Hc in Hif. clear Hc. cbn in Hif.
  destruct g1. injection Hif as -> -> -> -> -> -> -> ->.
  minv H. subst w'. mred. rewrite lor_shiftl_1, !shiftl_1 in *.
  exists x, x0. done.
Qed.

(** A new edge on two fresh adjacency entries. *)
Lemma half_ids_new_edge rel g g' v w k p q e :
  half_ids_inv rel g →
  (brk g ≤ p)%nat → (brk g ≤ q)%nat → (brk g ≤ e)%nat → p ≠ q →
  (p < brk g')%nat → (q < brk g')%nat → (e < brk g')%nat →
  edgeMem g' = <[e := mkEdge v w p q k]> (edgeMem g) →
  (∀ a ra', (a < brk g)%nat → adjMem g' !! a = Some ra' →
     ∃ ra, adjMem g !! a = Some ra ∧ a_id ra' = a_id ra) →
  (∀ rs rt, adjMem g' !! p = Some rs → adjMem g' !! q = Some rt → rel k (a_id rs) (a_id rt)) →
  half_ids_inv rel g'.
Proof.
  intros (H1 & H2) Hp Hq He Hpq Hp' Hq' He' Hem Ham Hnew. split.
  - intros e0 re0 Hl. rewrite Hem in Hl.
    apply lookup_insert_Some in Hl as [[<- <-]|[Hne Hl]].
    + cbn. repeat (split; [done|]). done.
    + destruct (H1 _ _ Hl) as (? & ? & ? & ? & Hrel).
      split; [lia|]. split; [lia|]. split; [lia|]. split; [done|].
      intros rs' rt' Hs Ht.
      destruct (Ham (m_adjSrc re0) rs') as (rs & ? & ->); [lia|done|].
      destruct (Ham (m_adjTgt re0) rt') as (rt & ? & ->); [lia|done|]. auto.
  - intros e1 e2 re1 re2 Hne Hl1 Hl2. rewrite Hem in Hl1, Hl2.
    apply lookup_insert_Some in Hl1 as [[<- <-]|[Hne1 Hl1]];
      apply lookup_insert_Some in Hl2 as [[<- <-]|[Hne2 Hl2]]; try done.
    + destruct (H1 _ _ Hl2) as (? & ? & ? & _). cbn. repeat split; lia.
    + destruct (H1 _ _ Hl1) as (? & ? & ? & _). cbn. repeat split; lia.
    + eauto.
Qed.

Lemma newEdge_ids rel v w :
  (∀ k, rel k (2 * k) (2 * k + 1)) → preserves (half_ids_inv rel) (newEdge v w).
Proof.
  intros Hrel [g h] e w' HI H. mred_in HI. unfold newEdge in H. minv H.
  apply bind_inv in H as (e1 & [g1 h1] & Hc & H).
  apply createEdgeElement_inv in Hc as (rs & rt & Hrs & Hrt & -> & Hb & Hem & Ham & _).
  mred_in Hb. mred_in Hem. mred_in Ham. lk_in Hrs. lk_in Hrt.
  assert (Hs : relates ids_frame
    (upd_adj (S (brk g)) (with_edge (S (S (brk g)))) ;;;
     upd_adj (brk g) (with_edge (S (S (brk g)))) ;;; ret (S (S (brk g))))) by frames.
  apply Hs in H. mred_in H. apply (half_ids_inv_frame _ _ _ H). clear H Hs.
  apply (half_ids_new_edge rel g g1 v w (m_edgeIdCount g) (brk g) (S (brk g)) (S (S (brk g))));
    [done|lia|lia|lia|lia|lia|lia|lia|exact Hem| |].
  - intros a ra' Hlt Hl. rewrite Ham in Hl. rewrite !lookup_insert_ne in Hl by lia. eauto.
  - intros rs' rt' Hs' Ht'. rewrite Ham in Hs', Ht'. lk_in Hs'. lk_in Ht'.
    injection Hs' as <-. injection Ht' as <-. cbn. apply Hrel.
Qed.

Lemma newEdge_index_ids rel v w index :
  (∀ k, rel k (2 * k) (2 * k + 1)) → preserves (half_ids_inv rel) (newEdge_index v w index).
Proof.
  intros Hrel [g h] e w' HI H. mred_in HI. unfold newEdge_index in H. minv H.
  apply bind_inv in H as (u & [g1 h1] & Hif & H).
  match type of Hif with ?m _ = _ => assert (Hc : relates same_core m) by cores end.
  apply Hc in Hif. clear Hc. cbn in Hif.
  destruct g1. injection Hif as -> -> -> -> -> -> -> ->.
  minv H. subst w'. mred. rewrite lor_shiftl_1, !shiftl_1 in *.
  eapply (half_ids_new_edge rel g _ v w index (brk g) (S (brk g)) (S (S (brk g))));
    [done|lia|lia|lia|lia|mred; lia|mred; lia|mred; lia|mred; reflexivity| |].
  - mred. intros a ra' Hlt Hl. rewrite !lookup_insert_ne in Hl by lia. eauto.
  - mred. intros rs' rt' Hs' Ht'. lk_in Hs'. lk_in Ht'.
    injection Hs' as <-. injection Ht' as <-. cbn. apply Hrel.
Qed.
Lemma reverseEdge_ids rel e :
  (∀ k i j, rel k i j → rel k j i) → preserves (half_ids_inv rel) (reverseEdge e).
Proof.
  intros Hsym [g h] u w' HI H. mred_in HI. unfold reverseEdge in H. minv H. subst w'. mred.
  match goal with E : edgeMem g !! e = Some _ |- _ => rename E into He end.
  destruct HI as (H1 & H2). split; mred.
  - intros e0 re0 Hl. apply lookup_insert_Some in Hl as [[<- <-]|[Hne Hl]]; [|by apply H1].
    destruct (H1 _ _ He) as (? & ? & ? & ? & Hr). cbn.
    repeat (split; [done|]). auto.
  - intros e1 e2 re1 re2 Hne Hl1 Hl2.
    apply lookup_insert_Some in Hl1 as [[<- <-]|[Hne1 Hl1]];
      apply lookup_insert_Some in Hl2 as [[<- <-]|[Hne2 Hl2]]; try done; cbn.
    + destruct (H2 _ _ _ _ Hne He Hl2) as (? & ? & ? & ?). done.
    + destruct (H2 _ _ _ _ Hne Hl1 He) as (? & ? & ? & ?). done.
    + eauto.
Qed.

Lemma unsplit_ids rel eIn eOut : preserves (half_ids_inv rel) (unsplit eIn eOut).
Proof.
  intros [g h] u w' HI H. mred_in HI. unfold unsplit in H. minv H. subst w'. mred.
  match goal with E : edgeMem g !! eIn = Some ?r |- _ => rename E into HeIn; rename r into rIn end.
  match goal with E : edgeMem g !! eOut = Some ?r |- _ => rename E into HeOut; rename r into rOut end.
  match goal with E : adjMem g !! m_adjTgt rIn = Some ?r |- _ => rename E into HaIn; rename r into raIn end.
  match goal with E : adjMem g !! m_adjTgt rOut = Some ?r |- _ => rename E into HaOut; rename r into raOut end.
  assert (Hne : eIn ≠ eOut).
  { intros ->. rewrite HeIn in HeOut. injection HeOut as <-.
    match goal with E : (m_src rIn =? m_tgt rIn)%nat = true |- _ => rename E into Heq end.
    match goal with E : negb (m_src rIn =? m_tgt rIn)%nat = true |- _ => rewrite Heq in E; done end. }
  destruct HI as (H1 & H2).
  destruct (H1 _ _ HeIn) as (? & ? & ? & ? & HrIn).
  destruct (H1 _ _ HeOut) as (? & ? & ? & ? & HrOut).
  destruct (H2 _ _ _ _ Hne HeIn HeOut) as (? & ? & ? & ?).
  match goal with E : <[_ := _]> (adjMem g) !! m_adjSrc rIn = Some ?r |- _ =>
    rename E into Hs; rename r into rs0 end.
  match goal with E : <[_ := _]> (<[_ := _]> (adjMem g)) !! m_adjTgt rOut = Some ?r |- _ =>
    rename E into Ht; rename r into rt0 end.
  lk_in Hs. lk_in Ht. injection Ht as <-.
  split; mred.
  - intros e0 re0 Hl. apply lookup_delete_Some in Hl as [Hne0 Hl].
    apply lookup_insert_Some in Hl as [[<- <-]|[Hne1 Hl]].
    + cbn. repeat (split; [done|]).
      intros rs rt Hrs Hrt. apply foldr_delete_Some in Hrs, Hrt. lk_in Hrs. lk_in Hrt.
      injection Hrs as <-. injection Hrt as <-. cbn. by apply HrIn.
    + rewrite lookup_insert_ne in Hl by done.
      destruct (H1 _ _ Hl) as (? & ? & ? & ? & Hr0).
      destruct (H2 _ _ _ _ Hne1 HeIn Hl) as (? & ? & ? & ?).
      destruct (H2 _ _ _ _ Hne0 HeOut Hl) as (? & ? & ? & ?).
      repeat (split; [done|]).
      intros rs rt Hrs Hrt. apply foldr_delete_Some in Hrs, Hrt. lk_in Hrs. lk_in Hrt. auto.
  - intros e1 e2 re1 re2 Hne12 Hl1 Hl2.
    apply lookup_delete_Some in Hl1 as [Hn1 Hl1]. apply lookup_delete_Some in Hl2 as [Hn2 Hl2].
    apply lookup_insert_Some in Hl1 as [[<- <-]|[Hne1 Hl1]];
      apply lookup_insert_Some in Hl2 as [[<- <-]|[Hne2 Hl2]]; try done; cbn;
      try (rewrite lookup_insert_ne in Hl1 by done);
      try (rewrite lookup_insert_ne in Hl2 by done).
    + destruct (H2 _ _ _ _ Hne12 HeIn Hl2) as (? & ? & ? & ?).
      destruct (H2 _ _ _ _ Hn2 HeOut Hl2) as (? & ? & ? & ?). done.
    + destruct (H2 _ _ _ _ Hne12 Hl1 HeIn) as (? & ? & ? & ?).
      destruct (H2 _ _ _ _ (not_eq_sym Hn1) Hl1 HeOut) as (? & ? & ? & ?). done.
    + eauto.
Qed.

Lemma newNode_inv w v w' :
  newNode w = Some (v, w') → v = brk (graph w) ∧ graph w' = newNode_graph (graph w).
Proof.
  intros H.
  refine (runs_det newNode w (λ a w1, a = brk (graph w) ∧ graph w1 = newNode_graph (graph w))
            v w' _ H).
  apply runs_newNode. done.
Qed.

Lemma split_ids rel e :
  (∀ k, rel k (2 * k) (2 * k + 1)) → preserves (half_ids_inv rel) (split e).
Proof.
  intros Hrel [g h] e2 w' HI H. mred_in HI. unfold split in H. minv H.
  match goal with E : edgeMem g !! e = Some ?r |- _ => rename E into He; rename r into re end.
  destruct HI as (H1 & H2). destruct (H1 _ _ He) as (Hlt & Hs & Ht & Hst & Hr).
  apply bind_inv in H as (u & [g1 h1] & Hn & H).
  apply newNode_inv in Hn as [-> Hg1]. mred_in Hg1. subst g1. unfold newNode_graph in H.
  minv H.
  apply bind_inv in H as (e1 & [g2 h2] & Hc & H).
  apply createEdgeElement_inv in Hc as (rs & rt & Hrs & Hrt & -> & Hb & Hem & Ham & Hnm).
  lk_in Hrs. lk_in Hrt. mred_in Hb. mred_in Hem. mred_in Ham. mred_in Hnm.
  destruct g2. cbn in Hb, Hem, Ham, Hnm. subst.
  minv H. subst w'. mred.
  match goal with E : adjMem g !! m_adjSrc re = Some ?r |- _ =>
    rename E into Has; rename r into ras end.
  match goal with E : adjMem g !! m_adjTgt re = Some ?r |- _ =>
    rename E into Hat; rename r into rat end.
  injection Hrs as <-. injection Hrt as <-.
  assert (Hold : ∀ e0 re0, e0 ≠ e → edgeMem g !! e0 = Some re0 →
            (e0 < brk g)%nat ∧ (m_adjSrc re0 < brk g)%nat ∧ (m_adjTgt re0 < brk g)%nat ∧
            m_adjSrc re0 ≠ m_adjSrc re ∧ m_adjSrc re0 ≠ m_adjTgt re ∧
            m_adjTgt re0 ≠ m_adjSrc re ∧ m_adjTgt re0 ≠ m_adjTgt re).
  { intros e0 re0 Hne Hl. destruct (H1 _ _ Hl) as (? & ? & ? & _).
    destruct (H2 _ _ _ _ Hne Hl He) as (? & ? & ? & ?). done. }
  split; mred.
  - intros e0 re0 Hl. apply lookup_insert_Some in Hl as [[<- <-]|[Hne Hl]].
    { cbn. split; [lia|]. split; [lia|]. split; [lia|]. split; [lia|].
      intros rs rt Hrs Hrt. lk_in Hrs. lk_in Hrt.
      injection Hrs as <-. injection Hrt as <-. cbn. by apply Hr. }
    rewrite lookup_insert_ne in Hl by done.
    apply lookup_insert_Some in Hl as [[<- <-]|[Hne' Hl]].
    { cbn. split; [lia|]. split; [lia|]. split; [lia|]. split; [lia|].
      intros rs rt Hrs Hrt. lk_in Hrs. lk_in Hrt.
      injection Hrs as <-. injection Hrt as <-. cbn. apply Hrel. }
    destruct (Hold _ _ (not_eq_sym Hne) Hl) as (? & ? & ? & ? & ? & ? & ?).
    destruct (H1 _ _ Hl) as (_ & _ & _ & ? & Hr0).
    split; [lia|]. split; [lia|]. split; [lia|]. split; [done|].
    intros rs rt Hrs Hrt. lk_in Hrs. lk_in Hrt. auto.
  - intros ea eb rea reb Hne Hl1 Hl2.
    apply lookup_insert_Some in Hl1 as [[<- <-]|[Hne1 Hl1]];
      apply lookup_insert_Some in Hl2 as [[<- <-]|[Hne2 Hl2]]; try done;
      try (rewrite lookup_insert_ne in Hl1 by done);
      try (rewrite lookup_insert_ne in Hl2 by done);
      try (apply lookup_insert_Some in Hl1 as [[<- <-]|[Hne1' Hl1]]);
      try (apply lookup_insert_Some in Hl2 as [[<- <-]|[Hne2' Hl2]]); try done; cbn;
      try (destruct (Hold _ _ (not_eq_sym Hne1) Hl1) as (? & ? & ? & ? & ? & ? & ?));
      try (destruct (Hold _ _ (not_eq_sym Hne2) Hl2) as (? & ? & ? & ? & ? & ? & ?));
      try (repeat split; first [done | lia | congruence]).
    eauto.
Qed.

Lemma perform_ids rel op :
  (∀ k, rel k (2 * k) (2 * k + 1)) →
  ((∀ k i j, rel k i j → rel k j i) ∨ ∀ e, op ≠ op_reverseEdge e) →
  preserves (half_ids_inv rel) (perform op).
Proof.
  intros Hrel Hsym.
  assert (Hframe : ∀ m : M unit, relates ids_frame m → preserves (half_ids_inv rel) m).
  { intros m. apply relates_preserves, half_ids_inv_frame. }
  assert (Hret : ∀ A (m : M A), preserves (half_ids_inv rel) m →
                   preserves (half_ids_inv rel) (m ;;; ret tt)).
  { intros A m Hm. apply preserves_bind; [done|]. intros _. apply preserves_ret. }
  pose proof newNode_ids. pose proof newNode_index_ids.
  pose proof contract_ids.
  destruct op; cbn [perform].
  - apply Hframe. frames.
  - apply Hframe. frames.
  - by apply Hret, newEdge_ids.
  - by apply Hret, newEdge_index_ids.
  - apply Hframe, delNode_ids.
  - apply Hframe, delEdge_ids.
  - by apply Hret, split_ids.
  - apply unsplit_ids.
  - destruct Hsym as [Hsym|Hno]; [by apply reverseEdge_ids|]. by destruct (Hno e).
  - apply Hframe, hideEdge_ids.
  - apply Hframe, restoreEdge_ids.
  - apply Hframe, restoreAllEdges_ids.
  - apply Hframe, moveSource_ids.
  - apply Hframe, moveTarget_ids.
  - apply Hframe, moveSource_at_ids.
  - apply Hframe, moveTarget_at_ids.
  - apply Hframe. frames.
  - apply Hframe. unfold NodeArray_new, registerArray_node. frames.
  - apply Hframe. unfold EdgeArray_new, registerArray_edge. frames.
  - apply Hframe. unfold AdjEntryArray_new, registerArray_adj. frames.
  - apply Hframe. unfold registerStructure. frames.
  - apply Hframe. unfold unregisterArray_node. frames.
  - apply Hframe. unfold unregisterArray_edge. frames.
  - apply Hframe. unfold unregisterArray_adj. frames.
  - apply Hframe. unfold unregisterStructure. frames.
Qed.

Lemma half_ids_inv_new rel : half_ids_inv rel Graph_new.
Proof. split; intros *; cbn; by rewrite ?lookup_empty. Qed.

Lemma half_ids_inv_mono (rel rel' : Z → Z → Z → Prop) g :
  (∀ k i j, rel k i j → rel' k i j) → half_ids_inv rel g → half_ids_inv rel' g.
Proof.
  intros Himp (H1 & H2). split; [|done]. intros e re Hl.
  destruct (H1 _ _ Hl) as (? & ? & ? & ? & Hr). repeat (split; [done|]). auto.
Qed.




(** ** Splitting an edge and joining it again *)

Lemma unlink_snoc x l : (x ∉ l) → unlink x (l ++ [x]) = Some l.
Proof.
  induction l as [|y l IH]; intros Hx; cbn [unlink app].
  - by rewrite Nat.eqb_refl.
  - apply not_elem_of_cons in Hx as [Hxy Hx].
    destruct (Nat.eqb_spec y x) as [->|_]; [done|]. by rewrite IH.
Qed.

(** What is live lies below the allocation mark. *)
Lemma wf_fresh g p :
  wf g → (brk g ≤ p)%nat →
  nodeMem g !! p = None ∧ edgeMem g !! p = None ∧ adjMem g !! p = None ∧
  (p ∉ nodes g) ∧ (p ∉ edges g).
Proof.
  intros Hwf Hp. repeat split.
  - destruct (nodeMem g !! p) as [r|] eqn:E; [|done].
    destruct (wf_node _ _ _ Hwf E) as (? & _). lia.
  - destruct (edgeMem g !! p) as [r|] eqn:E; [|done].
    destruct (wf_edge _ _ _ Hwf E) as (? & _). lia.
  - destruct (adjMem g !! p) as [r|] eqn:E; [|done].
    destruct (wf_adj _ _ _ Hwf E) as (? & _). lia.
  - intros Hin. destruct (wf_nodes_live _ _ Hwf Hin) as [r E].
    destruct (wf_node _ _ _ Hwf E) as (? & _). lia.
  - intros Hin. destruct (wf_edges_live g p Hwf) as [r E]; [set_solver|].
    destruct (wf_edge _ _ _ Hwf E) as (? & _). lia.
Qed.

(** Well-formedness looks at the three stores, the three lists and, for
    the bounds, the allocation mark. *)
Lemma wf_same g g' :
  nodeMem g' = nodeMem g → edgeMem g' = edgeMem g → adjMem g' = adjMem g →
  nodes g' = nodes g → edges g' = edges g → m_hiddenEdges g' = m_hiddenEdges g →
  (brk g ≤ brk g')%nat → wf g → wf g'.
Proof.
  intros En Ee Ea El1 El2 El3 Hb (H1 & H2 & H3 & H4 & H5 & H6 & H7).
  unfold wf, node_wf, edge_wf, adj_wf in *. rewrite En, Ee, Ea, El1, El2, El3.
  repeat (split; [done|]).
  split; [|split].
  - intros v r Hv. destruct (H5 v r Hv) as (? & ?). split; [lia|done].
  - intros e r He. destruct (H6 e r He) as (? & ?). split; [lia|done].
  - intros a r Ha. destruct (H7 a r Ha) as (? & ?). split; [lia|done].
Qed.

(** What [split e] makes of the edge [e] of [g]: in [g1] the edge [e] ends
    at a new node [u] of in- and out-degree 1, from which the new edge [e2]
    leads to the old target; [e] has kept its source half-edge, and its new
    target half-edge carries the id of the old one, which now belongs to
    [e2]. *)
Definition split_effect (g : Graph) (e : edge) (re : EdgeElement) (e2 : edge)
    (g1 : Graph) : Prop :=
  ∃ u idTgt,
    nodeMem g !! u = None ∧ edgeMem g !! e2 = None ∧
    (adj_index g (m_adjTgt re)) = Some idTgt ∧
    source g1 e = Some (m_src re) ∧ target g1 e = Some u ∧
    source g1 e2 = Some u ∧ target g1 e2 = Some (m_tgt re) ∧
    indeg g1 u = Some 1 ∧ outdeg g1 u = Some 1 ∧
    adjSource g1 e = Some (m_adjSrc re) ∧ adjTarget g1 e2 = Some (m_adjTgt re) ∧
    (adjTarget g1 e ≫= adj_index g1) = Some idTgt ∧
    (adjTarget g1 e ≫= theNode g1) = Some u ∧
    (adjSource g1 e2 ≫= theNode g1) = Some u ∧
    nodes g1 = nodes g ++ [u] ∧ edges g1 = edges g ++ [e2].

(** [g'] is [g] again, but for the allocation mark, the id counters, the
    table sizes and the registered arrays. *)
Definition restored (g g' : Graph) : Prop :=
  nodeMem g' = nodeMem g ∧ edgeMem g' = edgeMem g ∧ adjMem g' = adjMem g ∧
  nodes g' = nodes g ∧ edges g' = edges g ∧ m_hiddenEdges g' = m_hiddenEdges g ∧
  m_regStructures g' = m_regStructures g ∧
  brk g' = (brk g + 4)%nat ∧
  m_nodeIdCount g' = m_nodeIdCount g + 1 ∧
  m_edgeIdCount g' = m_edgeIdCount g + 1.

Lemma split_unsplit_runs g h e re :
  wf g → edgeMem g !! e = Some re →
  runs (split e) (mkWorld g h) (λ e2 w1,
    split_effect g e re e2 (graph w1) ∧
    runs (unsplit e e2) w1 (λ _ w', restored g (graph w'))).
Proof.
  intros Hwf He.
  destruct (wf_edge _ _ _ Hwf He)
    as (Hlt & _ & Hst & (rs & Hrs & Es1 & Es2 & Es3) & (rt & Hrt & Et1 & Et2 & Et3) &
        (rns & Hrns & _) & (rnt & Hrnt & _)).
  destruct (wf_adj _ _ _ Hwf Hrs) as (Hslt & _).
  destruct (wf_adj _ _ _ Hwf Hrt) as (Htlt & _).
  destruct (wf_node _ _ _ Hwf Hrns) as (Hnslt & _).
  destruct (wf_node _ _ _ Hwf Hrnt) as (Hntlt & _).
  destruct (wf_fresh g (brk g) Hwf) as (Fn0 & _ & _ & Fl0 & _); [lia|].
  destruct (wf_fresh g (S (brk g)) Hwf) as (_ & _ & Fa1 & _); [lia|].
  destruct (wf_fresh g (S (S (brk g))) Hwf) as (_ & _ & Fa2 & _); [lia|].
  destruct (wf_fresh g (S (S (S (brk g)))) Hwf) as (_ & Fe3 & _ & _ & Fl3); [lia|].
  unfold split. mgo.
  apply runs_newNode. mred. unfold newNode_graph. mred. mgo.
  unfold createEdgeElement. mgo.
  match goal with |- runs (if ?b then _ else _) _ _ => destruct b end; mgo.
  all: split;
    [exists (brk g), (a_id rt); unfold split_effect, source, target, indeg, outdeg,
       adjSource, adjTarget, adj_index, theNode; lk; done|].
  all: unfold unsplit; mgo.
  all: (apply runs_assert; [apply negb_true_iff, Nat.eqb_neq; lia|]); mgo.
  all: (apply runs_assert; [apply negb_true_iff, Nat.eqb_neq; lia|]); mgo.
  all: unfold edges_del; mgo.
  all: (eapply runs_lift; [mred; unfold pushBack; by apply unlink_snoc|]); mgo.
  all: unfold nodes_del; mgo.
  all: (eapply runs_lift; [mred; unfold pushBack; by apply unlink_snoc|]); mgo.
  all: unfold restored; mred.
  all: split; [apply map_eq; intros i; destruct (decide (i = brk g)) as [->|Hi]; lk; done|].
  all: split;
    [apply map_eq; intros i;
     destruct (decide (i = S (S (S (brk g))))) as [->|Hi]; [by lk|];
     destruct (decide (i = e)) as [->|Hi']; lk; [by destruct re|done]|].
  all: split; [|repeat split; first [done|lia]].
  all: unfold pushBack; cbn [app foldr]; apply map_eq; intros i.
  all: destruct (decide (i = S (brk g))) as [->|Hi1]; [by lk|].
  all: destruct (decide (i = S (S (brk g)))) as [->|Hi2]; [by lk|].
  all: destruct (decide (i = m_adjTgt re)) as [->|Hi3];
    [lk; destruct rt; cbn in *; by subst|].
  all: destruct (decide (i = m_adjSrc re)) as [->|Hi4];
    [lk; destruct rs; cbn in *; by subst|].
  all: by lk.
Qed.


Lemma unsplit_requires eIn eOut g h w' :
  unsplit eIn eOut (mkWorld g h) = Some (tt, w') →
  ∃ rIn rOut ru,
    edgeMem g !! eIn = Some rIn ∧ edgeMem g !! eOut = Some rOut ∧
    nodeMem g !! m_tgt rIn = Some ru ∧
    m_indeg ru = 1 ∧ m_outdeg ru = 1 ∧ m_src rOut = m_tgt rIn ∧
    m_src rIn ≠ m_tgt rIn ∧ m_src rOut ≠ m_tgt rOut.
Proof.
  intros H. unfold unsplit in H. minv H.
  match goal with E : edgeMem g !! eIn = Some ?r |- _ => rename E into HeIn; rename r into rIn end.
  match goal with E : edgeMem g !! eOut = Some ?r |- _ => rename E into HeOut; rename r into rOut end.
  match goal with E : nodeMem g !! m_tgt rIn = Some ?r |- _ => rename E into Hu; rename r into ru end.
  exists rIn, rOut, ru.
  repeat match goal with
         | E : (_ =? _) = true |- _ => apply Z.eqb_eq in E
         | E : (_ =? _)%nat = true |- _ => apply Nat.eqb_eq in E
         | E : negb _ = true |- _ => apply negb_true_iff, Nat.eqb_neq in E
         end.
  done.
Qed.

(** C2. In a well-formed graph, [split e] succeeds on every edge [e]: it
    returns a new edge [e2] from a new node [u] of in- and out-degree 1 to
    the old target, while [e] now ends at [u] with a target half-edge that
    has the id of the old one.  [unsplit e e2] then succeeds and gives back
    the node, edge and adjacency stores, the node list, the edge list and
    the hidden list of the graph before the split, so every id and every
    link is as it was and the graph is well-formed again; only the
    allocation mark and the two id counters have advanced.  [unsplit eIn eOut]
    succeeds only when the target of [eIn] has in-degree 1 and out-degree 1
    and is the source of [eOut], and neither edge is a self-loop. *)
Theorem split_unsplit_round_trip g h :
  (∀ e re, wf g → edgeMem g !! e = Some re →
     runs (split e) (mkWorld g h) (λ e2 w1,
       split_effect g e re e2 (graph w1) ∧
       runs (unsplit e e2) w1 (λ _ w', restored g (graph w') ∧ wf (graph w')))) ∧
  (∀ eIn eOut w', unsplit eIn eOut (mkWorld g h) = Some (tt, w') →
     ∃ rIn rOut ru,
       edgeMem g !! eIn = Some rIn ∧ edgeMem g !! eOut = Some rOut ∧
       nodeMem g !! m_tgt rIn = Some ru ∧
       m_indeg ru = 1 ∧ m_outdeg ru = 1 ∧ m_src rOut = m_tgt rIn ∧
       m_src rIn ≠ m_tgt rIn ∧ m_src rOut ≠ m_tgt rOut).
Proof.
  split; [|intros eIn eOut w'; apply unsplit_requires].
  intros e re Hwf He.
  eapply runs_mono; [by apply split_unsplit_runs|].
  intros e2 w1 [Hs Hu]. split; [done|].
  eapply runs_mono; [exact Hu|]. intros u' w' Hr. split; [done|].
  destruct Hr as (? & ? & ? & ? & ? & ? & _ & Hb & _).
  apply (wf_same g); try done. lia.
Qed.

Lemma split_unsplit_round_trip_witness :
  (∃ re, edgeMem watched_path !! 6%nat = Some re ∧
     runs (split 6) (mkWorld watched_path []) (λ e2 w1,
       split_effect watched_path 6 re e2 (graph w1) ∧
       runs (unsplit 6 e2) w1
         (λ _ w', restored watched_path (graph w') ∧ wf (graph w')))) ∧
  (∃ rIn rOut ru,
     edgeMem watched_path !! 6%nat = Some rIn ∧ edgeMem watched_path !! 9%nat = Some rOut ∧
     nodeMem watched_path !! m_tgt rIn = Some ru ∧
     m_indeg ru = 1 ∧ m_outdeg ru = 1 ∧ m_src rOut = m_tgt rIn ∧
     m_src rIn ≠ m_tgt rIn ∧ m_src rOut ≠ m_tgt rOut).
Proof.
  destruct (split_unsplit_round_trip watched_path []) as [T1 T2]. split.
  - eexists. split; [vm_compute; reflexivity|]. apply T1.
    + apply (bool_decide_unpack _). vm_compute. reflexivity.
    + vm_compute. reflexivity.
  - eapply (T2 6%nat 9%nat). vm_compute. reflexivity.
Defined.

(** ** Connected components *)

(** Two nodes are adjacent when a shown edge joins them, in either direction;
    they are connected when a chain of links leads from one to the other. *)
Definition adjacent (g : Graph) (x y : node) : Prop :=
  ∃ e re, e ∈ edges g ∧ edgeMem g !! e = Some re ∧
    ((m_src re = x ∧ m_tgt re = y) ∨ (m_src re = y ∧ m_tgt re = x)).

Definition connected (g : Graph) : relation node := rtc (adjacent g).

(** The node ids are distinct indices into the node table. *)
Definition node_ids_ok (g : Graph) : Prop :=
  ∀ v r, nodeMem g !! v = Some r →
    0 ≤ n_id r < m_nodeArrayTableSize g ∧
    ∀ v' r', nodeMem g !! v' = Some r' → n_id r' = n_id r → v' = v.

(** [component[y]] as a value. *)
Definition compv (g : Graph) (c : gmap Z Z) (y : node) : Z :=
  match nodeMem g !! y with
  | Some r => default (-1) (c !! n_id r)
  | None => -1
  end.

(** The half-edges of a node with an even id, and their edges: what the
    scan of the node adds to [m_edges]. *)
Definition is_even (g : Graph) (adj : adjEntry) : bool :=
  match adj_index g adj with
  | Some i => Z.land i 1 =? 0
  | None => false
  end.

Definition edge_of (g : Graph) (adj : adjEntry) : edge := default nullptr (theEdge g adj).

Definition rot (g : Graph) (w : node) : list adjEntry := default [] (rotation g w).

Definition ev (g : Graph) (w : node) : list edge :=
  edge_of g <$> filter (λ a, is_even g a = true) (rot g w).

(** The running totals stored in [m_startNode] and [m_startEdge]. *)
Fixpoint starts {A} (acc : nat) (ls : list (list A)) : list Z :=
  match ls with
  | [] => []
  | l :: ls' => Z.of_nat (acc + length l) :: starts (acc + length l) ls'
  end.

(** The entries [s], ..., [t-1] of a list. *)
Definition segment {A} (s t : Z) (l : list A) : list A :=
  take (Z.to_nat t - Z.to_nat s) (drop (Z.to_nat s) l).

(** A set of nodes that holds, with each of its nodes, exactly the nodes
    connected to it. *)
Definition is_class (g : Graph) (C : list node) : Prop :=
  C ≠ [] ∧ ∀ x y, x ∈ C → (y ∈ C ↔ connected g x y).

Lemma adjacent_sym g x y : adjacent g x y → adjacent g y x.
Proof. intros (e & re & ? & ? & H). exists e, re. tauto. Qed.

Lemma connected_sym g x y : connected g x y → connected g y x.
Proof.
  induction 1 as [|x y z Hxy _ IH]; [apply rtc_refl|].
  eapply rtc_r; [exact IH|]. by apply adjacent_sym.
Qed.

Lemma starts_snoc {A} acc (ls : list (list A)) l :
  starts acc (ls ++ [l]) = starts acc ls ++ [Z.of_nat (acc + length (concat ls) + length l)].
Proof.
  revert acc. induction ls as [|l0 ls IH]; intros acc; cbn.
  - do 2 f_equal. lia.
  - rewrite IH, length_app. do 3 f_equal. lia.
Qed.

Lemma starts_length {A} acc (ls : list (list A)) : length (starts acc ls) = length ls.
Proof. revert acc. induction ls as [|l ls IH]; intros acc; cbn; [done|]. by rewrite IH. Qed.

Lemma starts_lookup {A} acc (ls : list (list A)) i :
  (i ≤ length ls)%nat →
  (Z.of_nat acc :: starts acc ls) !! i = Some (Z.of_nat (acc + length (concat (take i ls)))).
Proof.
  revert acc i. induction ls as [|l ls IH]; intros acc i Hi.
  - cbn in Hi. assert (i = 0)%nat as -> by lia. cbn. do 2 f_equal. lia.
  - destruct i as [|i].
    + cbn. do 2 f_equal. lia.
    + cbn in Hi.
      change ((Z.of_nat (acc + length l) :: starts (acc + length l) ls) !! i =
              Some (Z.of_nat (acc + length (l ++ concat (take i ls))))).
      rewrite (IH (acc + length l)%nat i) by lia.
      rewrite length_app. do 2 f_equal. lia.
Qed.

Lemma segment_concat {A} (ls : list (list A)) i C :
  ls !! i = Some C →
  segment (Z.of_nat (length (concat (take i ls))))
          (Z.of_nat (length (concat (take (S i) ls)))) (concat ls) = C.
Proof.
  intros Hi. unfold segment. rewrite !Nat2Z.id.
  apply list_elem_of_split_length in Hi as (l1 & l2 & -> & ->).
  rewrite take_app_length.
  replace (S (length l1)) with (length (l1 ++ [C])) by (rewrite length_app; cbn; lia).
  change (C :: l2) with ([C] ++ l2).
  rewrite (assoc_L (++) l1 [C] l2), take_app_length.
  rewrite !concat_app, drop_app3_length. cbn [concat]. rewrite app_nil_r, length_app.
  replace (length (concat l1) + length C - length (concat l1))%nat
    with (length C) by lia.
  by rewrite take_app_length.
Qed.

(** *** Reading a well-formed graph *)

Section components.
Variable g : Graph.
Hypothesis Hwf : wf g.
Hypothesis Hids : half_ids_ok g.
Hypothesis Hidx : node_ids_ok g.

Lemma rot_live w r : nodeMem g !! w = Some r → rotation g w = Some (adjEdges r) ∧ rot g w = adjEdges r.
Proof. intros H. unfold rot, rotation. by rewrite H. Qed.

(** What the scan reads at a half-edge of a rotation. *)
Lemma rot_entry w r adj :
  nodeMem g !! w = Some r → adj ∈ adjEdges r →
  ∃ idx e x rx, adj_index g adj = Some idx ∧ theEdge g adj = Some e ∧
    twinNode g adj = Some x ∧ e ∈ edges g ∧ nodeMem g !! x = Some rx ∧
    x ∈ nodes g ∧ adjacent g w x.
Proof.
  intros Hw Ha.
  destruct (wf_rotation_entry _ _ _ _ Hwf Hw Ha)
    as (ra & re & rt & Hra & Hnode & Hin & Hre & Hrt & _ & _ & Hside).
  destruct (wf_edge _ _ _ Hwf Hre) as (_ & _ & _ & _ & _ & (rs & Hrs & _) & (rn & Hrn & _)).
  assert (Hx : ∃ rx, nodeMem g !! a_node rt = Some rx).
  { destruct Hside as [(_ & _ & _ & <-)|(_ & _ & _ & <-)]; eauto. }
  destruct Hx as [rx Hx].
  exists (a_id ra), (a_edge ra), (a_node rt), rx.
  unfold adj_index, theEdge, twinNode, twin, theNode. rewrite Hra. cbn. rewrite Hrt. cbn.
  repeat (split; [done|]). split.
  - by destruct (wf_node _ _ _ Hwf Hx) as (_ & ? & _).
  - exists (a_edge ra), re. repeat (split; [done|]).
    destruct Hside as [(_ & _ & ? & ?)|(_ & _ & ? & ?)]; [left|right]; done.
Qed.

(** Every link of a node shows in its rotation. *)
Lemma adjacent_rot w y :
  adjacent g w y → ∃ r adj, nodeMem g !! w = Some r ∧ adj ∈ adjEdges r ∧ twinNode g adj = Some y.
Proof.
  intros (e & re & Hin & Hre & Hside).
  destruct (wf_edge _ _ _ Hwf Hre)
    as (_ & _ & _ & (rs & Hrs & _ & Es2 & Es3) & (rt & Hrt & _ & Et2 & Et3) &
        (rns & Hrns & Hins) & (rnt & Hrnt & Hint)).
  destruct Hside as [[<- <-]|[<- <-]].
  - exists rns, (m_adjSrc re). split; [done|]. split; [by apply Hins|].
    unfold twinNode, twin, theNode. rewrite Hrs. cbn. rewrite Es3, Hrt. cbn. by rewrite Et2.
  - exists rnt, (m_adjTgt re). split; [done|]. split; [by apply Hint|].
    unfold twinNode, twin, theNode. rewrite Hrt. cbn. rewrite Et3, Hrs. cbn. by rewrite Es2.
Qed.

Lemma adjacent_live x y : adjacent g x y → x ∈ nodes g ∧ y ∈ nodes g.
Proof.
  intros (e & re & Hin & Hre & Hside).
  destruct (wf_edge _ _ _ Hwf Hre) as (_ & _ & _ & _ & _ & (rs & Hrs & _) & (rt & Hrt & _)).
  destruct (wf_node _ _ _ Hwf Hrs) as (_ & ? & _).
  destruct (wf_node _ _ _ Hwf Hrt) as (_ & ? & _).
  destruct Hside as [[<- <-]|[<- <-]]; done.
Qed.

(** *** The [component] array *)

Lemma component_get_ok c y r :
  nodeMem g !! y = Some r → component_get g c y = Some (compv g c y).
Proof.
  intros Hy. unfold component_get, compv, node_index. rewrite Hy. cbn.
  destruct (Hidx _ _ Hy) as [[H1 H2] _].
  apply Z.leb_le in H1. apply Z.ltb_lt in H2. by rewrite H1, H2.
Qed.

Lemma component_set_ok c y r k :
  nodeMem g !! y = Some r →
  ∃ c', component_set g c y k = Some c' ∧
    ∀ y' r', nodeMem g !! y' = Some r' →
      compv g c' y' = if decide (y' = y) then k else compv g c y'.
Proof.
  intros Hy. unfold component_set, node_index. rewrite Hy. cbn.
  destruct (Hidx _ _ Hy) as [[H1 H2] Hinj].
  apply Z.leb_le in H1. apply Z.ltb_lt in H2. rewrite H1, H2. cbn.
  eexists. split; [done|]. intros y' r' Hy'. unfold compv. rewrite Hy'.
  destruct (decide (y' = y)) as [->|Hne].
  - rewrite Hy in Hy'. injection Hy' as <-. by rewrite lookup_insert_eq.
  - rewrite lookup_insert_ne; [done|]. intros Heq. apply Hne. by apply (Hinj y' r').
Qed.


(** *** The edges listed with a node *)

Lemma land_even k : Z.land (2 * k) 1 = 0.
Proof.
  change 1 with (Z.ones 1). rewrite Z.land_ones by lia. change (2 ^ 1) with 2.
  rewrite Z.mul_comm. apply Z.mod_mul. lia.
Qed.

Lemma land_odd k : Z.land (2 * k + 1) 1 = 1.
Proof.
  change 1 with (Z.ones 1) at 2. rewrite Z.land_ones by lia. change (2 ^ 1) with 2.
  rewrite Z.add_comm, Z.mul_comm, Z.mod_add by lia. done.
Qed.

(** The even half-edges of a node. *)
Definition even_adjs (w : node) : list adjEntry := filter (λ a, is_even g a = true) (rot g w).

Lemma ev_even_adjs w : ev g w = edge_of g <$> even_adjs w.
Proof. done. Qed.

Lemma bind_ev (l : list node) : l ≫= ev g = edge_of g <$> (l ≫= even_adjs).
Proof.
  induction l as [|w l IH]; [done|]. cbn. by rewrite fmap_app, <- IH.
Qed.

Lemma even_adjs_elem w a :
  a ∈ even_adjs w → w ∈ nodes g →
  ∃ r ra re, nodeMem g !! w = Some r ∧ a ∈ adjEdges r ∧ adjMem g !! a = Some ra ∧
    a_node ra = w ∧ a_edge ra ∈ edges g ∧ edgeMem g !! a_edge ra = Some re ∧
    (m_adjSrc re = a ∨ m_adjTgt re = a) ∧ Z.land (a_id ra) 1 = 0 ∧
    edge_of g a = a_edge ra.
Proof.
  intros Ha Hw. destruct (wf_nodes_live _ _ Hwf Hw) as [r Hr].
  unfold even_adjs in Ha. apply list_elem_of_filter in Ha as [Hev Ha].
  rewrite (proj2 (rot_live w r Hr)) in Ha.
  destruct (wf_rotation_entry _ _ _ _ Hwf Hr Ha)
    as (ra & re & rt & Hra & Hnode & Hin & Hre & _ & _ & _ & Hside).
  exists r, ra, re. repeat (split; [done|]).
  unfold is_even, adj_index in Hev. rewrite Hra in Hev. cbn in Hev.
  apply Z.eqb_eq in Hev. split; [|split; [done|]].
  - destruct Hside as [(? & _)|(? & _)]; auto.
  - unfold edge_of, theEdge. by rewrite Hra.
Qed.

Lemma even_adjs_NoDup (l : list node) :
  NoDup l → (∀ w, w ∈ l → w ∈ nodes g) → NoDup (l ≫= even_adjs).
Proof.
  induction l as [|w l IH]; intros Hnd Hl; [constructor|].
  apply NoDup_cons in Hnd as [Hw Hnd]. cbn. apply NoDup_app. split; [|split].
  - unfold even_adjs. apply NoDup_filter.
    destruct (wf_nodes_live _ _ Hwf (Hl w ltac:(left))) as [r Hr].
    rewrite (proj2 (rot_live w r Hr)). by destruct (wf_node _ _ _ Hwf Hr) as (_ & _ & ? & _).
  - intros a Ha Hb. apply list_elem_of_bind in Hb as (w' & Hb & Hw').
    destruct (even_adjs_elem w a Ha) as (_ & ra & _ & _ & _ & Hra & Hn & _);
      [apply Hl; left|].
    destruct (even_adjs_elem w' a Hb) as (_ & ra' & _ & _ & _ & Hra' & Hn' & _);
      [apply Hl; by right|].
    rewrite Hra in Hra'. injection Hra' as <-. congruence.
  - apply IH; [done|]. intros w' Hw'. apply Hl. by right.
Qed.

(** An edge has one even half-edge. *)
Lemma even_adj_unique a a' ra ra' re :
  adjMem g !! a = Some ra → adjMem g !! a' = Some ra' →
  a_edge ra = a_edge ra' → edgeMem g !! a_edge ra = Some re →
  (m_adjSrc re = a ∨ m_adjTgt re = a) → (m_adjSrc re = a' ∨ m_adjTgt re = a') →
  Z.land (a_id ra) 1 = 0 → Z.land (a_id ra') 1 = 0 → a = a'.
Proof.
  intros Hra Hra' Heq Hre Hs Hs' Hev Hev'.
  destruct Hids as [H1 _]. destruct (H1 _ _ Hre) as (_ & _ & _ & _ & Hp).
  destruct Hs as [Hs|Hs], Hs' as [Hs'|Hs']; try congruence.
  - rewrite <- Hs in Hra. rewrite <- Hs' in Hra'.
    destruct (Hp _ _ Hra Hra') as [[E1 E2]|[E1 E2]].
    + rewrite E2, land_odd in Hev'. done.
    + rewrite E2, land_odd in Hev. done.
  - rewrite <- Hs in Hra. rewrite <- Hs' in Hra'.
    destruct (Hp _ _ Hra' Hra) as [[E1 E2]|[E1 E2]].
    + rewrite E2, land_odd in Hev. done.
    + rewrite E2, land_odd in Hev'. done.
Qed.

Lemma ev_NoDup (l : list node) :
  NoDup l → (∀ w, w ∈ l → w ∈ nodes g) → NoDup (l ≫= ev g).
Proof.
  intros Hnd Hl. rewrite bind_ev.
  apply NoDup_fmap_2_strong; [|by apply even_adjs_NoDup].
  intros a a' Ha Ha' Heq.
  apply list_elem_of_bind in Ha as (w & Ha & Hw).
  apply list_elem_of_bind in Ha' as (w' & Ha' & Hw').
  destruct (even_adjs_elem w a Ha (Hl w Hw))
    as (_ & ra & re & _ & _ & Hra & _ & _ & Hre & Hs & Hev & He).
  destruct (even_adjs_elem w' a' Ha' (Hl w' Hw'))
    as (_ & ra' & re' & _ & _ & Hra' & _ & _ & Hre' & Hs' & Hev' & He').
  rewrite He, He' in Heq. rewrite <- Heq in Hre'.
  rewrite Hre in Hre'. injection Hre' as <-.
  by apply (even_adj_unique a a' ra ra' re).
Qed.

Lemma ev_edges (l : list node) e :
  (∀ w, w ∈ l → w ∈ nodes g) → e ∈ l ≫= ev g → e ∈ edges g.
Proof.
  intros Hl He. rewrite bind_ev in He.
  apply list_elem_of_fmap in He as (a & -> & Ha).
  apply list_elem_of_bind in Ha as (w & Ha & Hw).
  destruct (even_adjs_elem w a Ha (Hl w Hw)) as (_ & ra & _ & _ & _ & _ & _ & Hin & _ & _ & _ & ->).
  done.
Qed.

(** Every shown edge is listed with the node of its even half-edge. *)
Lemma edges_ev e : e ∈ edges g → ∃ w, w ∈ nodes g ∧ e ∈ ev g w.
Proof.
  intros Hin. destruct (wf_edges_live g e Hwf) as [re Hre]; [set_solver|].
  destruct (wf_edge _ _ _ Hwf Hre)
    as (_ & _ & _ & (rs & Hrs & Es1 & Es2 & _) & (rt & Hrt & Et1 & Et2 & _) &
        (rns & Hrns & Hins) & (rnt & Hrnt & Hint)).
  destruct Hids as [H1 _]. destruct (H1 _ _ Hre) as (_ & _ & _ & _ & Hp).
  destruct (Hp _ _ Hrs Hrt) as [[E1 E2]|[E1 E2]].
  - exists (m_src re). split; [by destruct (wf_node _ _ _ Hwf Hrns) as (_ & ? & _)|].
    rewrite ev_even_adjs. apply list_elem_of_fmap. exists (m_adjSrc re). split.
    + unfold edge_of, theEdge. by rewrite Hrs.
    + unfold even_adjs. apply list_elem_of_filter. split.
      * unfold is_even, adj_index. rewrite Hrs. cbn. rewrite E1, land_even. done.
      * rewrite (proj2 (rot_live _ _ Hrns)). by apply Hins.
  - exists (m_tgt re). split; [by destruct (wf_node _ _ _ Hwf Hrnt) as (_ & ? & _)|].
    rewrite ev_even_adjs. apply list_elem_of_fmap. exists (m_adjTgt re). split.
    + unfold edge_of, theEdge. by rewrite Hrt.
    + unfold even_adjs. apply list_elem_of_filter. split.
      * unfold is_even, adj_index. rewrite Hrt. cbn. rewrite E1, land_even. done.
      * rewrite (proj2 (rot_live _ _ Hrnt)). by apply Hint.
Qed.

Lemma ev_length_bound (l : list node) :
  NoDup l → (∀ w, w ∈ l → w ∈ nodes g) → (length (l ≫= ev g) ≤ length (edges g))%nat.
Proof.
  intros Hnd Hl. apply submseteq_length, NoDup_submseteq; [by apply ev_NoDup|].
  intros e. by apply ev_edges.
Qed.

Lemma ev_perm (l : list node) : l ≡ₚ nodes g → l ≫= ev g ≡ₚ edges g.
Proof.
  intros Hp.
  assert (Hl : ∀ w, w ∈ l → w ∈ nodes g) by (intros w; by rewrite Hp).
  apply NoDup_Permutation.
  - apply ev_NoDup; [|done]. rewrite Hp. by destruct Hwf.
  - by destruct (wf_NoDup_edges _ Hwf).
  - intros e. split; [by apply ev_edges|].
    intros He. destruct (edges_ev e He) as (w & Hw & Hew).
    apply list_elem_of_bind. exists w. split; [done|]. by rewrite Hp.
Qed.

(** *** The scan of one rotation *)

Lemma CCs_scan_spec k w r l : ∀ l0 st,
  0 ≤ k → nodeMem g !! w = Some r → adjEdges r = l0 ++ l →
  (length (edgesOut st) + length (filter (λ a, is_even g a = true) l) ≤ length (edges g))%nat →
  ∃ st' news,
    CCs_scan g k l st = Some st' ∧
    nodesOut st' = nodesOut st ∧
    edgesOut st' = edgesOut st ++ (edge_of g <$> filter (λ a, is_even g a = true) l) ∧
    S_stack st' = news ++ S_stack st ∧ NoDup news ∧
    (∀ x, x ∈ news → compv g (component st) x = -1 ∧ x ∈ nodes g ∧ adjacent g w x) ∧
    (∀ y ry, nodeMem g !! y = Some ry →
       compv g (component st') y =
         if decide (y ∈ news) then k else compv g (component st) y) ∧
    (∀ adj x, adj ∈ l → twinNode g adj = Some x → compv g (component st') x ≠ -1).
Proof.
  induction l as [|adj l IH]; intros l0 st Hk Hw Hl Hbound.
  - exists st, []. cbn. rewrite app_nil_r. repeat (split; [done|]).
    split; [constructor|]. split; [intros x Hx; by apply elem_of_nil in Hx|].
    split; [done|]. intros adj x Hadj. by apply elem_of_nil in Hadj.
  - assert (Hadj : adj ∈ adjEdges r) by (rewrite Hl; set_solver).
    destruct (rot_entry w r adj Hw Hadj)
      as (idx & e & x & rx & Hidx' & He & Hx & Hein & Hrx & Hxin & Hlink).
    cbn [CCs_scan]. rewrite Hidx'. cbn.
    assert (Hev : is_even g adj = (Z.land idx 1 =? 0)) by (unfold is_even; by rewrite Hidx').
    assert (Heo : edge_of g adj = e) by (unfold edge_of; by rewrite He).
    (* the first half: the edge *)
    set (st1 := if Z.land idx 1 =? 0
                then mkScan (component st) (S_stack st) (nodesOut st) (edgesOut st ++ [e])
                else st).
    assert (H1 : (if Z.land idx 1 =? 0
                  then e0 ← theEdge g adj;
                       if Z.of_nat (length (edgesOut st)) <? numberOfEdges g
                       then Some (mkScan (component st) (S_stack st) (nodesOut st)
                                         (edgesOut st ++ [e0]))
                       else None
                  else Some st) = Some st1).
    { unfold st1. destruct (Z.land idx 1 =? 0) eqn:Hz; [|done].
      rewrite He. cbn.
      rewrite filter_cons, decide_True in Hbound by (by rewrite Hev). cbn in Hbound.
      unfold numberOfEdges.
      destruct (Z.ltb_spec (Z.of_nat (length (edgesOut st))) (Z.of_nat (length (edges g))));
        [done|lia]. }
    rewrite H1. cbn. clear H1.
    assert (Hc1 : component st1 = component st) by (unfold st1; by destruct (Z.land idx 1 =? 0)).
    assert (Hs1 : S_stack st1 = S_stack st) by (unfold st1; by destruct (Z.land idx 1 =? 0)).
    assert (Hn1 : nodesOut st1 = nodesOut st) by (unfold st1; by destruct (Z.land idx 1 =? 0)).
    assert (He1 : edgesOut st1 ++ (edge_of g <$> filter (λ a, is_even g a = true) l) =
                  edgesOut st ++ (edge_of g <$> filter (λ a, is_even g a = true) (adj :: l))).
    { rewrite filter_cons. unfold st1. rewrite Hev.
      destruct (Z.land idx 1 =? 0) eqn:Hz.
      - rewrite decide_True by done. cbn. by rewrite Heo, <- app_assoc.
      - rewrite decide_False by done. done. }
    assert (Hb1 : (length (edgesOut st1) +
                   length (filter (λ a, is_even g a = true) l) ≤ length (edges g))%nat).
    { apply (f_equal length) in He1. rewrite !length_app, !length_fmap in He1. lia. }
    clearbody st1.
    (* the second half: the neighbour *)
    rewrite Hx. cbn. rewrite (component_get_ok _ _ _ Hrx). cbn. rewrite Hc1.
    destruct (Z.eqb_spec (compv g (component st) x) (-1)) as [Hun|Hmk].
    + destruct (component_set_ok (component st) x rx k Hrx) as (c' & Hset & Hc').
      rewrite Hset. cbn.
      destruct (IH (l0 ++ [adj]) (mkScan c' (x :: S_stack st1) (nodesOut st1) (edgesOut st1)))
        as (st' & news & Hrun & Hno & Heo' & Hst & Hnd & Hnews & Hcomp & Hclo);
        [done|done|by rewrite <- app_assoc|done|].
      cbn in Hno, Heo', Hst, Hnews, Hcomp.
      assert (Hxn : x ∉ news).
      { intros Hin. destruct (Hnews x Hin) as (Hc & _).
        rewrite (Hc' x rx Hrx), decide_True in Hc by done. lia. }
      exists st', (news ++ [x]). split; [done|]. split; [congruence|].
      split; [by rewrite Heo', He1|]. split; [by rewrite Hst, Hs1, <- app_assoc|].
      split.
      { apply NoDup_app. split; [done|]. split; [|apply NoDup_singleton].
        intros y Hy Hy'. apply list_elem_of_singleton in Hy' as ->. done. }
      split.
      { intros y Hy. apply elem_of_app in Hy as [Hy|Hy].
        - destruct (Hnews y Hy) as (Hc & Hyin & Hyl).
          destruct (wf_nodes_live _ _ Hwf Hyin) as [ry Hry].
          rewrite (Hc' y ry Hry) in Hc. destruct (decide (y = x)); [lia|done].
        - apply list_elem_of_singleton in Hy as ->. done. }
      split.
      { intros y ry Hry. rewrite (Hcomp y ry Hry), (Hc' y ry Hry).
        destruct (decide (y ∈ news)) as [Hin|Hnin].
        - rewrite decide_True by (apply elem_of_app; by left). done.
        - destruct (decide (y = x)) as [->|Hne].
          + rewrite decide_True by (apply elem_of_app; right; by apply list_elem_of_singleton).
            done.
          + rewrite decide_False; [done|]. intros Hc. apply elem_of_app in Hc as [Hc|Hc]; [done|].
            by apply list_elem_of_singleton in Hc. }
      intros adj' x' Hadj' Hx'. apply elem_of_cons in Hadj' as [->|Hadj'].
      * rewrite Hx in Hx'. injection Hx' as <-.
        rewrite (Hcomp x rx Hrx). destruct (decide (x ∈ news)); [lia|].
        rewrite (Hc' x rx Hrx), decide_True by done. lia.
      * by apply (Hclo adj').
    + destruct (IH (l0 ++ [adj]) st1)
        as (st' & news & Hrun & Hno & Heo' & Hst & Hnd & Hnews & Hcomp & Hclo);
        [done|done|by rewrite <- app_assoc|done|].
      rewrite Hc1 in Hnews, Hcomp.
      exists st', news. split; [done|]. split; [congruence|].
      split; [by rewrite Heo', He1|]. split; [by rewrite Hst, Hs1|].
      repeat (split; [done|]).
      intros adj' x' Hadj' Hx'. apply elem_of_cons in Hadj' as [->|Hadj'].
      * rewrite Hx in Hx'. injection Hx' as <-. rewrite (Hcomp x rx Hrx).
        destruct (decide (x ∈ news)); [lia|done].
      * by apply (Hclo adj').
Qed.

(** *** The search of one component *)

(** What holds whenever the [while] loop tests its stack, in the search
    started at [v] after the nodes [pre] had been listed. *)
Definition Winv (v : node) (pre : list node) (st : CCsScan) : Prop :=
  (∃ cur, nodesOut st = pre ++ cur ∧ v ∈ cur ++ S_stack st ∧
          ∀ y, y ∈ cur ++ S_stack st → connected g v y) ∧
  NoDup (nodesOut st ++ S_stack st) ∧
  (∀ y, y ∈ nodesOut st ++ S_stack st → y ∈ nodes g) ∧
  (∀ y ry, nodeMem g !! y = Some ry →
     compv g (component st) y ≠ -1 ↔ y ∈ nodesOut st ++ S_stack st) ∧
  (∀ w y, w ∈ nodesOut st → adjacent g w y → compv g (component st) y ≠ -1) ∧
  edgesOut st = nodesOut st ≫= ev g.

Lemma NoDup_length_le (l k : list node) :
  NoDup l → (∀ x, x ∈ l → x ∈ k) → (length l ≤ length k)%nat.
Proof. intros Hnd Hsub. by apply submseteq_length, NoDup_submseteq. Qed.

Lemma CCs_while_spec k v pre fuel : ∀ st,
  0 ≤ k → Winv v pre st → (length (nodes g) ≤ fuel + length (nodesOut st))%nat →
  ∃ st', CCs_while fuel g k st = Some st' ∧ Winv v pre st' ∧ S_stack st' = [].
Proof.
  induction fuel as [|fuel IH]; intros st Hk HW Hfuel.
  - destruct HW as (W1 & W2 & W3 & W4 & W5 & W6).
    pose proof (NoDup_length_le _ _ W2 W3) as Hlen. rewrite length_app in Hlen.
    destruct (S_stack st) as [|w rest] eqn:Hst; [|cbn in Hlen; lia].
    exists st. split; [by destruct st; cbn in *; subst|]. split; [|done].
    unfold Winv. rewrite Hst. done.
  - destruct (S_stack st) as [|w rest] eqn:Hst.
    { exists st. split; [cbn; by rewrite Hst|]. done. }
    cbn [CCs_while]. rewrite Hst.
    destruct HW as ((cur & W1 & W0 & W1') & W2 & W3 & W4 & W5 & W6).
    rewrite Hst in W0, W1', W2, W3, W4.
    pose proof (NoDup_length_le _ _ W2 W3) as Hlen. rewrite length_app in Hlen. cbn in Hlen.
    unfold numberOfNodes.
    destruct (Z.ltb_spec (Z.of_nat (length (nodesOut st))) (Z.of_nat (length (nodes g))));
      [|lia].
    assert (Hwin : w ∈ nodes g) by (apply W3; set_solver).
    destruct (wf_nodes_live _ _ Hwf Hwin) as [r Hr].
    rewrite (proj1 (rot_live w r Hr)). cbn.
    (* the nodes listed once [w] is *)
    assert (Hnd' : NoDup (nodesOut st ++ [w])).
    { apply NoDup_app in W2 as (N1 & N2 & N3). apply NoDup_app. split; [done|].
      split; [|apply NoDup_singleton]. intros y Hy Hy'.
      apply list_elem_of_singleton in Hy' as ->. apply (N2 w Hy). by left. }
    assert (Hsub' : ∀ y, y ∈ nodesOut st ++ [w] → y ∈ nodes g).
    { intros y Hy. apply W3. set_solver. }
    destruct (CCs_scan_spec k w r (adjEdges r) []
                (mkScan (component st) rest (nodesOut st ++ [w]) (edgesOut st)))
      as (st' & news & Hrun & Hno & Heo & Hstk & Hnd & Hnews & Hcomp & Hclo);
      [done|done|done| |].
    { cbn. rewrite W6.
      pose proof (ev_length_bound _ Hnd' Hsub') as Hb.
      rewrite bind_app, length_app in Hb. cbn in Hb. rewrite app_nil_r in Hb.
      unfold ev in Hb at 2. rewrite length_fmap, (proj2 (rot_live w r Hr)) in Hb. done. }
    cbn in Hno, Heo, Hstk, Hnews, Hcomp. rewrite Hrun. cbn.
    apply IH; [done| |rewrite Hno, length_app; cbn; lia].
    assert (Hmark : ∀ y ry, nodeMem g !! y = Some ry →
              compv g (component st) y ≠ -1 → compv g (component st') y ≠ -1).
    { intros y ry Hry Hm. rewrite (Hcomp y ry Hry). destruct (decide (y ∈ news)); [lia|done]. }
    assert (Hfresh : ∀ x, x ∈ news → x ∉ nodesOut st ++ w :: rest).
    { intros x Hx Hin. destruct (Hnews x Hx) as (Hc & Hxin & _).
      destruct (wf_nodes_live _ _ Hwf Hxin) as [rx Hrx].
      by apply (W4 x rx Hrx) in Hin. }
    split; [|split; [|split; [|split; [|split]]]].
    + exists (cur ++ [w]). split; [by rewrite Hno, W1, <- app_assoc|].
      split; [rewrite Hstk; set_solver|].
      intros y Hy. rewrite Hstk in Hy.
      apply elem_of_app in Hy as [Hy|Hy]; [apply W1'; set_solver|].
      apply elem_of_app in Hy as [Hy|Hy]; [|apply W1'; set_solver].
      destruct (Hnews y Hy) as (_ & _ & Hl).
      eapply rtc_r; [|exact Hl]. apply W1'. set_solver.
    + rewrite Hno, Hstk.
      apply NoDup_app in W2 as (N1 & N2 & N3). apply NoDup_cons in N3 as [N3 N4].
      rewrite <- app_assoc. apply NoDup_app. split; [done|]. split.
      { intros y Hy Hy'. cbn in Hy'. apply elem_of_cons in Hy' as [->|Hy'].
        - apply (N2 w Hy). by left.
        - apply elem_of_app in Hy' as [Hy'|Hy'].
          + apply (Hfresh y Hy'). set_solver.
          + apply (N2 y Hy). by right. }
      cbn. apply NoDup_cons. split.
      { intros Hc. apply elem_of_app in Hc as [Hc|Hc]; [|done].
        apply (Hfresh w Hc). set_solver. }
      apply NoDup_app. split; [done|]. split; [|done].
      intros y Hy Hy'. apply (Hfresh y Hy). set_solver.
    + intros y Hy. rewrite Hno, Hstk in Hy.
      apply elem_of_app in Hy as [Hy|Hy]; [by apply Hsub'|].
      apply elem_of_app in Hy as [Hy|Hy]; [by destruct (Hnews y Hy) as (_ & ? & _)|].
      apply W3. set_solver.
    + intros y ry Hry. rewrite (Hcomp y ry Hry), Hno, Hstk.
      destruct (decide (y ∈ news)) as [Hin|Hnin].
      * split; [intros _; set_solver|lia].
      * rewrite (W4 y ry Hry). set_solver.
    + intros w' y Hw' Hl. rewrite Hno in Hw'.
      destruct (adjacent_live _ _ Hl) as [_ Hyin].
      destruct (wf_nodes_live _ _ Hwf Hyin) as [ry Hry].
      apply elem_of_app in Hw' as [Hw'|Hw'].
      * apply (Hmark y ry Hry). by apply (W5 w').
      * apply list_elem_of_singleton in Hw' as ->.
        destruct (adjacent_rot _ _ Hl) as (r' & adj & Hr' & Hadj & Htw).
        rewrite Hr in Hr'. injection Hr' as <-. by apply (Hclo adj).
    + rewrite Heo, Hno, W6, bind_app. cbn. rewrite app_nil_r.
      unfold ev at 3. by rewrite (proj2 (rot_live w r Hr)).
Qed.

(** *** All components *)

(** What holds whenever the [for] loop takes its next node. *)
Definition Finv (st : CCsScan) (k : Z) (sn se : list Z) (comps : list (list node)) : Prop :=
  S_stack st = [] ∧ nodesOut st = concat comps ∧ k = Z.of_nat (length comps) ∧
  sn = starts 0 comps ∧ se = starts 0 ((λ C, C ≫= ev g) <$> comps) ∧
  Forall (is_class g) comps ∧
  NoDup (nodesOut st) ∧
  (∀ y, y ∈ nodesOut st → y ∈ nodes g) ∧
  (∀ y ry, nodeMem g !! y = Some ry → compv g (component st) y ≠ -1 ↔ y ∈ nodesOut st) ∧
  (∀ w y, w ∈ nodesOut st → adjacent g w y → compv g (component st) y ≠ -1) ∧
  edgesOut st = nodesOut st ≫= ev g.

Lemma concat_bind_ev (comps : list (list node)) :
  concat ((λ C, C ≫= ev g) <$> comps) = concat comps ≫= ev g.
Proof. induction comps as [|C comps IH]; [done|]. cbn. by rewrite bind_app, IH. Qed.

Lemma elem_of_concat (ls : list (list node)) x :
  x ∈ concat ls ↔ ∃ l, x ∈ l ∧ l ∈ ls.
Proof.
  induction ls as [|l ls IH]; cbn.
  - split; [intros H; by apply elem_of_nil in H|]. intros (l & _ & H). by apply elem_of_nil in H.
  - rewrite elem_of_app, IH. split.
    + intros [H|(l' & H & H')]; [exists l; split; [done|by left]|].
      exists l'. split; [done|by right].
    + intros (l' & H & H'). apply elem_of_cons in H' as [->|H']; [by left|]. right. eauto.
Qed.

(** A class that has taken in all it is adjacent to. *)
Lemma class_closed (C : list node) x y :
  is_class g C → x ∈ C → adjacent g x y → y ∈ C.
Proof. intros (_ & HC) Hx Hl. apply (HC x y Hx). by apply rtc_once. Qed.

Lemma CCs_for_spec vs : ∀ st k sn se comps,
  Finv st k sn se comps → (∀ v, v ∈ vs → v ∈ nodes g) →
  ∃ st' k' sn' se' comps',
    CCs_for g vs st k sn se = Some (st', k', sn', se') ∧
    Finv st' k' sn' se' comps' ∧
    (∀ v, v ∈ vs → v ∈ nodesOut st') ∧
    (∀ y, y ∈ nodesOut st → y ∈ nodesOut st').
Proof.
  induction vs as [|v vs IH]; intros st k sn se comps HF Hvs.
  - exists st, k, sn, se, comps. split; [done|]. split; [done|].
    split; [intros v Hv; by apply elem_of_nil in Hv|done].
  - assert (Hvin : v ∈ nodes g) by (apply Hvs; by left).
    destruct (wf_nodes_live _ _ Hwf Hvin) as [rv Hrv].
    cbn [CCs_for]. rewrite (component_get_ok _ _ _ Hrv). cbn.
    destruct HF as (F1 & F2 & F3 & F4 & F5 & F6 & F7 & F8 & F9 & F10 & F11).
    destruct (Z.eqb_spec (compv g (component st) v) (-1)) as [Hun|Hmk]; cbn.
    + (* a new component *)
      destruct (component_set_ok (component st) v rv k Hrv) as (c' & Hset & Hc').
      rewrite Hset. cbn. rewrite F1.
      assert (Hk : 0 ≤ k) by lia.
      assert (Hvout : v ∉ nodesOut st).
      { intros Hin. by apply (F9 v rv Hrv) in Hin. }
      assert (HW : Winv v (nodesOut st) (mkScan c' [v] (nodesOut st) (edgesOut st))).
      { split; [|split; [|split; [|split; [|split]]]]; cbn.
        - exists []. split; [by rewrite app_nil_r|]. split; [set_solver|]. intros y Hy.
          apply list_elem_of_singleton in Hy as ->. apply rtc_refl.
        - apply NoDup_app. split; [done|]. split; [|apply NoDup_singleton].
          intros y Hy Hy'. by apply list_elem_of_singleton in Hy' as ->.
        - intros y Hy. apply elem_of_app in Hy as [Hy|Hy]; [by apply F8|].
          by apply list_elem_of_singleton in Hy as ->.
        - intros y ry Hry. rewrite (Hc' y ry Hry), elem_of_app, list_elem_of_singleton.
          destruct (decide (y = v)) as [->|Hne]; [split; [auto|lia]|].
          rewrite (F9 y ry Hry). tauto.
        - intros w y Hw Hl. destruct (adjacent_live _ _ Hl) as [_ Hyin].
          destruct (wf_nodes_live _ _ Hwf Hyin) as [ry Hry].
          rewrite (Hc' y ry Hry). destruct (decide (y = v)); [lia|]. by apply (F10 w).
        - done. }
      destruct (CCs_while_spec k v (nodesOut st) (length (nodes g)) _ Hk HW)
        as (st' & Hrun & HW' & Hstk'); [cbn; lia|].
      rewrite Hrun. cbn.
      destruct HW' as ((cur & W1 & W0 & W1') & W2 & W3 & W4 & W5 & W6).
      rewrite Hstk' in W0, W1', W2, W3, W4. rewrite app_nil_r in W0, W1', W2, W3, W4.
      (* the nodes listed in this round are the nodes connected to [v] *)
      assert (Hcur : ∀ y, y ∈ cur ↔ connected g v y).
      { intros y. split; [apply W1'|]. revert y.
        apply (rtc_ind_r (λ y, y ∈ cur)); [done|]. intros y z Hvy Hyz IHc.
        assert (Hz : z ∈ nodesOut st').
        { destruct (adjacent_live _ _ Hyz) as [_ Hzin].
          destruct (wf_nodes_live _ _ Hwf Hzin) as [rz Hrz].
          apply (W4 z rz Hrz). apply (W5 y); [|done]. rewrite W1. set_solver. }
        rewrite W1 in Hz. apply elem_of_app in Hz as [Hz|Hz]; [|done]. exfalso.
        rewrite F2 in Hz. apply elem_of_concat in Hz as (C & Hz & HC).
        rewrite Forall_forall in F6.
        assert (Hy : y ∈ C) by (apply (class_closed C z y); auto using adjacent_sym).
        rewrite W1 in W2. apply NoDup_app in W2 as (_ & W2 & _).
        apply (W2 y); [|done]. rewrite F2. apply elem_of_concat. eauto. }
      assert (Hclass : is_class g cur).
      { split; [intros ->; by apply elem_of_nil in W0|].
        intros x y Hx. rewrite (Hcur y). apply Hcur in Hx. split.
        - intros Hy. etrans; [by apply connected_sym|done].
        - intros Hy. by etrans. }
      destruct (IH st' (k + 1)
                  (sn ++ [Z.of_nat (length (nodesOut st'))])
                  (se ++ [Z.of_nat (length (edgesOut st'))]) (comps ++ [cur]))
        as (st2 & k2 & sn2 & se2 & comps2 & Hrun2 & HF2 & Hall & Hmono).
      { split; [done|]. split; [by rewrite W1, F2, concat_app; cbn; rewrite app_nil_r|].
        split; [rewrite length_app; cbn; lia|].
        split; [rewrite starts_snoc, W1, length_app, F2, F4; do 3 f_equal|].
        split.
        { rewrite fmap_app. cbn. rewrite starts_snoc, concat_bind_ev, F5, W6, W1, bind_app,
            length_app, F2. do 3 f_equal. }
        split; [apply Forall_app; split; [done|by constructor]|].
        done. }
      { intros v' Hv'. apply Hvs. by right. }
      exists st2, k2, sn2, se2, comps2. split; [done|]. split; [done|]. split.
      * intros v' Hv'. apply elem_of_cons in Hv' as [->|Hv']; [|by apply Hall].
        apply Hmono. rewrite W1. set_solver.
      * intros y Hy. apply Hmono. rewrite W1. set_solver.
    + (* already listed *)
      destruct (IH st k sn se comps) as (st' & k' & sn' & se' & comps' & Hrun & HF' & Hall & Hmono).
      { unfold Finv. done. }
      { intros v' Hv'. apply Hvs. by right. }
      exists st', k', sn', se', comps'. split; [done|]. split; [done|]. split; [|done].
      intros v' Hv'. apply elem_of_cons in Hv' as [->|Hv']; [|by apply Hall].
      apply Hmono. by apply (F9 v rv Hrv).
Qed.

(** *** What the constructor computes *)

(** The edges listed with the nodes of a class are the shown edges that
    have an end, and then both ends, in the class. *)
Lemma class_edges (C : list node) e re :
  is_class g C → (∀ w, w ∈ C → w ∈ nodes g) → edgeMem g !! e = Some re →
  e ∈ C ≫= ev g ↔ e ∈ edges g ∧ m_src re ∈ C ∧ m_tgt re ∈ C.
Proof.
  intros HC HCn Hre.
  assert (Hends : ∀ w a, a ∈ even_adjs w → w ∈ nodes g → edge_of g a = e →
            e ∈ edges g ∧ adjacent g (m_src re) (m_tgt re) ∧ (w = m_src re ∨ w = m_tgt re)).
  { intros w a Ha Hw He.
    destruct (even_adjs_elem w a Ha Hw)
      as (_ & ra & re' & _ & _ & Hra & Hn & Hin & Hre' & Hs & _ & Heo).
    rewrite He in Heo. rewrite <- Heo in Hre', Hin. rewrite Hre in Hre'. injection Hre' as <-.
    split; [done|]. split; [exists e, re; split; [done|]; split; [done|]; by left|].
    destruct (wf_edge _ _ _ Hwf Hre)
      as (_ & _ & _ & (rs & Hrs & _ & Es2 & _) & (rt & Hrt & _ & Et2 & _) & _).
    destruct Hs as [Hs|Hs]; rewrite Hs in *.
    - left. rewrite Hra in Hrs. injection Hrs as <-. congruence.
    - right. rewrite Hra in Hrt. injection Hrt as <-. congruence. }
  split.
  - intros He. rewrite bind_ev in He. apply list_elem_of_fmap in He as (a & Heq & Ha).
    apply list_elem_of_bind in Ha as (w & Ha & Hw).
    destruct (Hends w a Ha (HCn w Hw) (eq_sym Heq)) as (Hin & Hl & [-> | ->]).
    + split; [done|]. split; [done|]. by apply (class_closed C (m_src re)).
    + split; [done|]. split; [|done].
      apply (class_closed C (m_tgt re)); [done|done|]. by apply adjacent_sym.
  - intros (Hin & Hs & Ht). destruct (edges_ev e Hin) as (w & Hw & Hew).
    apply list_elem_of_bind. exists w. split; [done|].
    rewrite ev_even_adjs in Hew. apply list_elem_of_fmap in Hew as (a & Heq & Ha).
    destruct (Hends w a Ha Hw (eq_sym Heq)) as (_ & _ & [-> | ->]); done.
Qed.

Lemma CCsInfo_compute_spec :
  ∃ info comps,
    CCsInfo_compute g = Some info ∧
    m_numCC info = Z.of_nat (length comps) ∧
    Forall (is_class g) comps ∧
    m_nodes info = concat comps ∧ m_nodes info ≡ₚ nodes g ∧
    m_edges info = concat ((λ C, C ≫= ev g) <$> comps) ∧ m_edges info ≡ₚ edges g ∧
    m_startNode info = 0 :: starts 0 comps ∧
    m_startEdge info = 0 :: starts 0 ((λ C, C ≫= ev g) <$> comps).
Proof.
  destruct (CCs_for_spec (nodes g) (mkScan ∅ [] [] []) 0 [] [] [])
    as (st & k & sn & se & comps & Hrun & HF & Hall & _).
  { split; [done|]. split; [done|]. split; [done|]. split; [done|]. split; [done|].
    split; [constructor|]. split; [constructor|]. cbn.
    split; [intros y Hy; by apply elem_of_nil in Hy|].
    split.
    { intros y ry Hry. unfold compv. rewrite Hry, lookup_empty. cbn.
      split; [done|]. intros Hy. by apply elem_of_nil in Hy. }
    split; [|done]. intros w y Hw. by apply elem_of_nil in Hw. }
  { done. }
  destruct HF as (F1 & F2 & F3 & F4 & F5 & F6 & F7 & F8 & F9 & F10 & F11).
  assert (Hperm : nodesOut st ≡ₚ nodes g).
  { apply NoDup_Permutation; [done|by destruct Hwf|]. intros y. split; [apply F8|apply Hall]. }
  exists (mkCCsInfo k (nodesOut st) (edgesOut st) (0 :: sn) (0 :: se)), comps.
  unfold CCsInfo_compute. rewrite Hrun. cbn.
  split; [done|]. split; [done|]. split; [done|]. split; [done|]. split; [done|].
  split; [by rewrite F11, concat_bind_ev, F2|].
  split; [rewrite F11; by apply ev_perm|]. by rewrite F4, F5.
Qed.

End components.

Lemma delete_snoc {A} (l : list A) (a : A) : delete (length l) (l ++ [a]) = l.
Proof. rewrite (delete_middle l [] a). apply app_nil_r. Qed.

(** C8. On a well-formed graph whose half-edge ids are paired and whose
    node ids are distinct indices into the node table, the constructor of
    [CCsInfo] succeeds and leaves the graph as it was (the array it registers
    is unregistered again).  The nodes it lists are the nodes of the graph,
    each once, and they come in [m_numCC] consecutive groups, each of which
    is one connected component: a non-empty set that holds with each node
    exactly the nodes connected to it.  The edges it lists are the shown
    edges, each once.  For every component index the entries of
    [m_startNode] bound the group of nodes, and the entries of [m_startEdge]
    bound the edges of that component: the shown edges with an end, hence
    both ends, in it. *)
Theorem CCsInfo_components g h :
  wf g → half_ids_ok g → node_ids_ok g →
  ∃ info comps,
    CCsInfo_new (mkWorld g h) = Some (info, mkWorld g h) ∧
    m_numCC info = Z.of_nat (length comps) ∧
    Forall (is_class g) comps ∧
    m_nodes info = concat comps ∧ m_nodes info ≡ₚ nodes g ∧
    m_edges info ≡ₚ edges g ∧
    ∀ cc C, comps !! cc = Some C →
      ∃ s t s' t',
        startNode info cc = Some s ∧ stopNode info cc = Some t ∧
        segment s t (m_nodes info) = C ∧
        startEdge info cc = Some s' ∧ stopEdge info cc = Some t' ∧
        ∀ e re, edgeMem g !! e = Some re →
          e ∈ segment s' t' (m_edges info) ↔ e ∈ edges g ∧ m_src re ∈ C ∧ m_tgt re ∈ C.
Proof.
  intros Hwf Hids Hidx.
  set (a := mkArray 0 (m_nodeArrayTableSize g) true).
  set (g' := set_regNodeArrays (m_regNodeArrays g ++ [a]) g).
  assert (Hwf' : wf g') by (apply (wf_same g); done).
  assert (Hids' : half_ids_ok g').
  { apply (half_ids_inv_frame _ g); [by apply ids_frame_same|done]. }
  assert (Hidx' : node_ids_ok g') by done.
  destruct (CCsInfo_compute_spec g' Hwf' Hids' Hidx')
    as (info & comps & Hrun & Hk & Hcl & Hn & Hnp & He & Hep & Hsn & Hse).
  exists info, comps. split.
  { apply runs_eq.
    unfold CCsInfo_new, NodeArray_new, registerArray_node, unregisterArray_node. mgo.
    eapply runs_lift; [exact Hrun|]. mgo.
    split; [done|]. rewrite delete_snoc. by destruct g. }
  split; [done|]. split; [exact Hcl|]. split; [done|]. split; [exact Hnp|].
  split; [exact Hep|].
  intros cc C HC.
  assert (Hcc : (cc < length comps)%nat) by (by apply lookup_lt_Some in HC).
  assert (HCe : ((λ C, C ≫= ev g') <$> comps) !! cc = Some (C ≫= ev g')).
  { by rewrite list_lookup_fmap, HC. }
  exists (Z.of_nat (length (concat (take cc comps)))),
         (Z.of_nat (length (concat (take (S cc) comps)))),
         (Z.of_nat (length (concat (take cc ((λ C, C ≫= ev g') <$> comps))))),
         (Z.of_nat (length (concat (take (S cc) ((λ C, C ≫= ev g') <$> comps))))).
  unfold startNode, stopNode, startEdge, stopEdge. rewrite Hsn, Hse.
  split; [apply (starts_lookup 0 comps cc); lia|].
  split; [apply (starts_lookup 0 comps (S cc)); lia|].
  split; [rewrite Hn; by apply segment_concat|].
  split; [apply (starts_lookup 0 _ cc); rewrite length_fmap; lia|].
  split; [apply (starts_lookup 0 _ (S cc)); rewrite length_fmap; lia|].
  intros e re Hre. rewrite He, (segment_concat _ cc _ HCe).
  rewrite Forall_forall in Hcl.
  apply (class_edges g' Hwf' Hids' Hidx' C e re); [apply Hcl; by eapply list_elem_of_lookup_2| |done].
  intros w Hw. rewrite <- Hnp, Hn. apply elem_of_concat.
  exists C. split; [done|]. by eapply list_elem_of_lookup_2.
Qed.

(** The two hypotheses on ids can be checked on a given graph. *)
#[global] Instance ordered_dec k i j : Decision (ordered k i j).
Proof. unfold ordered. apply _. Defined.
#[global] Instance paired_dec k i j : Decision (paired k i j).
Proof. unfold paired. apply _. Defined.

#[global] Instance node_ids_ok_dec g : Decision (node_ids_ok g).
Proof.
  exact (decide (map_Forall (λ v r,
           0 ≤ n_id r < m_nodeArrayTableSize g ∧
           map_Forall (λ v' r', n_id r' = n_id r → v' = v) (nodeMem g)) (nodeMem g))).
Defined.

(** The same invariant, with the quantifiers in the order of the maps. *)
Definition half_ids_inv_maps (rel : Z → Z → Z → Prop) (g : Graph) : Prop :=
  map_Forall (λ e re,
    ((e < brk g)%nat ∧ (m_adjSrc re < brk g)%nat ∧ (m_adjTgt re < brk g)%nat ∧
     m_adjSrc re ≠ m_adjTgt re ∧
     match adjMem g !! m_adjSrc re, adjMem g !! m_adjTgt re with
     | Some rs, Some rt => rel (e_id re) (a_id rs) (a_id rt)
     | _, _ => True
     end) ∧
    map_Forall (λ e' re', e ≠ e' →
      m_adjSrc re ≠ m_adjSrc re' ∧ m_adjSrc re ≠ m_adjTgt re' ∧
      m_adjTgt re ≠ m_adjSrc re' ∧ m_adjTgt re ≠ m_adjTgt re') (edgeMem g)) (edgeMem g).

Lemma half_ids_inv_maps_iff rel g : half_ids_inv_maps rel g ↔ half_ids_inv rel g.
Proof.
  split.
  - intros H. split.
    + intros e re Hl. destruct (H e re Hl) as ((? & ? & ? & ? & Hr) & _).
      repeat (split; [done|]). intros rs rt Hs Ht. by rewrite Hs, Ht in Hr.
    + intros e e' re re' Hne Hl Hl'. destruct (H e re Hl) as (_ & H2). by apply (H2 e' re').
  - intros (H1 & H2) e re Hl. split.
    + destruct (H1 e re Hl) as (? & ? & ? & ? & Hr). repeat (split; [done|]).
      destruct (adjMem g !! m_adjSrc re) as [rs|]; [|done].
      destruct (adjMem g !! m_adjTgt re) as [rt|]; [|done]. by apply Hr.
    + intros e' re' Hl' Hne. by apply (H2 e e' re re').
Qed.

#[global] Instance half_ids_inv_maps_dec rel `{∀ k i j, Decision (rel k i j)} g :
  Decision (half_ids_inv_maps rel g).
Proof.
  unfold half_ids_inv_maps. apply map_Forall_dec. intros e re.
  apply and_dec; [|apply _].
  repeat (apply and_dec; [apply _|]).
  destruct (adjMem g !! m_adjSrc re), (adjMem g !! m_adjTgt re); apply _.
Defined.

(** Three nodes and two edges, in two components. *)
Definition two_parts : Graph :=
  default Graph_new
    (exec (a <- newNode ;; b <- newNode ;; newNode ;;;
           newEdge a b ;;; newEdge b a ;;; ret tt) Graph_new).

Lemma CCsInfo_components_witness :
  ∃ info comps,
    CCsInfo_new (mkWorld two_parts []) = Some (info, mkWorld two_parts []) ∧
    m_numCC info = Z.of_nat (length comps) ∧
    Forall (is_class two_parts) comps ∧
    m_nodes info = concat comps ∧ m_nodes info ≡ₚ nodes two_parts ∧
    m_edges info ≡ₚ edges two_parts ∧
    ∀ cc C, comps !! cc = Some C →
      ∃ s t s' t',
        startNode info cc = Some s ∧ stopNode info cc = Some t ∧
        segment s t (m_nodes info) = C ∧
        startEdge info cc = Some s' ∧ stopEdge info cc = Some t' ∧
        ∀ e re, edgeMem two_parts !! e = Some re →
          e ∈ segment s' t' (m_edges info) ↔
          e ∈ edges two_parts ∧ m_src re ∈ C ∧ m_tgt re ∈ C.
Proof.
  apply (CCsInfo_components two_parts []).
  - apply (bool_decide_unpack _). vm_compute. reflexivity.
  - apply half_ids_inv_maps_iff. apply (bool_decide_unpack _). vm_compute. reflexivity.
  - apply (bool_decide_unpack _). vm_compute. reflexivity.
Defined.

(** ** Deleting an edge: what it does to a well-formed graph *)

(** The graph without a hidden edge and its two adjacency entries. *)
Definition purged_graph (g : Graph) (e : edge) (re : EdgeElement) : Graph :=
  set_hiddenEdges (filter (λ x, x ≠ e) (m_hiddenEdges g))
    (set_edgeMem (delete e (edgeMem g))
       (set_adjMem (delete (m_adjTgt re) (delete (m_adjSrc re) (adjMem g))) g)).

(** The graph after [delEdge e]: the ends have forgotten the edge as in
    hiding, and the edge and its two adjacency entries are gone. *)
Definition deleted_graph (g : Graph) (e : edge) (re : EdgeElement) : Graph :=
  mkGraph (map_imap (λ v r, Some (hide_node re v r)) (nodeMem g))
    (delete e (edgeMem g))
    (delete (m_adjTgt re) (delete (m_adjSrc re) (adjMem g)))
    (brk g) (nodes g) (filter (λ x, x ≠ e) (edges g)) (m_hiddenEdges g)
    (m_nodeIdCount g) (m_edgeIdCount g) (m_nodeArrayTableSize g) (m_edgeArrayTableSize g)
    (m_regNodeArrays g) (m_regEdgeArrays g) (m_regAdjArrays g) (m_regStructures g).

Lemma filter_ne_snoc (e : nat) (l : list nat) :
  (e ∉ l) → filter (λ x, x ≠ e) (l ++ [e]) = l.
Proof.
  intros He. rewrite filter_app, filter_all.
  - rewrite filter_cons, decide_False by (intros Hc; by apply Hc). cbn. apply app_nil_r.
  - intros x Hx ->. done.
Qed.

Lemma runs_delEdge g h e re :
  wf g → e ∈ edges g → edgeMem g !! e = Some re →
  runs (delEdge e) (mkWorld g h) (λ _ w',
    w' = mkWorld (deleted_graph g e re)
           (h ++ map (λ o, mkNote o (edgeDeleted e) g) (m_regStructures g))).
Proof.
  intros Hwf Hin He.
  destruct (wf_edge_ends _ _ _ Hwf Hin He)
    as (Hpos & Hne & rs & rt & Hrs & Hrt & Hnd1 & Hnd2 & Hs & Ht & Hother).
  destruct (wf_NoDup_edges _ Hwf) as (HndE & _ & Hdis).
  unfold delEdge. mgo. unfold adjEdges_del. mgo.
  destruct (decide (m_src re = m_tgt re)) as [Heq|Hneq].
  - rewrite <- Heq in *. rewrite Hrs in Hrt. injection Hrt as <-.
    destruct (without_edge_both re (adjEdges rs)) as (l1 & Hl1 & Hl2); try done.
    eapply runs_unlink_adj; [lk; reflexivity|exact Hl1|]. mgo.
    unfold adjEdges_del. mgo.
    eapply runs_unlink_adj; [lk; reflexivity|exact Hl2|]. mgo.
    unfold edges_del. mgo.
    eapply runs_lift; [mred; by apply unlink_filter|]. mgo.
    unfold deleted_graph. do 2 f_equal.
    apply map_eq. intros v. rewrite map_lookup_imap.
    destruct (decide (v = m_src re)) as [->|Hv].
    + rewrite lookup_insert_eq, Hrs. cbn. unfold hide_node.
      by rewrite <- Heq, !is_end_same.
    + rewrite !lookup_insert_ne by done.
      destruct (nodeMem g !! v) as [r|] eqn:Hr; [|done]. cbn.
      by erewrite hide_node_other by (try done; congruence).
  - destruct (Hother Hneq) as [Hts Hst].
    eapply runs_unlink_adj; [lk; reflexivity|by apply without_edge_src|]. mgo.
    unfold adjEdges_del. mgo.
    eapply runs_unlink_adj; [lk; reflexivity|by apply without_edge_tgt|]. mgo.
    unfold edges_del. mgo.
    eapply runs_lift; [mred; by apply unlink_filter|]. mgo.
    unfold deleted_graph. do 2 f_equal.
    apply map_eq. intros v. rewrite map_lookup_imap.
    destruct (decide (v = m_tgt re)) as [->|Hv].
    + rewrite lookup_insert_eq, Hrt. cbn. unfold hide_node.
      rewrite is_end_same, is_end_other, Z.sub_0_r by done. done.
    + rewrite !(lookup_insert_ne _ (m_tgt re)) by done.
      destruct (decide (v = m_src re)) as [->|Hv'].
      * rewrite lookup_insert_eq, Hrs. cbn. unfold hide_node.
        rewrite is_end_same, is_end_other, Z.sub_0_r by done. done.
      * rewrite !lookup_insert_ne by done.
        destruct (nodeMem g !! v) as [r|] eqn:Hr; [|done]. cbn.
        by erewrite hide_node_other by done.
Qed.

Lemma purged_graph_wf g e re :
  wf g → e ∈ m_hiddenEdges g → edgeMem g !! e = Some re → wf (purged_graph g e re).
Proof.
  intros Hwf Hin He.
  destruct (wf_NoDup_edges _ Hwf) as (HndE & HndH & Hdisj).
  pose proof Hwf as (Hnd & HndEH & Hln & Hle & Hn & Hed & Ha).
  assert (Hsub : ∀ x, x ∈ edges g ++ filter (λ x, x ≠ e) (m_hiddenEdges g) →
                      x ≠ e ∧ x ∈ edges g ++ m_hiddenEdges g).
  { intros x Hx. apply elem_of_app in Hx as [Hx|Hx].
    - split; [intros ->; by apply (Hdisj e)|set_solver].
    - apply list_elem_of_filter in Hx as [? ?]. split; [done|set_solver]. }
  split; [done|]. split.
  { cbn. apply NoDup_app. split; [done|]. split; [|by apply NoDup_filter].
    intros x Hx Hx'. apply list_elem_of_filter in Hx' as [_ Hx']. by apply (Hdisj x). }
  split; [done|]. split.
  { cbn. apply Forall_forall. intros x Hx. destruct (Hsub x Hx) as [Hne Hx'].
    rewrite lookup_delete_ne by done. by apply wf_edges_live. }
  split.
  { intros v r Hr. cbn in Hr. destruct (Hn v r Hr) as (Hb & Hvn & Hnd' & Hall).
    destruct (wf_hidden_not_in_rotation _ _ _ _ _ Hwf Hin He Hr) as [Hns Hnt].
    split; [done|]. split; [done|]. split; [done|].
    rewrite Forall_forall in Hall. apply Forall_forall. intros a Ha'.
    destruct (Hall a Ha') as (ra & Hra & Hnode & Hedge).
    exists ra. cbn. rewrite !lookup_delete_ne by congruence. done. }
  split.
  { intros e' re' He'. cbn in He'. apply lookup_delete_Some in He' as [Hne He'].
    destruct (Hed e' re' He')
      as (Hb & Hmem & Hne' & (rs & Hrs & Hs) & (rt & Hrt & Ht) & Hn1 & Hn2).
    destruct (wf_adj_distinct g e e' re re' Hwf He He' Hne) as (? & ? & ? & ?).
    split; [done|]. split.
    { cbn. apply elem_of_app in Hmem as [Hmem|Hmem]; [set_solver|].
      apply elem_of_app. right. apply list_elem_of_filter. done. }
    split; [done|].
    split; [exists rs; cbn; by rewrite !lookup_delete_ne by done|].
    split; [exists rt; cbn; by rewrite !lookup_delete_ne by done|].
    done. }
  intros a ra Hra. cbn in Hra.
  apply lookup_delete_Some in Hra as [Hnt Hra]. apply lookup_delete_Some in Hra as [Hns Hra].
  destruct (Ha a ra Hra) as (Hb & re0 & Hre0 & Hside).
  split; [done|]. exists re0. split; [|done]. cbn.
  rewrite lookup_delete_ne; [done|]. intros Heq. rewrite <- Heq, He in Hre0.
  injection Hre0 as <-. destruct Hside; congruence.
Qed.

(** [delEdge] keeps a graph well-formed. *)
Lemma deleted_graph_wf g e re :
  wf g → e ∈ edges g → edgeMem g !! e = Some re → wf (deleted_graph g e re).
Proof.
  intros Hwf Hin He. destruct (wf_NoDup_edges _ Hwf) as (_ & _ & Hdisj).
  apply (wf_same (purged_graph (hidden_graph g e re) e re)); try done.
  - cbn. by rewrite filter_ne_snoc by (by apply Hdisj).
  - apply purged_graph_wf; [by apply hidden_graph_wf|cbn; set_solver|done].
Qed.

(** ** Deleting a node: what it does to a well-formed graph *)

(** [g'] is [g] without some shown edges that had an end at [v]: what is
    left of the edge records and adjacency entries is unchanged, the edge
    list and the rotations hold what is left of them, in the old order. *)
Definition dropped (v : node) (g g' : Graph) : Prop :=
  nodes g' = nodes g ∧ m_hiddenEdges g' = m_hiddenEdges g ∧ brk g' = brk g ∧
  (∀ e re, edgeMem g' !! e = Some re → edgeMem g !! e = Some re) ∧
  (∀ e re, edgeMem g !! e = Some re → edgeMem g' !! e = None →
     e ∈ edges g ∧ (m_src re = v ∨ m_tgt re = v)) ∧
  edges g' = filter (λ e, is_Some (edgeMem g' !! e)) (edges g) ∧
  (∀ a ra, adjMem g' !! a = Some ra → adjMem g !! a = Some ra) ∧
  (∀ x, match nodeMem g !! x, nodeMem g' !! x with
        | Some r, Some r' =>
            n_id r' = n_id r ∧
            adjEdges r' = filter (λ a, is_Some (adjMem g' !! a)) (adjEdges r)
        | None, None => True
        | _, _ => False
        end).

Lemma dropped_refl v g : wf g → dropped v g g.
Proof.
  intros Hwf. repeat (split; [done|]). split; [intros e re H1 H2; congruence|].
  split.
  { symmetry. apply filter_all. intros e He. apply wf_edges_live; [done|set_solver]. }
  split; [done|]. intros x. destruct (nodeMem g !! x) as [r|] eqn:Hr; [|done].
  split; [done|]. symmetry. apply filter_all. intros a Ha.
  destruct (wf_rotation_entry _ _ _ _ Hwf Hr Ha) as (ra & _ & _ & Hra & _). by rewrite Hra.
Qed.

Lemma filter_filter_sub (P Q : nat → Prop) `{∀ x, Decision (P x)} `{∀ x, Decision (Q x)}
    (l : list nat) :
  (∀ x, P x → Q x) → filter P (filter Q l) = filter P l.
Proof.
  intros HPQ. rewrite list_filter_filter. apply filter_ext_elem. intros x _. split; [tauto|].
  intros HP. split; [done|]. by apply HPQ.
Qed.

Lemma dropped_trans v g1 g2 g3 : dropped v g1 g2 → dropped v g2 g3 → dropped v g1 g3.
Proof.
  intros (A1 & A2 & A3 & A4 & A5 & A6 & A7 & A8) (B1 & B2 & B3 & B4 & B5 & B6 & B7 & B8).
  split; [congruence|]. split; [congruence|]. split; [congruence|].
  split; [auto|]. split.
  { intros e re H1 H3. destruct (edgeMem g2 !! e) as [re2|] eqn:H2.
    - assert (re2 = re) as -> by (apply A4 in H2; congruence).
      destruct (B5 e re H2 H3) as [Hin Hv]. split; [|done].
      rewrite A6 in Hin. by apply list_elem_of_filter in Hin as [_ ?].
    - by apply A5. }
  split.
  { rewrite B6, A6. apply filter_filter_sub. intros e [re He]. apply B4 in He. by rewrite He. }
  split; [auto|].
  intros x. specialize (A8 x). specialize (B8 x).
  destruct (nodeMem g1 !! x), (nodeMem g2 !! x), (nodeMem g3 !! x); try done.
  destruct A8 as [E1 A8], B8 as [E2 B8]. split; [congruence|].
  rewrite B8, A8. apply filter_filter_sub. intros a [ra Ha]. apply B7 in Ha. by rewrite Ha.
Qed.

Lemma dropped_delEdge v g e re :
  wf g → e ∈ edges g → edgeMem g !! e = Some re → m_src re = v ∨ m_tgt re = v →
  dropped v g (deleted_graph g e re).
Proof.
  intros Hwf Hin He Hv. repeat (split; [done|]).
  split; [intros e0 r0 H0; cbn in H0; by apply lookup_delete_Some in H0 as [_ ?]|].
  split.
  { intros e0 r0 H0 H1. cbn in H1. apply lookup_delete_None in H1 as [<-|H1]; [|congruence].
    rewrite He in H0. injection H0 as <-. done. }
  split.
  { cbn. apply filter_ext_elem. intros x Hx.
    destruct (wf_edges_live g x Hwf) as [rx Hrx]; [set_solver|].
    split.
    - intros Hne. by rewrite lookup_delete_ne, Hrx.
    - intros [r Hr] ->. by rewrite lookup_delete_eq in Hr. }
  split.
  { intros a ra Ha. cbn in Ha. apply lookup_delete_Some in Ha as [_ Ha].
    by apply lookup_delete_Some in Ha as [_ Ha]. }
  intros x. cbn. rewrite map_lookup_imap.
  destruct (nodeMem g !! x) as [r|] eqn:Hr; [|done]. cbn. split; [done|].
  unfold without_edge. apply filter_ext_elem. intros a Ha.
  destruct (wf_rotation_entry _ _ _ _ Hwf Hr Ha) as (ra & _ & _ & Hra & _).
  split.
  - intros [H1 H2]. by rewrite !lookup_delete_ne, Hra by done.
  - intros [r' Hr']. apply lookup_delete_Some in Hr' as [? Hr'].
    apply lookup_delete_Some in Hr' as [? _]. done.
Qed.

Lemma runs_delNode_loop v fuel : ∀ g h r,
  wf g → nodeMem g !! v = Some r → (length (adjEdges r) ≤ fuel)%nat →
  runs (delNode_loop fuel v) (mkWorld g h) (λ _ w',
    wf (graph w') ∧ dropped v g (graph w') ∧ rotation (graph w') v = Some []).
Proof.
  induction fuel as [|fuel IH]; intros g h r Hwf Hr Hlen.
  - cbn [delNode_loop]. destruct (adjEdges r) as [|a l] eqn:Hrot; [|cbn in Hlen; lia].
    apply runs_bind. eapply runs_lift; [cbn; unfold rotation; rewrite Hr; cbn; rewrite Hrot; reflexivity|].
    apply runs_ret. cbn. split; [done|]. split; [by apply dropped_refl|].
    unfold rotation. rewrite Hr. cbn. by rewrite Hrot.
  - cbn [delNode_loop]. destruct (adjEdges r) as [|a l] eqn:Hrot.
    { apply runs_bind. eapply runs_lift; [cbn; unfold rotation; rewrite Hr; cbn; rewrite Hrot; reflexivity|].
      apply runs_ret. cbn. split; [done|]. split; [by apply dropped_refl|].
      unfold rotation. rewrite Hr. cbn. by rewrite Hrot. }
    apply runs_bind. eapply runs_lift; [cbn; unfold rotation; rewrite Hr; cbn; rewrite Hrot; reflexivity|].
    assert (Ha : a ∈ adjEdges r) by (rewrite Hrot; by left).
    destruct (wf_rotation_entry _ _ _ _ Hwf Hr Ha)
      as (ra & re & rt & Hra & Hnode & Hin & Hre & _ & _ & _ & Hside).
    apply runs_bind. eapply runs_lift; [cbn; unfold theEdge; by rewrite Hra|].
    apply runs_bind. eapply runs_mono; [by apply (runs_delEdge g h (a_edge ra) re)|].
    intros _ w' ->.
    assert (Hv : m_src re = v ∨ m_tgt re = v).
    { destruct Hside as [(_ & _ & ? & _)|(_ & _ & ? & _)]; auto. }
    pose proof (dropped_delEdge v g _ re Hwf Hin Hre Hv) as Hd.
    assert (Hr' : nodeMem (deleted_graph g (a_edge ra) re) !! v = Some (hide_node re v r)).
    { cbn. by rewrite map_lookup_imap, Hr. }
    eapply runs_mono; [apply (IH _ _ _ (deleted_graph_wf _ _ _ Hwf Hin Hre) Hr')|].
    { cbn. rewrite Hrot. unfold without_edge. rewrite filter_cons.
      rewrite decide_False by (destruct Hside as [(-> & _)|(-> & _)]; tauto).
      pose proof (length_filter (λ a0, a0 ≠ m_adjSrc re ∧ a0 ≠ m_adjTgt re) l) as Hl.
      cbn in Hlen. lia. }
    cbn. intros _ w2 (Hwf2 & Hd2 & Hrot2). split; [done|]. split; [|done].
    by apply (dropped_trans v g (deleted_graph g (a_edge ra) re)).
Qed.

(** The graph without the node [v], once nothing is left in its rotation. *)
Definition node_removed (v : node) (g : Graph) : Graph :=
  set_nodeMem (delete v (nodeMem g)) (set_nodes (filter (λ x, x ≠ v) (nodes g)) g).

(** No hidden edge ends at [v]. *)
Definition no_hidden_at (g : Graph) (v : node) : Prop :=
  ∀ e re, e ∈ m_hiddenEdges g → edgeMem g !! e = Some re → m_src re ≠ v ∧ m_tgt re ≠ v.

Lemma wf_isolated g v e re :
  wf g → rotation g v = Some [] → e ∈ edges g → edgeMem g !! e = Some re →
  m_src re ≠ v ∧ m_tgt re ≠ v.
Proof.
  intros Hwf Hrot Hin He.
  destruct (wf_edge _ _ _ Hwf He) as (_ & _ & _ & _ & _ & (rs & Hrs & Hs) & (rt & Hrt & Ht)).
  unfold rotation in Hrot. split; intros Heq; rewrite Heq in *.
  - rewrite Hrs in Hrot. injection Hrot as Hrot. specialize (Hs Hin). rewrite Hrot in Hs.
    by apply elem_of_nil in Hs.
  - rewrite Hrt in Hrot. injection Hrot as Hrot. specialize (Ht Hin). rewrite Hrot in Ht.
    by apply elem_of_nil in Ht.
Qed.

Lemma node_removed_wf g v :
  wf g → rotation g v = Some [] → no_hidden_at g v → wf (node_removed v g).
Proof.
  intros Hwf Hrot Hhid.
  pose proof Hwf as (Hnd & HndEH & Hln & Hle & Hn & Hed & Ha).
  split; [by apply NoDup_filter|]. split; [done|]. split.
  { cbn. apply Forall_forall. intros x Hx. apply list_elem_of_filter in Hx as [Hne Hx].
    rewrite lookup_delete_ne by done. by apply wf_nodes_live. }
  split; [done|]. split.
  { intros x r Hr. cbn in Hr. apply lookup_delete_Some in Hr as [Hne Hr].
    destruct (Hn x r Hr) as (Hb & Hvn & Hnd' & Hall).
    split; [done|]. split; [cbn; apply list_elem_of_filter; done|]. done. }
  split; [|done].
  intros e re He. cbn in He.
  destruct (Hed e re He) as (Hb & Hmem & Hne & Hs & Ht & (rs & Hrs & Hins) & (rt & Hrt & Hint)).
  assert (Hends : m_src re ≠ v ∧ m_tgt re ≠ v).
  { apply elem_of_app in Hmem as [Hmem|Hmem]; [by apply (wf_isolated g v e)|by apply (Hhid e)]. }
  destruct Hends as [Hsv Htv].
  split; [done|]. split; [done|]. split; [done|]. split; [done|]. split; [done|].
  split; [exists rs|exists rt]; cbn; rewrite lookup_delete_ne by done; done.
Qed.

Lemma runs_delNode g h v r :
  wf g → nodeMem g !! v = Some r → no_hidden_at g v →
  runs (delNode v) (mkWorld g h) (λ _ w',
    ∃ g1, wf g1 ∧ dropped v g g1 ∧ rotation g1 v = Some [] ∧
      graph w' = node_removed v g1 ∧ wf (graph w')).
Proof.
  intros Hwf Hr Hhid.
  destruct (wf_node _ _ _ Hwf Hr) as (Hb & Hvn & _).
  unfold delNode. mgo.
  eapply runs_mono; [by apply (runs_delNode_loop v (length (adjEdges r)) g _ r)|].
  intros _ [g1 h1] (Hwf1 & Hd & Hrot). cbn in Hwf1, Hd, Hrot.
  destruct Hd as (D1 & D2 & D3 & D4 & D5 & D6 & D7 & D8).
  unfold rotation in Hrot. destruct (nodeMem g1 !! v) as [r1|] eqn:Hr1; [|done].
  cbn in Hrot. injection Hrot as Hrot.
  unfold nodes_del. mgo.
  eapply runs_lift.
  { mred. apply unlink_filter; [by destruct Hwf1|]. by rewrite D1. }
  mgo. exists g1. split; [done|].
  split; [done|]. split; [unfold rotation; rewrite Hr1; cbn; by rewrite Hrot|].
  assert (Heq : mkGraph (delete v (nodeMem g1)) (edgeMem g1)
                  (foldr delete (adjMem g1) (adjEdges r1)) (brk g1)
                  (filter (λ y, y ≠ v) (nodes g1)) (edges g1) (m_hiddenEdges g1)
                  (m_nodeIdCount g1) (m_edgeIdCount g1) (m_nodeArrayTableSize g1)
                  (m_edgeArrayTableSize g1) (m_regNodeArrays g1) (m_regEdgeArrays g1)
                  (m_regAdjArrays g1) (m_regStructures g1) = node_removed v g1)
    by (rewrite Hrot; reflexivity).
  rewrite Heq. split; [done|].
  apply node_removed_wf; [done|unfold rotation; rewrite Hr1; cbn; by rewrite Hrot|].
  intros e re He Hre. rewrite D2 in He. apply D4 in Hre. by apply (Hhid e).
Qed.

(** ** Moving one end of an edge

    [moveSource] and [moveTarget] with a position differ only in the side
    they work on: the side is [true] for the source. *)

Definition end_adj (s : bool) (re : EdgeElement) : adjEntry :=
  if s then m_adjSrc re else m_adjTgt re.
Definition end_node (s : bool) (re : EdgeElement) : node :=
  if s then m_src re else m_tgt re.
Definition with_end (s : bool) (v : node) (re : EdgeElement) : EdgeElement :=
  if s then with_src v re else with_tgt v re.
Definition deg_dec (s : bool) (r : NodeElement) : NodeElement :=
  if s then with_outdeg (m_outdeg r - 1) r else with_indeg (m_indeg r - 1) r.
Definition deg_inc (s : bool) (r : NodeElement) : NodeElement :=
  if s then with_outdeg (m_outdeg r + 1) r else with_indeg (m_indeg r + 1) r.

(** The graph after the end [s] of the edge [e] has been moved to the node
    [v], whose rotation becomes [l]. *)
Definition moved_graph (s : bool) (g : Graph) (e : edge) (re : EdgeElement)
    (ra : AdjElement) (rx rv : NodeElement) (v : node) (l : list adjEntry) : Graph :=
  mkGraph
    (<[v := deg_inc s (with_adjEdges l rv)]>
       (<[end_node s re :=
            deg_dec s (with_adjEdges (filter (λ b, b ≠ end_adj s re) (adjEdges rx)) rx)]>
          (nodeMem g)))
    (<[e := with_end s v re]> (edgeMem g))
    (<[end_adj s re := with_node v ra]> (adjMem g))
    (brk g) (nodes g) (edges g) (m_hiddenEdges g)
    (m_nodeIdCount g) (m_edgeIdCount g) (m_nodeArrayTableSize g)
    (m_edgeArrayTableSize g) (m_regNodeArrays g) (m_regEdgeArrays g)
    (m_regAdjArrays g) (m_regStructures g).

Lemma insertBefore_app (x y : nat) (l1 l2 : list nat) :
  y ∉ l1 → insertBefore x y (l1 ++ y :: l2) = Some (l1 ++ x :: y :: l2).
Proof.
  induction l1 as [|z l1 IH]; intros Hy; cbn.
  - by rewrite Nat.eqb_refl.
  - apply not_elem_of_cons in Hy as [Hne Hy].
    destruct (Nat.eqb_spec z y) as [->|_]; [done|]. by rewrite IH.
Qed.

Lemma insertAfter_app (x y : nat) (l1 l2 : list nat) :
  y ∉ l1 → insertAfter x y (l1 ++ y :: l2) = Some (l1 ++ y :: x :: l2).
Proof.
  induction l1 as [|z l1 IH]; intros Hy; cbn.
  - by rewrite Nat.eqb_refl.
  - apply not_elem_of_cons in Hy as [Hne Hy].
    destruct (Nat.eqb_spec z y) as [->|_]; [done|]. by rewrite IH.
Qed.

Lemma insertAt_perm dir (x y : nat) (l l' : list nat) :
  insertAt dir x y l = Some l' → l' ≡ₚ x :: l.
Proof.
  revert l'. induction l as [|z l IH]; intros l' H; destruct dir; cbn in H; try done.
  - destruct (Nat.eqb z y).
    + injection H as <-. apply Permutation_swap.
    + destruct (insertAfter x y l) as [r|] eqn:Hr; [|done]. injection H as <-.
      rewrite (IH r Hr). apply Permutation_swap.
  - destruct (Nat.eqb z y).
    + by injection H as <-.
    + destruct (insertBefore x y l) as [r|] eqn:Hr; [|done]. injection H as <-.
      rewrite (IH r Hr). apply Permutation_swap.
Qed.

Lemma runs_moveSource_at g h e re ra rx rv pos rp dir l :
  edgeMem g !! e = Some re → adjMem g !! m_adjSrc re = Some ra →
  nodeMem g !! m_src re = Some rx → NoDup (adjEdges rx) → m_adjSrc re ∈ adjEdges rx →
  adjMem g !! pos = Some rp → nodeMem g !! a_node rp = Some rv → m_src re ≠ a_node rp →
  insertAt dir (m_adjSrc re) pos (adjEdges rv) = Some l →
  runs (moveSource_at e pos dir) (mkWorld g h)
    (λ _ w', w' = mkWorld (moved_graph true g e re ra rx rv (a_node rp) l) h).
Proof.
  intros He Ha Hx Hnd Hin Hp Hv Hne Hl.
  unfold moveSource_at. mgo.
  unfold adjEdges_move_at. mgo.
  eapply runs_unlink_adj; [lk; reflexivity|by apply unlink_filter|]. mgo.
  eapply runs_insert_adj; [lk; reflexivity|exact Hl|]. mgo.
  unfold moved_graph, end_node, end_adj, with_end, deg_inc, deg_dec. mred. do 2 f_equal.
  apply map_eq. intros y.
  destruct (decide (y = a_node rp)) as [->|Hy1]; [by rewrite !lookup_insert_eq|].
  rewrite !(lookup_insert_ne _ (a_node rp)) by done.
  destruct (decide (y = m_src re)) as [->|Hy2]; [by rewrite !lookup_insert_eq|].
  by rewrite !lookup_insert_ne by done.
Qed.

Lemma runs_moveTarget_at g h e re ra rx rv pos rp dir l :
  edgeMem g !! e = Some re → adjMem g !! m_adjTgt re = Some ra →
  nodeMem g !! m_tgt re = Some rx → NoDup (adjEdges rx) → m_adjTgt re ∈ adjEdges rx →
  adjMem g !! pos = Some rp → nodeMem g !! a_node rp = Some rv → m_tgt re ≠ a_node rp →
  insertAt dir (m_adjTgt re) pos (adjEdges rv) = Some l →
  runs (moveTarget_at e pos dir) (mkWorld g h)
    (λ _ w', w' = mkWorld (moved_graph false g e re ra rx rv (a_node rp) l) h).
Proof.
  intros He Ha Hx Hnd Hin Hp Hv Hne Hl.
  unfold moveTarget_at. mgo.
  unfold adjEdges_move_at. mgo.
  eapply runs_unlink_adj; [lk; reflexivity|by apply unlink_filter|]. mgo.
  eapply runs_insert_adj; [lk; reflexivity|exact Hl|]. mgo.
  unfold moved_graph, end_node, end_adj, with_end, deg_inc, deg_dec. mred. do 2 f_equal.
  apply map_eq. intros y.
  destruct (decide (y = a_node rp)) as [->|Hy1]; [by rewrite !lookup_insert_eq|].
  rewrite !(lookup_insert_ne _ (a_node rp)) by done.
  destruct (decide (y = m_tgt re)) as [->|Hy2]; [by rewrite !lookup_insert_eq|].
  by rewrite !lookup_insert_ne by done.
Qed.

Lemma moved_graph_wf s g e re ra rx rv v l :
  wf g → e ∈ edges g → edgeMem g !! e = Some re →
  adjMem g !! end_adj s re = Some ra → nodeMem g !! end_node s re = Some rx →
  nodeMem g !! v = Some rv → end_node s re ≠ v → l ≡ₚ end_adj s re :: adjEdges rv →
  wf (moved_graph s g e re ra rx rv v l).
Proof.
  intros Hwf Hin He Ha Hx Hv Hne Hl.
  set (a := end_adj s re) in *. set (x := end_node s re) in *.
  pose proof Hwf as (Hnd & HndEH & Hln & Hle & Hn & Hed & Had).
  pose proof (wf_edge _ _ _ Hwf He)
    as (Hbe & _ & Hst & (rs & Hrs & Es1 & Es2 & Es3) & (rt & Hrt & Et1 & Et2 & Et3) & _).
  assert (Hra : a_edge ra = e ∧ a_node ra = x).
  { subst a x. destruct s; cbn in *; split; congruence. }
  destruct Hra as [Hra1 Hra2].
  (* the half-edge sits in no rotation but the one of [x] *)
  assert (Hown : ∀ y ry, nodeMem g !! y = Some ry → a ∈ adjEdges ry → y = x).
  { intros y ry Hy Hay.
    destruct (wf_rotation_entry _ _ _ _ Hwf Hy Hay) as (ra' & _ & _ & Hra' & Hnode & _).
    congruence. }
  (* the other half-edges stay where they are *)
  assert (Hkeep : ∀ y ry b, nodeMem g !! y = Some ry → b ∈ adjEdges ry → b ≠ a →
            ∃ ry', nodeMem (moved_graph s g e re ra rx rv v l) !! y = Some ry' ∧
                   b ∈ adjEdges ry').
  { intros y ry b Hy Hb Hba. unfold moved_graph. cbn [nodeMem].
    destruct (decide (y = v)) as [->|Hyv].
    - rewrite lookup_insert_eq. eexists. split; [done|].
      destruct s; cbn; rewrite Hl; apply elem_of_cons; right; congruence.
    - rewrite lookup_insert_ne by done.
      destruct (decide (y = x)) as [->|Hyx].
      + rewrite lookup_insert_eq. eexists. split; [done|].
        assert (ry = rx) as -> by congruence.
        destruct s; cbn; apply list_elem_of_filter; done.
      + rewrite lookup_insert_ne by done. by exists ry. }
  assert (Hlive : ∀ y, is_Some (nodeMem g !! y) →
            is_Some (nodeMem (moved_graph s g e re ra rx rv v l) !! y)).
  { intros y Hy. unfold moved_graph. cbn [nodeMem].
    rewrite !lookup_insert_is_Some'. auto. }
  split; [done|]. split; [done|]. split.
  { apply Forall_forall. intros y Hy. apply Hlive. by apply wf_nodes_live. }
  split.
  { apply Forall_forall. intros e1 He1. unfold moved_graph. cbn [edgeMem].
    rewrite lookup_insert_is_Some'. right. by apply wf_edges_live. }
  split; [|split].
  - (* nodes *)
    intros y ry' Hy'. unfold moved_graph in Hy'. cbn [nodeMem] in Hy'.
    assert (Hentry : ∀ ry b, nodeMem g !! y = Some ry → b ∈ adjEdges ry → b ≠ a →
              ∃ rb, adjMem (moved_graph s g e re ra rx rv v l) !! b = Some rb ∧
                    a_node rb = y ∧ a_edge rb ∈ edges g).
    { intros ry b Hy Hb Hba.
      destruct (wf_node _ _ _ Hwf Hy) as (_ & _ & _ & Hall). rewrite Forall_forall in Hall.
      destruct (Hall b Hb) as (rb & Hrb & Hbn & Hbe2).
      exists rb. unfold moved_graph. cbn [adjMem]. by rewrite lookup_insert_ne. }
    destruct (decide (y = v)) as [->|Hyv].
    + rewrite lookup_insert_eq in Hy'. injection Hy' as <-.
      destruct (wf_node _ _ _ Hwf Hv) as (Hb & Hvn & Hndv & Hall).
      assert (Hav : a ∉ adjEdges rv).
      { intros Hc. apply Hne. symmetry. by apply (Hown v rv). }
      assert (Hrot : adjEdges (deg_inc s (with_adjEdges l rv)) = l) by (by destruct s).
      split; [done|]. split; [done|]. rewrite Hrot. split.
      { rewrite Hl. by apply NoDup_cons. }
      apply Forall_forall. intros b Hb'. rewrite Hl in Hb'.
      apply elem_of_cons in Hb' as [->|Hb'].
      * exists (with_node v ra). unfold moved_graph. cbn [adjMem edges].
        rewrite lookup_insert_eq. split; [done|]. split; [done|]. cbn. by rewrite Hra1.
      * apply (Hentry rv); [done|done|congruence].
    + rewrite lookup_insert_ne in Hy' by done.
      destruct (decide (y = x)) as [->|Hyx].
      * rewrite lookup_insert_eq in Hy'. injection Hy' as <-. fold a.
        destruct (wf_node _ _ _ Hwf Hx) as (Hb & Hvn & Hndv & Hall).
        assert (Hrot : adjEdges (deg_dec s (with_adjEdges (filter (λ b, b ≠ a) (adjEdges rx)) rx))
                       = filter (λ b, b ≠ a) (adjEdges rx)) by (by destruct s).
        split; [done|]. split; [done|]. rewrite Hrot. split; [by apply NoDup_filter|].
        apply Forall_forall. intros b Hb'. apply list_elem_of_filter in Hb' as [Hba Hb'].
        by apply (Hentry rx).
      * rewrite lookup_insert_ne in Hy' by done.
        destruct (wf_node _ _ _ Hwf Hy') as (Hb & Hvn & Hndv & Hall).
        split; [done|]. split; [done|]. split; [done|].
        apply Forall_forall. intros b Hb'. apply (Hentry ry'); [done|done|].
        intros ->. apply Hyx. by apply (Hown y ry').
  - (* edges *)
    intros e1 re1' He1'. unfold moved_graph in He1'. cbn [edgeMem] in He1'.
    destruct (decide (e1 = e)) as [->|He1].
    + rewrite lookup_insert_eq in He1'. injection He1' as <-.
      destruct (wf_edge _ _ _ Hwf He)
        as (_ & Hmem & _ & _ & _ & (rn1 & Hrn1 & Hin1) & (rn2 & Hrn2 & Hin2)).
      specialize (Hin1 Hin). specialize (Hin2 Hin).
      assert (Hnew : ∃ rn, nodeMem (moved_graph s g e re ra rx rv v l) !! v = Some rn ∧
                           a ∈ adjEdges rn).
      { unfold moved_graph. cbn [nodeMem]. rewrite lookup_insert_eq. eexists. split; [done|].
        destruct s; cbn; rewrite Hl; apply elem_of_cons; by left. }
      destruct Hnew as (rn & Hrn & Harn).
      split; [done|]. split; [done|].
      destruct s; subst a x; cbn in *.
      * split; [done|]. split.
        { exists (with_node v ra). rewrite lookup_insert_eq. split; [done|].
          cbn. split; [congruence|]. split; [done|]. congruence. }
        split.
        { exists rt. rewrite lookup_insert_ne by done. done. }
        split; [exists rn; done|].
        destruct (Hkeep _ _ _ Hrn2 Hin2 ltac:(congruence)) as (r2 & Hr2 & Hb2).
        exists r2. done.
      * split; [done|]. split.
        { exists rs. rewrite lookup_insert_ne by done. done. }
        split.
        { exists (with_node v ra). rewrite lookup_insert_eq. split; [done|].
          cbn. split; [congruence|]. split; [done|]. congruence. }
        split; [|exists rn; done].
        destruct (Hkeep _ _ _ Hrn1 Hin1 ltac:(congruence)) as (r2 & Hr2 & Hb2).
        exists r2. done.
    + rewrite lookup_insert_ne in He1' by done.
      destruct (wf_edge _ _ _ Hwf He1')
        as (Hb1 & Hmem & Hst1 & (rs1 & Hrs1 & Es11 & Es12 & Es13) &
            (rt1 & Hrt1 & Et11 & Et12 & Et13) & (rn1 & Hrn1 & Hin1) & (rn2 & Hrn2 & Hin2)).
      assert (Hs1 : m_adjSrc re1' ≠ a) by (intros Hc; rewrite Hc in Hrs1; congruence).
      assert (Ht1 : m_adjTgt re1' ≠ a) by (intros Hc; rewrite Hc in Hrt1; congruence).
      split; [done|]. split; [done|]. split; [done|]. split.
      { exists rs1. unfold moved_graph. cbn [adjMem]. by rewrite lookup_insert_ne. }
      split.
      { exists rt1. unfold moved_graph. cbn [adjMem]. by rewrite lookup_insert_ne. }
      split.
      * destruct (Hlive (m_src re1')) as [r2 Hr2]; [by eexists|].
        exists r2. split; [done|]. intros Hshown.
        destruct (Hkeep _ _ _ Hrn1 (Hin1 Hshown) Hs1) as (r3 & Hr3 & Hb3). congruence.
      * destruct (Hlive (m_tgt re1')) as [r2 Hr2]; [by eexists|].
        exists r2. split; [done|]. intros Hshown.
        destruct (Hkeep _ _ _ Hrn2 (Hin2 Hshown) Ht1) as (r3 & Hr3 & Hb3). congruence.
  - (* half-edges *)
    intros b rb' Hb'. unfold moved_graph in Hb'. cbn [adjMem] in Hb'.
    assert (Hedge : ∀ rb, adjMem g !! b = Some rb →
              adj_wf (moved_graph s g e re ra rx rv v l) b (with_node (a_node rb') rb)).
    { intros rb Hrb. destruct (wf_adj _ _ _ Hwf Hrb) as (Hbb & re1 & Hre1 & Hside).
      split; [done|]. unfold moved_graph. cbn [edgeMem with_node a_edge].
      destruct (decide (a_edge rb = e)) as [Heq|Hneq].
      - rewrite Heq, lookup_insert_eq. eexists. split; [done|].
        assert (re1 = re) as -> by congruence. by destruct s.
      - rewrite lookup_insert_ne by done. by exists re1. }
    destruct (decide (b = a)) as [->|Hba].
    + rewrite lookup_insert_eq in Hb'. injection Hb' as <-. by apply (Hedge ra).
    + rewrite lookup_insert_ne in Hb' by done.
      specialize (Hedge rb' Hb'). by destruct rb'.
Qed.

(** ** Walking a rotation while entries leave it *)

Lemma list_succ_app (x : nat) (l1 l2 : list nat) :
  x ∉ l1 → list_succ x (l1 ++ x :: l2) = Some (list_head l2).
Proof.
  induction l1 as [|z l1 IH]; intros Hx; cbn.
  - by rewrite Nat.eqb_refl.
  - apply not_elem_of_cons in Hx as [Hne Hx].
    destruct (Nat.eqb_spec z x) as [->|_]; [done|]. by apply IH.
Qed.

Lemma list_cyclicSucc_app (x : nat) (l1 l2 : list nat) :
  x ∉ l1 → Forall (λ a, a ≠ nullptr) l2 →
  list_cyclicSucc x (l1 ++ x :: l2) = Some (hd (hd x l1) l2).
Proof.
  intros Hx Hnz. unfold list_cyclicSucc. rewrite list_succ_app by done.
  destruct l2 as [|y l2]; cbn.
  - by destruct l1.
  - apply Forall_cons in Hnz as [Hy _].
    destruct (Nat.eqb_spec y nullptr) as [->|_]; done.
Qed.

(** The loop of a contraction walks the rotation [lb ++ t :: la] from the
    successor of [t] around to [t]; the entries it has moved away, [M],
    all lie behind it, so that the successor of the current entry is the
    next entry of the walk. *)
Lemma filtered_cyclicSucc (lb la P R M : list nat) (t adj : nat) :
  NoDup (lb ++ t :: la) → Forall (λ a, a ≠ nullptr) (lb ++ t :: la) →
  la ++ lb = P ++ adj :: R → (∀ a, a ∈ M → a ∈ P) →
  list_cyclicSucc adj (filter (λ a, a ∉ M) (lb ++ t :: la)) = Some (hd t R).
Proof.
  intros Hnd Hnz Hsplit HM.
  assert (Hperm : lb ++ t :: la ≡ₚ t :: P ++ adj :: R).
  { rewrite <- Hsplit, (Permutation_app_comm lb). done. }
  assert (HndL : NoDup (t :: P ++ adj :: R)) by (by rewrite <- Hperm).
  apply NoDup_cons in HndL as [Ht HndL].
  apply NoDup_app in HndL as (HndP & HPR & HndR).
  assert (HnzL : Forall (λ a, a ≠ nullptr) (t :: P ++ adj :: R)) by (by rewrite <- Hperm).
  apply Forall_cons in HnzL as [Htz HnzL]. apply Forall_app in HnzL as [_ HnzR].
  apply Forall_cons in HnzR as [_ HnzR].
  assert (HtM : t ∉ M).
  { intros Hc. apply Ht. apply elem_of_app. left. by apply HM. }
  assert (HRM : ∀ a, a ∈ adj :: R → a ∉ M).
  { intros a Ha Hc. by apply (HPR a (HM a Hc)). }
  apply app_eq_app in Hsplit as [l [[E1 E2]|[E1 E2]]].
  - destruct l as [|z l].
    + cbn in E2. rewrite app_nil_r in E1. subst lb P.
      change ((adj :: R) ++ t :: la) with ([] ++ adj :: (R ++ t :: la)).
      rewrite !filter_app, filter_cons_True by (apply HRM; by left).
      cbn [filter list_filter app]. rewrite filter_app.
      rewrite (filter_all _ R) by (intros a Ha; apply HRM; by right).
      rewrite (filter_cons_True _ t) by done.
      change (adj :: R ++ t :: filter (λ a, a ∉ M) la)
        with ([] ++ adj :: (R ++ t :: filter (λ a, a ∉ M) la)).
      rewrite list_cyclicSucc_app.
      * by destruct R.
      * apply not_elem_of_nil.
      * apply Forall_app. split; [done|]. apply Forall_cons. split; [done|].
        apply Forall_forall. intros a Ha. apply list_elem_of_filter in Ha as [_ Ha].
        rewrite Forall_forall in Hnz. apply Hnz. apply elem_of_app. right. by right.
    + injection E2 as -> ->. subst la.
      rewrite filter_app, (filter_all _ lb).
      2:{ intros a Ha. apply HRM. right. apply elem_of_app. by right. }
      rewrite filter_cons_True by done.
      rewrite filter_app, filter_cons_True by (apply HRM; by left).
      rewrite (filter_all _ l).
      2:{ intros a Ha. apply HRM. right. apply elem_of_app. by left. }
      rewrite app_comm_cons, app_assoc.
      rewrite list_cyclicSucc_app.
      * destruct l; [|done]. cbn. by destruct lb.
      * intros Hc. apply elem_of_app in Hc as [Hc|Hc].
        -- apply NoDup_cons in HndR as [Hd' _]. apply Hd'. apply elem_of_app. by right.
        -- apply elem_of_cons in Hc as [Hc|Hc].
           ++ subst. apply Ht. apply elem_of_app. right. by left.
           ++ apply list_elem_of_filter in Hc as [_ Hc]. apply (HPR _ Hc). by left.
      * apply Forall_app in HnzR as [H1 _]. done.
  - subst P lb.
    rewrite filter_app, (filter_app _ l), filter_cons_True by (apply HRM; by left).
    rewrite (filter_all _ R) by (intros a Ha; apply HRM; by right).
    rewrite filter_cons_True by done. rewrite <- app_assoc. cbn [app].
    rewrite list_cyclicSucc_app.
    + by destruct R.
    + intros Hc. apply list_elem_of_filter in Hc as [_ Hc].
      apply (HPR adj); [|by left]. apply elem_of_app. by right.
    + apply Forall_app. split; [done|]. apply Forall_cons. split; [done|].
      apply Forall_forall. intros a Ha. apply list_elem_of_filter in Ha as [_ Ha].
      rewrite Forall_forall in Hnz. apply Hnz. apply elem_of_app. right. by right.
Qed.

(** ** Contracting an edge *)

Lemma perm_snoc_middle (l1 M l2 : list nat) (a : nat) :
  l1 ++ (M ++ [a]) ++ l2 ≡ₚ a :: l1 ++ M ++ l2.
Proof. rewrite <- app_assoc. cbn. by rewrite <- !Permutation_middle. Qed.

Lemma edge_eta (r : EdgeElement) :
  mkEdge (m_src r) (m_tgt r) (m_adjSrc r) (m_adjTgt r) (e_id r) = r.
Proof. by destruct r. Qed.

(** The edges between the two ends of a contraction, whatever their
    direction. *)
Definition joins (v w : node) (r : EdgeElement) : Prop :=
  (m_src r = v ∧ m_tgt r = w) ∨ (m_src r = w ∧ m_tgt r = v).

#[global] Instance joins_dec v w r : Decision (joins v w r).
Proof. unfold joins. apply _. Defined.

Definition redirect (w v x : node) : node := if decide (x = w) then v else x.

(** What a contraction of [w] into [v] makes of an edge: an edge between
    the two is deleted, every other end at [w] is moved to [v]. *)
Definition contracted_edge (v w : node) (r : EdgeElement) : option EdgeElement :=
  if decide (joins v w r) then None
  else Some (mkEdge (redirect w v (m_src r)) (redirect w v (m_tgt r))
                    (m_adjSrc r) (m_adjTgt r) (e_id r)).

Definition contracted (g : Graph) (v w : node) (g' : Graph) : Prop :=
  wf g' ∧ nodes g' = filter (λ x, x ≠ w) (nodes g) ∧ nodeMem g' !! w = None ∧
  (∀ e1, edgeMem g' !! e1 = edgeMem g !! e1 ≫= contracted_edge v w) ∧
  edges g' = filter (λ e1, is_Some (edgeMem g' !! e1)) (edges g) ∧
  m_hiddenEdges g' = m_hiddenEdges g.

Lemma NoDup_length_size (l : list adjEntry) (m : gmap adjEntry AdjElement) :
  NoDup l → (∀ a, a ∈ l → is_Some (m !! a)) → (length l ≤ size m)%nat.
Proof.
  intros Hnd Hsub. rewrite <- size_dom. unfold size, set_size. cbn.
  apply NoDup_length_le; [done|]. intros a Ha.
  apply elem_of_elements, elem_of_dom. by apply Hsub.
Qed.

Section contraction.
Variables (g : Graph) (e : edge) (re : EdgeElement) (v w : node).
Variables (lb la lbv lav : list adjEntry).
Hypothesis Hwf : wf g.
Hypothesis Hin : e ∈ edges g.
Hypothesis He : edgeMem g !! e = Some re.
Hypothesis Hv : m_src re = v.
Hypothesis Hw : m_tgt re = w.
Hypothesis Hvw : v ≠ w.
Hypothesis Hloop : ∀ e1 r1, edgeMem g !! e1 = Some r1 → m_src r1 = w → m_tgt r1 ≠ w.
Hypothesis Hrw : rotation g w = Some (lb ++ m_adjTgt re :: la).
Hypothesis Hrv : rotation g v = Some (lbv ++ m_adjSrc re :: lav).

(** The half-edges of the walk that leave the target: those whose twin
    is not at the source. *)
Definition leaving (P : list adjEntry) : list adjEntry :=
  filter (λ a, twinNode g a ≠ Some v) P.

Definition spliced_edge (M : list adjEntry) (r : EdgeElement) : EdgeElement :=
  mkEdge (if decide (m_adjSrc r ∈ M) then v else m_src r)
         (if decide (m_adjTgt r ∈ M) then v else m_tgt r)
         (m_adjSrc r) (m_adjTgt r) (e_id r).

Definition spliced_adj (M : list adjEntry) (b : adjEntry) (r : AdjElement) : AdjElement :=
  if decide (b ∈ M) then with_node v r else r.

(** The graph after the half-edges [M] have been moved, in this order,
    from the target to the source, in front of the source side of [e]. *)
Definition spliced (M : list adjEntry) (gi : Graph) : Prop :=
  wf gi ∧ nodes gi = nodes g ∧ edges gi = edges g ∧
  m_hiddenEdges gi = m_hiddenEdges g ∧
  (∀ b, adjMem gi !! b = spliced_adj M b <$> adjMem g !! b) ∧
  (∀ e1, edgeMem gi !! e1 = spliced_edge M <$> edgeMem g !! e1) ∧
  (∀ y, y ≠ v → y ≠ w → nodeMem gi !! y = nodeMem g !! y) ∧
  rotation gi w = Some (filter (λ a, a ∉ M) (lb ++ m_adjTgt re :: la)) ∧
  rotation gi v = Some (lbv ++ M ++ m_adjSrc re :: lav).

Lemma spliced_nil : spliced [] g.
Proof.
  split; [done|]. split; [done|]. split; [done|]. split; [done|]. split.
  { intros b. unfold spliced_adj. destruct (adjMem g !! b); [|done]. cbn.
    destruct (decide (b ∈ [])) as [Hc|_]; [by apply elem_of_nil in Hc|done]. }
  split.
  { intros e1. unfold spliced_edge. destruct (edgeMem g !! e1) as [r|]; [|done]. cbn.
    destruct (decide (m_adjSrc r ∈ [])) as [Hc|_]; [by apply elem_of_nil in Hc|].
    destruct (decide (m_adjTgt r ∈ [])) as [Hc|_]; [by apply elem_of_nil in Hc|].
    by rewrite edge_eta. }
  split; [done|]. split; [|done].
  rewrite Hrw. f_equal. symmetry. apply filter_all. intros a _. apply not_elem_of_nil.
Qed.

Lemma walk_in_rotation a : a ∈ la ++ lb → a ∈ lb ++ m_adjTgt re :: la.
Proof.
  intros Ha. apply elem_of_app in Ha as [Ha|Ha]; apply elem_of_app; [right; by right|by left].
Qed.

(** What the graph knows about an entry of the rotation of the target. *)
Lemma target_entry a :
  a ∈ lb ++ m_adjTgt re :: la →
  ∃ ra r1 rt, adjMem g !! a = Some ra ∧ a_node ra = w ∧ a_edge ra ∈ edges g ∧
    edgeMem g !! a_edge ra = Some r1 ∧ adjMem g !! a_twin ra = Some rt ∧
    a_node rt ≠ w ∧ twinNode g a = Some (a_node rt) ∧
    ((end_adj true r1 = a ∧ end_adj false r1 = a_twin ra ∧
      end_node true r1 = w ∧ end_node false r1 = a_node rt) ∨
     (end_adj false r1 = a ∧ end_adj true r1 = a_twin ra ∧
      end_node false r1 = w ∧ end_node true r1 = a_node rt)).
Proof.
  intros Ha. unfold rotation in Hrw.
  destruct (nodeMem g !! w) as [rw|] eqn:Hnw; [|done]. cbn in Hrw. injection Hrw as Hrot.
  rewrite <- Hrot in Ha.
  destruct (wf_rotation_entry _ _ _ _ Hwf Hnw Ha)
    as (ra & r1 & rt & Hra & Hnode & Hshown & Hr1 & Hrt & _ & _ & Hside).
  exists ra, r1, rt. split; [done|]. split; [done|]. split; [done|]. split; [done|].
  split; [done|]. split.
  { intros Hc. destruct Hside as [(_ & _ & Hs & Ht)|(_ & _ & Ht & Hs)].
    - apply (Hloop _ _ Hr1 Hs). congruence.
    - apply (Hloop _ _ Hr1); congruence. }
  split.
  { unfold twinNode, twin, theNode. rewrite Hra. cbn. by rewrite Hrt. }
  cbn. tauto.
Qed.

(** Only half-edges of the target are moved. *)
Lemma not_leaving (M : list adjEntry) b rb :
  (∀ a, a ∈ M → a ∈ la ++ lb) → adjMem g !! b = Some rb → a_node rb ≠ w → b ∉ M.
Proof.
  intros HM Hb Hn Hc.
  destruct (target_entry b) as (ra & _ & _ & Hra & Hnode & _).
  { apply walk_in_rotation. by apply HM. }
  congruence.
Qed.

Lemma spliced_step s (M : list adjEntry) gi adj ra r1 rwi rvi :
  spliced M gi → (∀ a, a ∈ M → a ∈ la ++ lb) → adj ∈ la ++ lb → adj ∉ M →
  adjMem g !! adj = Some ra → edgeMem g !! a_edge ra = Some r1 →
  end_adj s r1 = adj → end_node s r1 = w → end_node (negb s) r1 ≠ w →
  nodeMem gi !! w = Some rwi → nodeMem gi !! v = Some rvi →
  edgeMem gi !! a_edge ra = Some r1 ∧ adjMem gi !! adj = Some ra ∧
  spliced (M ++ [adj])
    (moved_graph s gi (a_edge ra) r1 ra rwi rvi v
       (lbv ++ (M ++ [adj]) ++ m_adjSrc re :: lav)).
Proof.
  intros (Swf & Sn & Se & Sh & Sa & Sed & So & Sw & Sv) HM Hadj HadjM Hra Hr1 Hs1 Hs2 Hs3
    Hrwi Hrvi.
  destruct (wf_edge _ _ _ Hwf Hr1)
    as (_ & _ & Hst & (rs & Hrs & Es1 & Es2 & Es3) & (rt & Hrt & Et1 & Et2 & Et3) & _).
  destruct (target_entry adj (walk_in_rotation _ Hadj))
    as (ra' & _ & _ & Hra' & Hnode & Hshown & _).
  assert (ra' = ra) as -> by congruence.
  assert (Hother : (end_adj (negb s) r1 ∉ M) ∧ end_adj (negb s) r1 ≠ adj).
  { destruct s; cbn in *; (split; [|congruence]).
    - apply (not_leaving M _ rt); [done|done|congruence].
    - apply (not_leaving M _ rs); [done|done|congruence]. }
  destruct Hother as [HoM Hoadj].
  assert (Hsame : spliced_edge M r1 = r1).
  { unfold spliced_edge.
    destruct s; cbn in *; subst adj.
    - destruct (decide (m_adjSrc r1 ∈ M)); [done|].
      destruct (decide (m_adjTgt r1 ∈ M)); [done|]. apply edge_eta.
    - destruct (decide (m_adjSrc r1 ∈ M)); [done|].
      destruct (decide (m_adjTgt r1 ∈ M)); [done|]. apply edge_eta. }
  assert (Hei : edgeMem gi !! a_edge ra = Some r1).
  { rewrite Sed, Hr1. cbn. by rewrite Hsame. }
  assert (Hai : adjMem gi !! adj = Some ra).
  { rewrite Sa, Hra. cbn. unfold spliced_adj. by destruct (decide (adj ∈ M)). }
  split; [done|]. split; [done|].
  assert (Hrotv : adjEdges rvi = lbv ++ M ++ m_adjSrc re :: lav).
  { unfold rotation in Sv. rewrite Hrvi in Sv. cbn in Sv. congruence. }
  assert (Hrotw : adjEdges rwi = filter (λ a, a ∉ M) (lb ++ m_adjTgt re :: la)).
  { unfold rotation in Sw. rewrite Hrwi in Sw. cbn in Sw. congruence. }
  split.
  { apply moved_graph_wf; try done.
    - by rewrite Se.
    - by rewrite Hs1.
    - by rewrite Hs2.
    - rewrite Hs2. congruence.
    - rewrite Hs1, Hrotv. apply perm_snoc_middle. }
  split; [done|]. split; [done|]. split; [done|]. split.
  { intros b. unfold moved_graph. cbn [adjMem]. rewrite Hs1.
    destruct (decide (b = adj)) as [->|Hb].
    - rewrite lookup_insert_eq, Hra. cbn. unfold spliced_adj.
      destruct (decide (adj ∈ M ++ [adj])) as [_|Hc]; [done|].
      exfalso. apply Hc. apply elem_of_app. right. by left.
    - rewrite lookup_insert_ne by done. rewrite Sa.
      destruct (adjMem g !! b) as [rb|]; [|done]. cbn. unfold spliced_adj.
      destruct (decide (b ∈ M)) as [H1|H1]; destruct (decide (b ∈ M ++ [adj])) as [H2|H2];
        try done.
      + exfalso. apply H2. apply elem_of_app. by left.
      + exfalso. apply elem_of_app in H2 as [H2|H2]; [done|].
        by apply list_elem_of_singleton in H2. }
  split.
  { intros e1. unfold moved_graph. cbn [edgeMem].
    destruct (decide (e1 = a_edge ra)) as [->|Hne].
    - rewrite lookup_insert_eq, Hr1. cbn. f_equal. unfold spliced_edge.
      assert (Hin1 : end_adj s r1 ∈ M ++ [adj]).
      { rewrite Hs1. apply elem_of_app. right. by left. }
      assert (Hin2 : end_adj (negb s) r1 ∉ M ++ [adj]).
      { intros Hc. apply elem_of_app in Hc as [Hc|Hc]; [done|].
        by apply list_elem_of_singleton in Hc. }
      destruct s; cbn in *.
      + destruct (decide (m_adjSrc r1 ∈ M ++ [adj])); [|done].
        destruct (decide (m_adjTgt r1 ∈ M ++ [adj])); [done|]. done.
      + destruct (decide (m_adjSrc r1 ∈ M ++ [adj])); [done|].
        destruct (decide (m_adjTgt r1 ∈ M ++ [adj])); [|done]. done.
    - rewrite lookup_insert_ne by done. rewrite Sed.
      destruct (edgeMem g !! e1) as [r2|] eqn:Hr2; [|done]. cbn. f_equal.
      destruct (wf_adj_distinct _ _ _ _ _ Hwf Hr1 Hr2 ltac:(congruence))
        as (D1 & D2 & D3 & D4).
      assert (Hn1 : m_adjSrc r2 ≠ adj) by (destruct s; cbn in *; congruence).
      assert (Hn2 : m_adjTgt r2 ≠ adj) by (destruct s; cbn in *; congruence).
      unfold spliced_edge.
      assert (Hiff : ∀ b, b ≠ adj → b ∈ M ++ [adj] ↔ b ∈ M).
      { intros b Hb. rewrite elem_of_app, list_elem_of_singleton. tauto. }
      destruct (decide (m_adjSrc r2 ∈ M)) as [H1|H1];
        destruct (decide (m_adjSrc r2 ∈ M ++ [adj])) as [H1'|H1'];
        try (exfalso; apply Hiff in H1'; done);
        try (exfalso; apply H1'; apply Hiff; done);
      destruct (decide (m_adjTgt r2 ∈ M)) as [H2|H2];
        destruct (decide (m_adjTgt r2 ∈ M ++ [adj])) as [H2'|H2'];
        try (exfalso; apply Hiff in H2'; done);
        try (exfalso; apply H2'; apply Hiff; done); done. }
  split.
  { intros y Hyv Hyw. unfold moved_graph. cbn [nodeMem]. rewrite Hs2.
    rewrite !lookup_insert_ne by done. by apply So. }
  split.
  { unfold rotation, moved_graph. cbn [nodeMem]. rewrite Hs1, Hs2.
    rewrite lookup_insert_ne by done. rewrite lookup_insert_eq. cbn. f_equal.
    assert (Hrot : adjEdges (deg_dec s (with_adjEdges (filter (λ b, b ≠ adj) (adjEdges rwi)) rwi))
                   = filter (λ b, b ≠ adj) (adjEdges rwi)) by (by destruct s).
    rewrite Hrot, Hrotw, list_filter_filter. apply list_filter_iff.
    intros b. rewrite elem_of_app, list_elem_of_singleton. tauto. }
  unfold rotation, moved_graph. cbn [nodeMem]. rewrite lookup_insert_eq. cbn. f_equal.
  by destruct s.
Qed.

Lemma target_rotation :
  NoDup (lb ++ m_adjTgt re :: la) ∧ Forall (λ a, a ≠ nullptr) (lb ++ m_adjTgt re :: la).
Proof.
  unfold rotation in Hrw.
  destruct (nodeMem g !! w) as [rw|] eqn:Hnw; [|done]. cbn in Hrw. injection Hrw as Hrot.
  destruct (wf_node _ _ _ Hwf Hnw) as (_ & _ & Hnd & Hall). rewrite Hrot in *.
  split; [done|]. eapply Forall_impl; [exact Hall|].
  intros a (ra & Hra & _). destruct (wf_adj _ _ _ Hwf Hra) as (Hb & _).
  unfold nullptr. lia.
Qed.

Lemma leaving_snoc_stay P adj :
  twinNode g adj = Some v → leaving (P ++ [adj]) = leaving P.
Proof.
  intros Ht. unfold leaving. rewrite filter_app, filter_cons_False by (by intros Hc).
  cbn. by rewrite app_nil_r.
Qed.

Lemma leaving_snoc_move P adj :
  twinNode g adj ≠ Some v → leaving (P ++ [adj]) = leaving P ++ [adj].
Proof.
  intros Ht. unfold leaving. by rewrite filter_app, filter_cons_True by done.
Qed.

Lemma runs_contract_loop (R : list adjEntry) : ∀ P gi h fuel,
  spliced (leaving P) gi → la ++ lb = P ++ R → (length R ≤ fuel)%nat →
  runs (contract_loop fuel v w (m_adjSrc re) (m_adjTgt re) (hd (m_adjTgt re) R))
    (mkWorld gi h)
    (λ _ w', spliced (leaving (la ++ lb)) (graph w') ∧ heard w' = h).
Proof.
  destruct target_rotation as [HndW HnzW].
  induction R as [|adj R IH]; intros P gi h fuel HS Hsplit Hfuel.
  - cbn [hd]. rewrite app_nil_r in Hsplit. subst P.
    destruct fuel; cbn [contract_loop]; rewrite Nat.eqb_refl; by apply runs_ret.
  - cbn [hd]. destruct fuel as [|fuel]; [cbn in Hfuel; lia|]. cbn in Hfuel.
    assert (Hperm : lb ++ m_adjTgt re :: la ≡ₚ m_adjTgt re :: P ++ adj :: R).
    { rewrite <- Hsplit, (Permutation_app_comm lb). done. }
    assert (HndL : NoDup (m_adjTgt re :: P ++ adj :: R)) by (by rewrite <- Hperm).
    apply NoDup_cons in HndL as [HtL HndL].
    apply NoDup_app in HndL as (_ & HPR & _).
    assert (Hadj : adj ∈ la ++ lb).
    { rewrite Hsplit. apply elem_of_app. right. by left. }
    assert (Hne : adj ≠ m_adjTgt re).
    { intros ->. apply HtL. apply elem_of_app. right. by left. }
    assert (HMP : ∀ a, a ∈ leaving P → a ∈ P).
    { intros a Ha. by apply list_elem_of_filter in Ha as [_ Ha]. }
    assert (HM : ∀ a, a ∈ leaving P → a ∈ la ++ lb).
    { intros a Ha. rewrite Hsplit. apply elem_of_app. left. by apply HMP. }
    assert (HadjM : adj ∉ leaving P).
    { intros Hc. apply (HPR adj (HMP _ Hc)). by left. }
    destruct (target_entry adj (walk_in_rotation _ Hadj))
      as (ra & r1 & rt & Hra & Hnode & Hshown & Hr1 & Hrt & Hrtw & Htwin & Hside).
    pose proof HS as (Swf & Sn & Se & Sh & Sa & Sed & So & Sw & Sv).
    assert (Hai : adjMem gi !! adj = Some ra).
    { rewrite Sa, Hra. cbn. unfold spliced_adj. by destruct (decide (adj ∈ leaving P)). }
    assert (Hti : adjMem gi !! a_twin ra = Some rt).
    { rewrite Sa, Hrt. cbn. unfold spliced_adj.
      destruct (decide (a_twin ra ∈ leaving P)) as [Hc|_]; [|done].
      by destruct (not_leaving _ _ _ HM Hrt Hrtw). }
    unfold rotation in Sw, Sv.
    destruct (nodeMem gi !! w) as [rwi|] eqn:Hrwi; [|done].
    destruct (nodeMem gi !! v) as [rvi|] eqn:Hrvi; [|done].
    cbn in Sw, Sv. injection Sw as Hrotw. injection Sv as Hrotv.
    cbn [contract_loop]. destruct (Nat.eqb_spec adj (m_adjTgt re)) as [Hc|_]; [done|].
    apply runs_bind. eapply runs_lift.
    { cbn. unfold cyclicSucc, theNode. rewrite Hai. cbn. rewrite Hnode, Hrwi. cbn.
      rewrite Hrotw. by apply (filtered_cyclicSucc lb la P R). }
    apply runs_bind. eapply runs_lift.
    { cbn. unfold twinNode, twin, theNode. rewrite Hai. cbn. by rewrite Hti. }
    cbn beta. destruct (Nat.eqb_spec (a_node rt) v) as [Hskip|Hmove].
    + apply (IH (P ++ [adj])); [|by rewrite <- app_assoc|lia].
      rewrite leaving_snoc_stay; [done|]. congruence.
    + assert (Hmv : twinNode g adj ≠ Some v) by congruence.
      destruct (wf_edge _ _ _ Hwf He)
        as (_ & _ & _ & (rse & Hrse & _ & Esn & _) & _).
      assert (Hpi : adjMem gi !! m_adjSrc re = Some rse).
      { rewrite Sa, Hrse. cbn. unfold spliced_adj.
        destruct (decide (m_adjSrc re ∈ leaving P)) as [Hc|_]; [|done].
        destruct (not_leaving _ _ _ HM Hrse); [congruence|done]. }
      assert (Hpv : a_node rse = v) by congruence.
      destruct (wf_node _ _ _ Swf Hrwi) as (_ & _ & HndWi & _).
      destruct (wf_node _ _ _ Swf Hrvi) as (_ & _ & HndVi & _).
      assert (Hins : insertAt before adj (m_adjSrc re) (adjEdges rvi)
                     = Some (lbv ++ (leaving P ++ [adj]) ++ m_adjSrc re :: lav)).
      { rewrite Hrotv. rewrite Hrotv in HndVi. rewrite app_assoc in HndVi |- *.
        apply NoDup_app in HndVi as (_ & Hd & _).
        cbn [insertAt]. rewrite insertBefore_app.
        - f_equal. rewrite <- !app_assoc. done.
        - intros Hc. apply (Hd _ Hc). by left. }
      assert (Hadjw : adj ∈ adjEdges rwi).
      { rewrite Hrotw. apply list_elem_of_filter. split; [done|].
        by apply walk_in_rotation. }
      apply runs_bind. eapply runs_lift.
      { cbn. unfold theEdge. by rewrite Hai. }
      destruct Hside as [(Hs1 & Hs2 & Hs3 & Hs4)|(Hs1 & Hs2 & Hs3 & Hs4)].
      * destruct (spliced_step true (leaving P) gi adj ra r1 rwi rvi)
          as (Hei & _ & HS'); try done; [cbn in *; congruence|].
        cbn in Hs1, Hs3.
        apply runs_bind. eapply runs_lift.
        { cbn. unfold source. by rewrite Hei. }
        cbn beta. rewrite Hs3, Nat.eqb_refl.
        apply runs_bind. eapply runs_mono.
        { apply (runs_moveSource_at gi h (a_edge ra) r1 ra rwi rvi (m_adjSrc re) rse before
                   (lbv ++ (leaving P ++ [adj]) ++ m_adjSrc re :: lav)); try done.
          - by rewrite Hs1.
          - by rewrite Hs3.
          - by rewrite Hs1.
          - by rewrite Hpv.
          - rewrite Hs3, Hpv. done.
          - by rewrite Hs1. }
        intros _ w' ->. cbn beta. rewrite Hpv.
        apply (IH (P ++ [adj])); [|by rewrite <- app_assoc|lia].
        by rewrite leaving_snoc_move.
      * destruct (spliced_step false (leaving P) gi adj ra r1 rwi rvi)
          as (Hei & _ & HS'); try done; [cbn in *; congruence|].
        cbn in Hs1, Hs3, Hs4.
        apply runs_bind. eapply runs_lift.
        { cbn. unfold source. by rewrite Hei. }
        cbn beta. destruct (Nat.eqb_spec w (m_src r1)) as [Hc|_]; [congruence|].
        apply runs_bind. eapply runs_mono.
        { apply (runs_moveTarget_at gi h (a_edge ra) r1 ra rwi rvi (m_adjSrc re) rse before
                   (lbv ++ (leaving P ++ [adj]) ++ m_adjSrc re :: lav)); try done.
          - by rewrite Hs1.
          - by rewrite Hs3.
          - by rewrite Hs1.
          - by rewrite Hpv.
          - rewrite Hs3, Hpv. done.
          - by rewrite Hs1. }
        intros _ w' ->. cbn beta. rewrite Hpv.
        apply (IH (P ++ [adj])); [|by rewrite <- app_assoc|lia].
        by rewrite leaving_snoc_move.
Qed.

Lemma walk_bound : (length (la ++ lb) ≤ size (adjMem g))%nat.
Proof.
  destruct target_rotation as [HndW _].
  apply NoDup_length_size.
  - assert (Hperm : lb ++ m_adjTgt re :: la ≡ₚ m_adjTgt re :: la ++ lb).
    { by rewrite (Permutation_app_comm lb). }
    rewrite Hperm in HndW. by apply NoDup_cons in HndW as [_ HndW].
  - intros a Ha. destruct (target_entry a (walk_in_rotation _ Ha)) as (ra & _ & _ & Hra & _).
    by exists ra.
Qed.

(** Which half-edges the loop has moved when it ends. *)
Lemma leaving_side s e1 r1 :
  no_hidden_at g w → edgeMem g !! e1 = Some r1 →
  end_adj s r1 ∈ leaving (la ++ lb) ↔ end_node s r1 = w ∧ end_node (negb s) r1 ≠ v.
Proof.
  intros Hhid Hr1.
  destruct (wf_edge _ _ _ Hwf Hr1)
    as (_ & Hmem & Hst & (rs & Hrs & Es1 & Es2 & Es3) & (rt & Hrt & Et1 & Et2 & Et3) &
        (rn1 & Hrn1 & Hin1) & (rn2 & Hrn2 & Hin2)).
  destruct (wf_edge _ _ _ Hwf He) as (_ & _ & Hste & _ & (rte & Hrte & Ete & _) & _).
  assert (Htw : twinNode g (end_adj s r1) = Some (end_node (negb s) r1)).
  { unfold twinNode, twin, theNode. destruct s; cbn.
    - rewrite Hrs. cbn. rewrite Es3, Hrt. cbn. by rewrite Et2.
    - rewrite Hrt. cbn. rewrite Et3, Hrs. cbn. by rewrite Es2. }
  assert (Hown : ∃ ra, adjMem g !! end_adj s r1 = Some ra ∧ a_node ra = end_node s r1 ∧
                       a_edge ra = e1).
  { destruct s; cbn; [by exists rs|by exists rt]. }
  destruct Hown as (ra & Hra & Hnode & Hedge).
  split.
  - intros HM. apply list_elem_of_filter in HM as [Hmv HL].
    destruct (target_entry _ (walk_in_rotation _ HL)) as (ra' & _ & _ & Hra' & Hnode' & _).
    split; [congruence|]. rewrite Htw in Hmv. congruence.
  - intros [Hsw Htv]. apply list_elem_of_filter. split; [rewrite Htw; congruence|].
    assert (Hshown : e1 ∈ edges g).
    { apply elem_of_app in Hmem as [|Hh]; [done|].
      destruct (Hhid _ _ Hh Hr1). destruct s; cbn in *; congruence. }
    assert (Hne : end_adj s r1 ≠ m_adjTgt re).
    { intros Hc. rewrite Hc in Hra. assert (e1 = e) by congruence. subst e1.
      assert (r1 = re) by congruence. subst r1.
      destruct s; cbn in *; congruence. }
    unfold rotation in Hrw.
    destruct (nodeMem g !! w) as [rw|] eqn:Hnw; [|done]. cbn in Hrw. injection Hrw as Hrot.
    assert (Hat : end_adj s r1 ∈ lb ++ m_adjTgt re :: la).
    { rewrite <- Hrot. destruct s; cbn in *.
      - rewrite Hsw, Hnw in Hrn1. injection Hrn1 as <-. by apply Hin1.
      - rewrite Hsw, Hnw in Hrn2. injection Hrn2 as <-. by apply Hin2. }
    apply elem_of_app in Hat as [Hat|Hat]; [apply elem_of_app; by right|].
    apply elem_of_cons in Hat as [Hat|Hat]; [done|]. apply elem_of_app. by left.
Qed.

Lemma spliced_edge_joins e1 r1 :
  no_hidden_at g w → edgeMem g !! e1 = Some r1 → joins v w r1 →
  e1 ∈ edges g ∧ spliced_edge (leaving (la ++ lb)) r1 = r1.
Proof.
  intros Hhid Hr1 Hj.
  pose proof (leaving_side true e1 r1 Hhid Hr1) as Hs.
  pose proof (leaving_side false e1 r1 Hhid Hr1) as Ht. cbn in Hs, Ht.
  destruct (wf_edge _ _ _ Hwf Hr1) as (_ & Hmem & _).
  split.
  - apply elem_of_app in Hmem as [|Hh]; [done|].
    destruct (Hhid _ _ Hh Hr1). destruct Hj as [[? ?]|[? ?]]; congruence.
  - unfold spliced_edge.
    destruct (decide (m_adjSrc r1 ∈ leaving (la ++ lb))) as [H1|_].
    { apply Hs in H1. destruct Hj as [[? ?]|[? ?]]; destruct H1; congruence. }
    destruct (decide (m_adjTgt r1 ∈ leaving (la ++ lb))) as [H2|_].
    { apply Ht in H2. destruct Hj as [[? ?]|[? ?]]; destruct H2; congruence. }
    apply edge_eta.
Qed.

Lemma spliced_edge_other e1 r1 :
  no_hidden_at g w → edgeMem g !! e1 = Some r1 → ¬ joins v w r1 →
  contracted_edge v w r1 = Some (spliced_edge (leaving (la ++ lb)) r1) ∧
  m_src (spliced_edge (leaving (la ++ lb)) r1) ≠ w ∧
  m_tgt (spliced_edge (leaving (la ++ lb)) r1) ≠ w.
Proof.
  intros Hhid Hr1 Hj.
  pose proof (leaving_side true e1 r1 Hhid Hr1) as Hs.
  pose proof (leaving_side false e1 r1 Hhid Hr1) as Ht. cbn in Hs, Ht.
  assert (Hnl : ¬ (m_src r1 = w ∧ m_tgt r1 = w)).
  { intros [H1 H2]. by apply (Hloop _ _ Hr1 H1). }
  unfold contracted_edge. destruct (decide (joins v w r1)) as [|_]; [done|].
  unfold joins in Hj. unfold spliced_edge, redirect. cbn.
  destruct (decide (m_adjSrc r1 ∈ leaving (la ++ lb))) as [H1|H1];
    destruct (decide (m_adjTgt r1 ∈ leaving (la ++ lb))) as [H2|H2];
    destruct (decide (m_src r1 = w)) as [E1|E1];
    destruct (decide (m_tgt r1 = w)) as [E2|E2];
    try (apply Hs in H1; destruct H1); try (apply Ht in H2; destruct H2);
    try (exfalso; tauto); try (split; [done|split; congruence]).
Qed.

Lemma runs_contract h :
  no_hidden_at g w →
  runs (contract e) (mkWorld g h) (λ x w', x = v ∧ contracted g v w (graph w')).
Proof.
  intros Hhid.
  destruct target_rotation as [HndW HnzW].
  destruct (wf_edge _ _ _ Hwf He) as (_ & _ & Hste & _ & (rte & Hrte & Ete & Etn & _) & _).
  pose proof Hrw as Hrw'. unfold rotation in Hrw'.
  destruct (nodeMem g !! w) as [rw|] eqn:Hnw; [|done]. cbn in Hrw'. injection Hrw' as Hrot.
  unfold contract. mgo.
  eapply runs_lift.
  { cbn. unfold cyclicSucc, theNode. rewrite Hrte. cbn. rewrite Etn, Hw, Hnw. cbn.
    rewrite Hrot. apply list_cyclicSucc_app.
    - apply NoDup_app in HndW as (_ & Hd & _). intros Hc. apply (Hd _ Hc). by left.
    - apply Forall_app in HnzW as [_ HnzW]. by apply Forall_cons in HnzW as [_ HnzW]. }
  mgo. rewrite Hv, Hw.
  assert (Hfirst : hd (hd (m_adjTgt re) lb) la = hd (m_adjTgt re) (la ++ lb)).
  { by destruct la. }
  rewrite Hfirst.
  eapply runs_mono.
  { apply (runs_contract_loop (la ++ lb) [] g h); [apply spliced_nil|done|apply walk_bound]. }
  intros _ [gn hn] [HS Hh]. cbn in HS, Hh. subst hn.
  pose proof HS as (Swf & Sn & Se & Sh & Sa & Sed & So & Sw & Sv).
  assert (Hperm : lb ++ m_adjTgt re :: la ≡ₚ m_adjTgt re :: la ++ lb).
  { by rewrite (Permutation_app_comm lb). }
  assert (HtL : m_adjTgt re ∉ la ++ lb).
  { rewrite Hperm in HndW. by apply NoDup_cons in HndW as [HtL _]. }
  apply runs_bind. eapply runs_lift.
  { cbn. unfold theNode. rewrite Sa, Hrte. cbn. unfold spliced_adj.
    destruct (decide (m_adjTgt re ∈ leaving (la ++ lb))) as [Hc|_]; [|reflexivity].
    apply list_elem_of_filter in Hc as [_ Hc]. done. }
  rewrite Etn, Hw.
  unfold rotation in Sw. destruct (nodeMem gn !! w) as [rwn|] eqn:Hrwn; [|done].
  apply runs_bind. eapply runs_mono.
  { apply (runs_delNode gn h w rwn); [done|done|].
    intros e1 rn Hh Hrn. rewrite Sh in Hh. rewrite Sed in Hrn.
    destruct (edgeMem g !! e1) as [r1|] eqn:Hr1; [|done]. cbn in Hrn. injection Hrn as <-.
    destruct (Hhid _ _ Hh Hr1) as [H1 H2].
    destruct (spliced_edge_other e1 r1 Hhid Hr1) as (_ & H3 & H4); [|done].
    intros [[? ?]|[? ?]]; congruence. }
  intros _ [g' h'] (g1 & Hwf1 & Hd & Hrot1 & Heq & Hwf'). cbn in Heq, Hwf'.
  apply runs_ret. split; [done|]. cbn [graph].
  destruct Hd as (D1 & D2 & D3 & D4 & D5 & D6 & D7 & D8).
  split; [done|]. subst g'. split; [cbn; by rewrite D1, Sn|].
  split; [cbn; by rewrite lookup_delete_eq|]. split.
  { intros e1. cbn [node_removed set_nodeMem set_nodes edgeMem].
    destruct (edgeMem g !! e1) as [r1|] eqn:Hr1; cbn.
    - assert (Hn : edgeMem gn !! e1 = Some (spliced_edge (leaving (la ++ lb)) r1)).
      { by rewrite Sed, Hr1. }
      destruct (decide (joins v w r1)) as [Hj|Hj].
      + unfold contracted_edge. destruct (decide (joins v w r1)); [|done].
        destruct (spliced_edge_joins e1 r1 Hhid Hr1 Hj) as [Hshown Hsame].
        rewrite Hsame in Hn.
        destruct (edgeMem g1 !! e1) as [r'|] eqn:Hr'; [|done]. exfalso.
        pose proof (D4 _ _ Hr') as Hr''. assert (r' = r1) as -> by congruence.
        assert (Hin1 : e1 ∈ edges g1).
        { rewrite D6. apply list_elem_of_filter. split; [by eexists|]. by rewrite Se. }
        destruct (wf_isolated g1 w e1 r1 Hwf1 Hrot1 Hin1 Hr') as [H1 H2].
        destruct Hj as [[? ?]|[? ?]]; congruence.
      + destruct (spliced_edge_other e1 r1 Hhid Hr1 Hj) as (Hc & H1 & H2).
        rewrite Hc.
        destruct (edgeMem g1 !! e1) as [r'|] eqn:Hr'.
        * pose proof (D4 _ _ Hr') as Hr''. congruence.
        * destruct (D5 _ _ Hn Hr') as [_ [?|?]]; done.
    - destruct (edgeMem g1 !! e1) as [r'|] eqn:Hr'; [|done].
      pose proof (D4 _ _ Hr') as Hr''. rewrite Sed, Hr1 in Hr''. done. }
  split; [|cbn; by rewrite D2, Sh].
  cbn [node_removed set_nodeMem set_nodes edges edgeMem]. by rewrite D6, Se.
Qed.

End contraction.

(** Two nodes joined by two parallel edges. *)
Definition parallel_pair : Graph :=
  default Graph_new
    (exec (a <- newNode ;; b <- newNode ;; newEdge a b ;;; newEdge a b ;;; ret tt) Graph_new).

(** Three nodes: two parallel edges from the first to the second, and one
    edge each way between the second and the third. *)
Definition kite : Graph :=
  default Graph_new
    (exec (a <- newNode ;; b <- newNode ;; c <- newNode ;;
           newEdge a b ;;; newEdge a b ;;; newEdge b c ;;; newEdge c b ;;; ret tt) Graph_new).




(** * Further properties of the operations *)

(** ** Deleting an edge or a node *)

(** X1: [delEdge e] on an edge of the edge list of a well-formed graph
    succeeds and leaves a well-formed graph: the edge and its two
    adjacency entries are freed, the edge list and the rotations of its
    ends lose them and keep their order, the degrees of the ends are
    decremented, nothing else changes, and every observer has heard
    [edgeDeleted e] exactly once, while the graph was still unchanged. *)
Theorem delEdge_effect g h e re :
  wf g → e ∈ edges g → edgeMem g !! e = Some re →
  runs (delEdge e) (mkWorld g h) (λ _ w',
    wf (graph w') ∧
    edgeMem (graph w') = delete e (edgeMem g) ∧
    adjMem (graph w') = delete (m_adjTgt re) (delete (m_adjSrc re) (adjMem g)) ∧
    edges (graph w') = filter (λ x, x ≠ e) (edges g) ∧
    nodes (graph w') = nodes g ∧ m_hiddenEdges (graph w') = m_hiddenEdges g ∧
    (∀ v, nodeMem (graph w') !! v =
          (λ r, mkNode (n_id r) (m_indeg r - is_end v (m_tgt re))
                       (m_outdeg r - is_end v (m_src re))
                       (filter (λ a, a ≠ m_adjSrc re ∧ a ≠ m_adjTgt re) (adjEdges r)))
            <$> nodeMem g !! v) ∧
    heard w' = h ++ map (λ o, mkNote o (edgeDeleted e) g) (m_regStructures g)).
Proof.
  intros Hwf Hin He.
  eapply runs_mono; [by apply runs_delEdge|].
  intros _ w' ->. cbn [graph heard].
  split; [by apply deleted_graph_wf|].
  repeat (split; [reflexivity|]). split; [|reflexivity].
  intros v. cbn. rewrite map_lookup_imap. by destruct (nodeMem g !! v).
Qed.

Lemma delEdge_effect_witness :
  ∃ re, edgeMem kite !! 12%nat = Some re ∧
  runs (delEdge 12%nat) (mkWorld kite []) (λ _ w',
    wf (graph w') ∧
    edgeMem (graph w') = delete 12%nat (edgeMem kite) ∧
    adjMem (graph w') = delete (m_adjTgt re) (delete (m_adjSrc re) (adjMem kite)) ∧
    edges (graph w') = filter (λ x, x ≠ 12%nat) (edges kite) ∧
    nodes (graph w') = nodes kite ∧ m_hiddenEdges (graph w') = m_hiddenEdges kite ∧
    (∀ v, nodeMem (graph w') !! v =
          (λ r, mkNode (n_id r) (m_indeg r - is_end v (m_tgt re))
                       (m_outdeg r - is_end v (m_src re))
                       (filter (λ a, a ≠ m_adjSrc re ∧ a ≠ m_adjTgt re) (adjEdges r)))
            <$> nodeMem kite !! v) ∧
    heard w' = [] ++ map (λ o, mkNote o (edgeDeleted 12%nat) kite) (m_regStructures kite)).
Proof.
  eexists. split; [vm_compute; reflexivity|].
  apply (delEdge_effect kite [] 12%nat).
  - apply (bool_decide_unpack _). vm_compute. reflexivity.
  - apply (bool_decide_unpack _). vm_compute. reflexivity.
  - vm_compute. reflexivity.
Defined.

(** X2: [delNode v] on a node of a well-formed graph with no hidden edge
    at [v] succeeds and leaves a well-formed graph: [v] has left the node
    list and the store, exactly the edges with an end at [v] are deleted,
    every other edge keeps its record, the edge list and the rotations of
    the other nodes keep what is left of them in the old order, and the
    other nodes keep their index. *)
Theorem delNode_effect g h v r :
  wf g → nodeMem g !! v = Some r → no_hidden_at g v →
  runs (delNode v) (mkWorld g h) (λ _ w',
    wf (graph w') ∧
    nodes (graph w') = filter (λ x, x ≠ v) (nodes g) ∧
    nodeMem (graph w') !! v = None ∧
    (∀ e, edgeMem (graph w') !! e =
          edgeMem g !! e ≫= λ re, if decide (m_src re = v ∨ m_tgt re = v)
                                  then None else Some re) ∧
    edges (graph w') = filter (λ e, is_Some (edgeMem (graph w') !! e)) (edges g) ∧
    m_hiddenEdges (graph w') = m_hiddenEdges g ∧
    (∀ x rx, x ≠ v → nodeMem g !! x = Some rx →
       ∃ rx', nodeMem (graph w') !! x = Some rx' ∧ n_id rx' = n_id rx ∧
              adjEdges rx' = filter (λ a, is_Some (adjMem (graph w') !! a)) (adjEdges rx))).
Proof.
  intros Hwf Hr Hhid.
  eapply runs_mono; [by apply (runs_delNode g h v r)|].
  intros _ w' (g1 & Hwf1 & Hd & Hrot1 & Heq & Hwf'). rewrite Heq in *. clear Heq.
  destruct Hd as (D1 & D2 & D3 & D4 & D5 & D6 & D7 & D8).
  split; [done|]. split; [cbn; by rewrite D1|].
  split; [cbn; by rewrite lookup_delete_eq|]. split.
  { intros e. cbn [node_removed set_nodeMem set_nodes edgeMem].
    destruct (edgeMem g !! e) as [re|] eqn:Hre; cbn.
    - destruct (decide (m_src re = v ∨ m_tgt re = v)) as [Hinc|Hinc].
      + destruct (edgeMem g1 !! e) as [r'|] eqn:Hr'; [|done]. exfalso.
        pose proof (D4 _ _ Hr') as Hr''. assert (r' = re) as -> by congruence.
        assert (Hshown : e ∈ edges g).
        { destruct (wf_edge _ _ _ Hwf Hre) as (_ & Hmem & _).
          apply elem_of_app in Hmem as [|Hh]; [done|].
          destruct (Hhid _ _ Hh Hre). tauto. }
        assert (Hin1 : e ∈ edges g1).
        { rewrite D6. apply list_elem_of_filter. split; [by eexists|done]. }
        destruct (wf_isolated g1 v e re Hwf1 Hrot1 Hin1 Hr'). tauto.
      + destruct (edgeMem g1 !! e) as [r'|] eqn:Hr'.
        * pose proof (D4 _ _ Hr') as Hr''. congruence.
        * destruct (D5 _ _ Hre Hr') as [_ ?]. tauto.
    - destruct (edgeMem g1 !! e) as [r'|] eqn:Hr'; [|done].
      pose proof (D4 _ _ Hr') as Hr''. congruence. }
  split; [done|]. split; [cbn; done|].
  intros x rx Hx Hrx. specialize (D8 x). rewrite Hrx in D8.
  destruct (nodeMem g1 !! x) as [rx'|] eqn:Hrx'; [|done].
  exists rx'. cbn. by rewrite lookup_delete_ne.
Qed.

Lemma delNode_effect_witness :
  runs (delNode 2%nat) (mkWorld kite []) (λ _ w',
    wf (graph w') ∧
    nodes (graph w') = filter (λ x, x ≠ 2%nat) (nodes kite) ∧
    nodeMem (graph w') !! 2%nat = None ∧
    (∀ e, edgeMem (graph w') !! e =
          edgeMem kite !! e ≫= λ re, if decide (m_src re = 2%nat ∨ m_tgt re = 2%nat)
                                     then None else Some re) ∧
    edges (graph w') = filter (λ e, is_Some (edgeMem (graph w') !! e)) (edges kite) ∧
    m_hiddenEdges (graph w') = m_hiddenEdges kite ∧
    (∀ x rx, x ≠ 2%nat → nodeMem kite !! x = Some rx →
       ∃ rx', nodeMem (graph w') !! x = Some rx' ∧ n_id rx' = n_id rx ∧
              adjEdges rx' = filter (λ a, is_Some (adjMem (graph w') !! a)) (adjEdges rx))).
Proof.
  eapply (delNode_effect kite [] 2%nat).
  - apply (bool_decide_unpack _). vm_compute. reflexivity.
  - vm_compute. reflexivity.
  - intros e1 r1 Hh. exfalso. revert Hh. vm_compute. apply not_elem_of_nil.
Defined.

(** ** Moving an end of an edge to another node *)

(** What moving the end [s] of the edge [e] to the node [v] does, where
    [l] is the rotation of [v] afterwards: the graph stays well-formed,
    the edge has its end at [v] and its adjacency entry belongs to [v],
    the old end node has lost the entry from its rotation, one degree of
    each of the two nodes has changed by one, and nothing else changes. *)
Definition end_moved (s : bool) (g : Graph) (e : edge) (re : EdgeElement)
    (v : node) (l : list adjEntry) (g' : Graph) : Prop :=
  wf g' ∧ nodes g' = nodes g ∧ edges g' = edges g ∧
  m_hiddenEdges g' = m_hiddenEdges g ∧
  edgeMem g' = <[e := with_end s v re]> (edgeMem g) ∧
  (∃ ra, adjMem g !! end_adj s re = Some ra ∧
         adjMem g' = <[end_adj s re := with_node v ra]> (adjMem g)) ∧
  (∃ rx rx', nodeMem g !! end_node s re = Some rx ∧
     nodeMem g' !! end_node s re = Some rx' ∧ n_id rx' = n_id rx ∧
     adjEdges rx' = filter (λ b, b ≠ end_adj s re) (adjEdges rx) ∧
     m_outdeg rx' = m_outdeg rx - (if s then 1 else 0) ∧
     m_indeg rx' = m_indeg rx - (if s then 0 else 1)) ∧
  (∃ rv rv', nodeMem g !! v = Some rv ∧ nodeMem g' !! v = Some rv' ∧
     n_id rv' = n_id rv ∧ adjEdges rv' = l ∧
     m_outdeg rv' = m_outdeg rv + (if s then 1 else 0) ∧
     m_indeg rv' = m_indeg rv + (if s then 0 else 1)) ∧
  (∀ y, y ≠ end_node s re → y ≠ v → nodeMem g' !! y = nodeMem g !! y).

Lemma moved_graph_end_moved s g e re ra rx rv v l :
  wf g → e ∈ edges g → edgeMem g !! e = Some re →
  adjMem g !! end_adj s re = Some ra → nodeMem g !! end_node s re = Some rx →
  nodeMem g !! v = Some rv → end_node s re ≠ v → l ≡ₚ end_adj s re :: adjEdges rv →
  end_moved s g e re v l (moved_graph s g e re ra rx rv v l).
Proof.
  intros Hwf Hin He Ha Hx Hv Hne Hl.
  split; [by apply moved_graph_wf|].
  split; [done|]. split; [done|]. split; [done|]. split; [done|].
  split; [by exists ra|]. split.
  { exists rx. eexists. split; [done|]. split.
    { cbn. rewrite lookup_insert_ne by done. by rewrite lookup_insert_eq. }
    destruct s; cbn; repeat split; lia. }
  split.
  { exists rv. eexists. split; [done|]. split; [cbn; by rewrite lookup_insert_eq|].
    destruct s; cbn; repeat split; lia. }
  intros y Hy1 Hy2. cbn. by rewrite !lookup_insert_ne.
Qed.

Lemma runs_moveSource g h e re ra rx rv v :
  edgeMem g !! e = Some re → adjMem g !! m_adjSrc re = Some ra →
  nodeMem g !! m_src re = Some rx → NoDup (adjEdges rx) → m_adjSrc re ∈ adjEdges rx →
  nodeMem g !! v = Some rv → m_src re ≠ v →
  runs (moveSource e v) (mkWorld g h)
    (λ _ w', w' = mkWorld (moved_graph true g e re ra rx rv v
                             (adjEdges rv ++ [m_adjSrc re])) h).
Proof.
  intros He Ha Hx Hnd Hin Hv Hne.
  unfold moveSource. mgo. unfold adjEdges_move. mgo.
  eapply runs_unlink_adj; [lk; reflexivity|by apply unlink_filter|]. mgo.
  unfold moved_graph, end_node, end_adj, with_end, deg_inc, deg_dec, pushBack. mred.
  do 2 f_equal.
  apply map_eq. intros y.
  destruct (decide (y = v)) as [->|Hy1]; [by rewrite !lookup_insert_eq|].
  rewrite !(lookup_insert_ne _ v) by done.
  destruct (decide (y = m_src re)) as [->|Hy2]; [by rewrite !lookup_insert_eq|].
  by rewrite !lookup_insert_ne by done.
Qed.

Lemma runs_moveTarget g h e re ra rx rv v :
  edgeMem g !! e = Some re → adjMem g !! m_adjTgt re = Some ra →
  nodeMem g !! m_tgt re = Some rx → NoDup (adjEdges rx) → m_adjTgt re ∈ adjEdges rx →
  nodeMem g !! v = Some rv → m_tgt re ≠ v →
  runs (moveTarget e v) (mkWorld g h)
    (λ _ w', w' = mkWorld (moved_graph false g e re ra rx rv v
                             (adjEdges rv ++ [m_adjTgt re])) h).
Proof.
  intros He Ha Hx Hnd Hin Hv Hne.
  unfold moveTarget. mgo. unfold adjEdges_move. mgo.
  eapply runs_unlink_adj; [lk; reflexivity|by apply unlink_filter|]. mgo.
  unfold moved_graph, end_node, end_adj, with_end, deg_inc, deg_dec, pushBack. mred.
  do 2 f_equal.
  apply map_eq. intros y.
  destruct (decide (y = v)) as [->|Hy1]; [by rewrite !lookup_insert_eq|].
  rewrite !(lookup_insert_ne _ v) by done.
  destruct (decide (y = m_tgt re)) as [->|Hy2]; [by rewrite !lookup_insert_eq|].
  by rewrite !lookup_insert_ne by done.
Qed.

(** The entry [a] put next to [pos] in a rotation. *)
Definition placed (dir : Direction) (a pos : adjEntry) (l1 l2 : list adjEntry) :
    list adjEntry :=
  match dir with
  | before => l1 ++ a :: pos :: l2
  | after => l1 ++ pos :: a :: l2
  end.

Lemma insertAt_placed dir a pos l1 l2 :
  pos ∉ l1 → insertAt dir a pos (l1 ++ pos :: l2) = Some (placed dir a pos l1 l2).
Proof.
  intros Hp. destruct dir; cbn; [by apply insertAfter_app|by apply insertBefore_app].
Qed.

(** What the four operations need to know about the end they move. *)
Lemma wf_end s g e re :
  wf g → e ∈ edges g → edgeMem g !! e = Some re →
  ∃ ra rx, adjMem g !! end_adj s re = Some ra ∧ nodeMem g !! end_node s re = Some rx ∧
           NoDup (adjEdges rx) ∧ end_adj s re ∈ adjEdges rx.
Proof.
  intros Hwf Hin He.
  destruct (wf_edge_ends _ _ _ Hwf Hin He)
    as (_ & _ & rs & rt & Hrs & Hrt & Hnd1 & Hnd2 & Hs & Ht & _).
  destruct (wf_edge _ _ _ Hwf He) as (_ & _ & _ & (ras & Hras & _) & (rat & Hrat & _) & _).
  destruct s; cbn; [by exists ras, rs|by exists rat, rt].
Qed.

(** X3: [moveSource(e, v)] on an edge of the edge list of a well-formed
    graph, to a node [v] other than its source, succeeds without
    notifying anyone: the source side of [e] is appended to the rotation
    of [v], [v] is the source of [e], and the graph is as [end_moved]
    says (well-formed, out-degrees adjusted, nothing else changed). *)
Theorem moveSource_effect g h e re v rv :
  wf g → e ∈ edges g → edgeMem g !! e = Some re →
  nodeMem g !! v = Some rv → m_src re ≠ v →
  runs (moveSource e v) (mkWorld g h) (λ _ w',
    heard w' = h ∧ source (graph w') e = Some v ∧ target (graph w') e = Some (m_tgt re) ∧
    end_moved true g e re v (adjEdges rv ++ [m_adjSrc re]) (graph w')).
Proof.
  intros Hwf Hin He Hv Hne.
  destruct (wf_end true g e re Hwf Hin He) as (ra & rx & Ha & Hx & Hnd & Hax).
  eapply runs_mono; [by apply (runs_moveSource g h e re ra rx rv v)|].
  intros _ w' ->. cbn [graph heard]. split; [done|].
  split; [unfold source; cbn; by rewrite lookup_insert_eq|].
  split; [unfold target; cbn; by rewrite lookup_insert_eq|].
  apply moved_graph_end_moved; try done.
  cbn. by rewrite Permutation_app_comm.
Qed.

Lemma moveSource_effect_witness :
  ∃ re rv, edgeMem kite !! 12%nat = Some re ∧ nodeMem kite !! 1%nat = Some rv ∧
  runs (moveSource 12%nat 1%nat) (mkWorld kite []) (λ _ w',
    heard w' = [] ∧ source (graph w') 12%nat = Some 1%nat ∧
    target (graph w') 12%nat = Some (m_tgt re) ∧
    end_moved true kite 12%nat re 1%nat (adjEdges rv ++ [m_adjSrc re]) (graph w')).
Proof.
  do 2 eexists. split; [vm_compute; reflexivity|]. split; [vm_compute; reflexivity|].
  apply (moveSource_effect kite [] 12%nat).
  - apply (bool_decide_unpack _). vm_compute. reflexivity.
  - apply (bool_decide_unpack _). vm_compute. reflexivity.
  - vm_compute. reflexivity.
  - vm_compute. reflexivity.
  - vm_compute. lia.
Defined.

(** X4: [moveTarget(e, v)] on an edge of the edge list of a well-formed
    graph, to a node [v] other than its target, succeeds without
    notifying anyone: the target side of [e] is appended to the rotation
    of [v], [v] is the target of [e], and the graph is as [end_moved]
    says (well-formed, in-degrees adjusted, nothing else changed). *)
Theorem moveTarget_effect g h e re v rv :
  wf g → e ∈ edges g → edgeMem g !! e = Some re →
  nodeMem g !! v = Some rv → m_tgt re ≠ v →
  runs (moveTarget e v) (mkWorld g h) (λ _ w',
    heard w' = h ∧ source (graph w') e = Some (m_src re) ∧ target (graph w') e = Some v ∧
    end_moved false g e re v (adjEdges rv ++ [m_adjTgt re]) (graph w')).
Proof.
  intros Hwf Hin He Hv Hne.
  destruct (wf_end false g e re Hwf Hin He) as (ra & rx & Ha & Hx & Hnd & Hax).
  eapply runs_mono; [by apply (runs_moveTarget g h e re ra rx rv v)|].
  intros _ w' ->. cbn [graph heard]. split; [done|].
  split; [unfold source; cbn; by rewrite lookup_insert_eq|].
  split; [unfold target; cbn; by rewrite lookup_insert_eq|].
  apply moved_graph_end_moved; try done.
  cbn. by rewrite Permutation_app_comm.
Qed.

Lemma moveTarget_effect_witness :
  ∃ re rv, edgeMem kite !! 12%nat = Some re ∧ nodeMem kite !! 1%nat = Some rv ∧
  runs (moveTarget 12%nat 1%nat) (mkWorld kite []) (λ _ w',
    heard w' = [] ∧ source (graph w') 12%nat = Some (m_src re) ∧
    target (graph w') 12%nat = Some 1%nat ∧
    end_moved false kite 12%nat re 1%nat (adjEdges rv ++ [m_adjTgt re]) (graph w')).
Proof.
  do 2 eexists. split; [vm_compute; reflexivity|]. split; [vm_compute; reflexivity|].
  apply (moveTarget_effect kite [] 12%nat).
  - apply (bool_decide_unpack _). vm_compute. reflexivity.
  - apply (bool_decide_unpack _). vm_compute. reflexivity.
  - vm_compute. reflexivity.
  - vm_compute. reflexivity.
  - vm_compute. lia.
Defined.

(** X5: [moveSource(e, adjSrc, dir)]: the new source is the node of
    [adjSrc], and the source side of [e] is put directly before or after
    [adjSrc] in the rotation of that node, as [dir] says; the rest is as
    for [moveSource(e, v)]. *)
Theorem moveSource_at_effect g h e re pos rp rv dir l1 l2 :
  wf g → e ∈ edges g → edgeMem g !! e = Some re →
  adjMem g !! pos = Some rp → nodeMem g !! a_node rp = Some rv →
  adjEdges rv = l1 ++ pos :: l2 → m_src re ≠ a_node rp →
  runs (moveSource_at e pos dir) (mkWorld g h) (λ _ w',
    heard w' = h ∧ source (graph w') e = Some (a_node rp) ∧
    target (graph w') e = Some (m_tgt re) ∧
    end_moved true g e re (a_node rp) (placed dir (m_adjSrc re) pos l1 l2) (graph w')).
Proof.
  intros Hwf Hin He Hp Hv Hrot Hne.
  destruct (wf_end true g e re Hwf Hin He) as (ra & rx & Ha & Hx & Hnd & Hax).
  destruct (wf_node _ _ _ Hwf Hv) as (_ & _ & Hndv & _).
  assert (Hins : insertAt dir (m_adjSrc re) pos (adjEdges rv)
                 = Some (placed dir (m_adjSrc re) pos l1 l2)).
  { rewrite Hrot. apply insertAt_placed. rewrite Hrot in Hndv.
    apply NoDup_app in Hndv as (_ & Hd & _). intros Hc. apply (Hd _ Hc). by left. }
  eapply runs_mono; [by apply (runs_moveSource_at g h e re ra rx rv pos rp dir)|].
  intros _ w' ->. cbn [graph heard]. split; [done|].
  split; [unfold source; cbn; by rewrite lookup_insert_eq|].
  split; [unfold target; cbn; by rewrite lookup_insert_eq|].
  apply moved_graph_end_moved; try done.
  by apply (insertAt_perm dir _ pos).
Qed.

Lemma moveSource_at_effect_witness :
  ∃ re rp, edgeMem kite !! 12%nat = Some re ∧ adjMem kite !! 7%nat = Some rp ∧
  runs (moveSource_at 12%nat 7%nat before) (mkWorld kite []) (λ _ w',
    heard w' = [] ∧ source (graph w') 12%nat = Some (a_node rp) ∧
    target (graph w') 12%nat = Some (m_tgt re) ∧
    end_moved true kite 12%nat re (a_node rp)
      (placed before (m_adjSrc re) 7%nat [4%nat] []) (graph w')).
Proof.
  do 2 eexists. split; [vm_compute; reflexivity|]. split; [vm_compute; reflexivity|].
  eapply (moveSource_at_effect kite [] 12%nat).
  - apply (bool_decide_unpack _). vm_compute. reflexivity.
  - apply (bool_decide_unpack _). vm_compute. reflexivity.
  - vm_compute. reflexivity.
  - vm_compute. reflexivity.
  - vm_compute. reflexivity.
  - vm_compute. reflexivity.
  - vm_compute. lia.
Defined.

(** X6: [moveTarget(e, adjTgt, dir)]: the new target is the node of
    [adjTgt], and the target side of [e] is put directly before or after
    [adjTgt] in the rotation of that node, as [dir] says; the rest is as
    for [moveTarget(e, v)]. *)
Theorem moveTarget_at_effect g h e re pos rp rv dir l1 l2 :
  wf g → e ∈ edges g → edgeMem g !! e = Some re →
  adjMem g !! pos = Some rp → nodeMem g !! a_node rp = Some rv →
  adjEdges rv = l1 ++ pos :: l2 → m_tgt re ≠ a_node rp →
  runs (moveTarget_at e pos dir) (mkWorld g h) (λ _ w',
    heard w' = h ∧ source (graph w') e = Some (m_src re) ∧
    target (graph w') e = Some (a_node rp) ∧
    end_moved false g e re (a_node rp) (placed dir (m_adjTgt re) pos l1 l2) (graph w')).
Proof.
  intros Hwf Hin He Hp Hv Hrot Hne.
  destruct (wf_end false g e re Hwf Hin He) as (ra & rx & Ha & Hx & Hnd & Hax).
  destruct (wf_node _ _ _ Hwf Hv) as (_ & _ & Hndv & _).
  assert (Hins : insertAt dir (m_adjTgt re) pos (adjEdges rv)
                 = Some (placed dir (m_adjTgt re) pos l1 l2)).
  { rewrite Hrot. apply insertAt_placed. rewrite Hrot in Hndv.
    apply NoDup_app in Hndv as (_ & Hd & _). intros Hc. apply (Hd _ Hc). by left. }
  eapply runs_mono; [by apply (runs_moveTarget_at g h e re ra rx rv pos rp dir)|].
  intros _ w' ->. cbn [graph heard]. split; [done|].
  split; [unfold source; cbn; by rewrite lookup_insert_eq|].
  split; [unfold target; cbn; by rewrite lookup_insert_eq|].
  apply moved_graph_end_moved; try done.
  by apply (insertAt_perm dir _ pos).
Qed.

Lemma moveTarget_at_effect_witness :
  ∃ re rp, edgeMem kite !! 12%nat = Some re ∧ adjMem kite !! 4%nat = Some rp ∧
  runs (moveTarget_at 12%nat 4%nat after) (mkWorld kite []) (λ _ w',
    heard w' = [] ∧ source (graph w') 12%nat = Some (m_src re) ∧
    target (graph w') 12%nat = Some (a_node rp) ∧
    end_moved false kite 12%nat re (a_node rp)
      (placed after (m_adjTgt re) 4%nat [] [7%nat]) (graph w')).
Proof.
  do 2 eexists. split; [vm_compute; reflexivity|]. split; [vm_compute; reflexivity|].
  eapply (moveTarget_at_effect kite [] 12%nat).
  - apply (bool_decide_unpack _). vm_compute. reflexivity.
  - apply (bool_decide_unpack _). vm_compute. reflexivity.
  - vm_compute. reflexivity.
  - vm_compute. reflexivity.
  - vm_compute. reflexivity.
  - vm_compute. reflexivity.
  - vm_compute. lia.
Defined.
